(** * Atlas: the streaming chat relay and its client

    A shallow embedding of the two programs of the repository that carry
    its logic:

    - [supabase/functions/chat/index.ts], the relay proxy: one handler
      with a bounded retry loop around the upstream completion API;
    - [src/components/ChatInterface.tsx], the two conversation drivers
      [streamChat] and [streamAssistantChat] with their line-oriented
      event-stream decoder and the transcript fold.

    The handler and the drivers are [async] functions that talk to the
    network, the clock and the React state.  Here they are pure functions:
    the network is an oracle indexed by the call number, and every effect
    the code performs (a fetch with its answer, a sleep, a toast, a
    console message, a state update) is written to a log that is returned
    with the result, in the order the effects happen.

    The file has these parts: the JavaScript runtime the programs rely on
    (strings, numbers, [JSON.parse], headers); the two programs; sample
    inputs; the tab state and the two forms of the component; the rounds
    of the drivers and the event stream, as the proofs speak of them; and
    the proofs. *)

From Stdlib Require Import ZArith QArith Qabs Ascii String List Bool Lia.
From Stdlib Require Import DecimalString.
From stdpp Require Import base decidable option list.

Open Scope string_scope.
Open Scope Z_scope.

(** ** The JavaScript runtime, as far as the programs use it *)

Module JS.

(** Text is a [string] holding UTF-8: one [ascii] per byte.  All the
    characters the programs look for (line feed, carriage return, colon,
    the [data: ] prefix, the JSON punctuation) are single bytes that never
    occur inside a multi-byte sequence, so searching and slicing on bytes
    agrees with searching and slicing on characters. *)

Definition code (c : ascii) : N := N_of_ascii c.

Fixpoint codes (s : string) : list N :=
  match s with
  | EmptyString => []
  | String c r => code c :: codes r
  end.

Fixpoint of_codes (l : list N) : string :=
  match l with
  | [] => EmptyString
  | n :: r => String (ascii_of_N n) (of_codes r)
  end.

(** [s.length] *)
Definition length (s : string) : Z := Z.of_nat (String.length s).

(** [s.indexOf(pat)]: the first position of [pat], or -1. *)
Definition indexOf (pat s : string) : Z :=
  match String.index 0 pat s with
  | Some i => Z.of_nat i
  | None => -1
  end.

(** A relative index of [slice]: negative counts from the end, and the
    result is clamped to the string. *)
Definition relative (len i : Z) : Z :=
  if i <? 0 then Z.max (len + i) 0 else Z.min i len.

(** [s.slice(start, end)]; [end_ = None] is the one-argument call. *)
Definition slice (s : string) (start : Z) (end_ : option Z) : string :=
  let len := length s in
  let from := relative len start in
  let to := match end_ with None => len | Some e => relative len e end in
  String.substring (Z.to_nat from) (Z.to_nat (Z.max (to - from) 0)) s.

(** [s.startsWith(p)] and [s.endsWith(p)] *)
Definition startsWith (s p : string) : bool := String.prefix p s.

Definition endsWith (s p : string) : bool :=
  let ls := length s in
  let lp := length p in
  (lp <=? ls) && String.eqb (slice s (ls - lp) None) p.

(** The byte length of a white space or line terminator character at the
    head of a byte list, 0 when there is none.  These are the characters
    that [trim] and the string-to-number conversion strip: TAB, LF, VT, FF,
    CR, SP, U+00A0, U+1680, U+2000..U+200A, U+2028, U+2029, U+202F, U+205F,
    U+3000 and U+FEFF, in their UTF-8 form. *)
Definition ws_head (l : list N) : nat :=
  match l with
  | (9 | 10 | 11 | 12 | 13 | 32)%N :: _ => 1
  | 194%N :: 160%N :: _ => 2
  | 225%N :: 154%N :: 128%N :: _ => 3
  | 226%N :: 128%N :: c :: _ =>
      if ((128 <=? c) && (c <=? 138))%N || (c =? 168)%N || (c =? 169)%N
         || (c =? 175)%N
      then 3 else 0
  | 226%N :: 129%N :: 159%N :: _ => 3
  | 227%N :: 128%N :: 128%N :: _ => 3
  | 239%N :: 187%N :: 191%N :: _ => 3
  | _ => 0
  end%nat.

(** The same at the end of a text, read on the reversed byte list. *)
Definition ws_last (r : list N) : nat :=
  match r with
  | (9 | 10 | 11 | 12 | 13 | 32)%N :: _ => 1
  | 160%N :: 194%N :: _ => 2
  | 128%N :: 154%N :: 225%N :: _ => 3
  | 159%N :: 129%N :: 226%N :: _ => 3
  | 128%N :: 128%N :: 227%N :: _ => 3
  | 191%N :: 187%N :: 239%N :: _ => 3
  | c :: 128%N :: 226%N :: _ =>
      if ((128 <=? c) && (c <=? 138))%N || (c =? 168)%N || (c =? 169)%N
         || (c =? 175)%N
      then 3 else 0
  | _ => 0
  end%nat.

(** Strip with [head] as long as it finds something; the fuel is the
    number of bytes, and every round removes at least one. *)
Fixpoint strip (head : list N -> nat) (fuel : nat) (l : list N) : list N :=
  match fuel with
  | O => l
  | S fuel' =>
      match head l with
      | O => l
      | n => strip head fuel' (drop n l)
      end
  end.

Definition trimStart (l : list N) : list N := strip ws_head (List.length l) l.

Definition trimEnd (l : list N) : list N :=
  rev (strip ws_last (List.length l) (rev l)).

(** [s.trim()] *)
Definition trim (s : string) : string :=
  of_codes (trimEnd (trimStart (codes s))).

(** *** Numbers

    The numbers the programs compute with are the retry delays and the
    number a header converts to.  A number is [NaN], an infinity, or a
    finite value, held as the rational it stands for.  JavaScript holds
    the double nearest to that rational; the two limits where rounding
    changes which branch the programs take are kept: a literal of half
    the least double or less is 0, and one past the largest double is an
    infinity. *)

Inductive number : Type :=
  | NaN
  | Infinity (negative : bool)
  | Num (q : Q).

Definition is_digit (n : N) : bool := ((48 <=? n) && (n <=? 57))%N.

(** The value of a digit in a radix up to 16, [None] for any other
    character. *)
Definition digit_value (radix : Z) (c : N) : option Z :=
  let v :=
    if ((48 <=? c) && (c <=? 57))%N then Some (Z.of_N c - 48)
    else if ((97 <=? c) && (c <=? 102))%N then Some (Z.of_N c - 87)
    else if ((65 <=? c) && (c <=? 70))%N then Some (Z.of_N c - 55)
    else None in
  match v with
  | Some d => if d <? radix then Some d else None
  | None => None
  end.

(** The value of a text made of digits only, [None] when it is empty or
    holds anything else. *)
Fixpoint digits_from (radix acc : Z) (l : list N) : option Z :=
  match l with
  | [] => Some acc
  | c :: r =>
      match digit_value radix c with
      | Some d => digits_from radix (radix * acc + d) r
      | None => None
      end
  end.

Definition digits (radix : Z) (l : list N) : option Z :=
  match l with
  | [] => None
  | _ => digits_from radix 0 l
  end.

(** The decimal digits at the head of a text, and what follows them. *)
Fixpoint span_digits (l : list N) : list N * list N :=
  match l with
  | c :: r =>
      if is_digit c then let '(ds, rest) := span_digits r in (c :: ds, rest)
      else ([], l)
  | [] => ([], [])
  end.

(** The exponent part that ends a decimal literal: nothing, or [e] or
    [E], an optional sign and one digit or more. *)
Definition exponent (l : list N) : option Z :=
  match l with
  | [] => Some 0
  | c :: r =>
      if ((c =? 101) || (c =? 69))%N then
        match r with
        | 43%N :: ds => digits 10 ds
        | 45%N :: ds => option_map Z.opp (digits 10 ds)
        | ds => digits 10 ds
        end
      else None
  end.

(** An unsigned decimal literal: digits with an optional fraction, or a
    fraction alone, and an optional exponent. *)
Definition decimal (l : list N) : option Q :=
  let '(int, after) := span_digits l in
  let '(frac, rest) :=
    match after with
    | 46%N :: r => span_digits r
    | _ => ([], after)
    end in
  match (int ++ frac)%list with
  | [] => None
  | ds =>
      match digits_from 10 0 ds, exponent rest with
      | Some m, Some e =>
          Some (inject_Z m
                * Qpower (10 # 1) (e - Z.of_nat (List.length frac)))%Q
      | _, _ => None
      end
  end.

(** The number a rational literal stands for, with the two limits of the
    doubles. *)
Definition finite (q : Q) : number :=
  if Qle_bool (Qabs q) (1 # (2 ^ 1075)) then Num 0
  else if Qle_bool (inject_Z (2 ^ 1024 - 2 ^ 970)) (Qabs q)
       then Infinity (negb (Qle_bool 0 q))
  else Num (Qred q).

Fixpoint same (l k : list N) : bool :=
  match l, k with
  | [], [] => true
  | a :: l', b :: k' => (a =? b)%N && same l' k'
  | _, _ => false
  end.

Definition signed (negative : bool) (l : list N) : number :=
  if same l (codes "Infinity") then Infinity negative
  else match decimal l with
       | Some q => finite (if negative then - q else q)%Q
       | None => NaN
       end.

Definition radix_literal (radix : Z) (ds : list N) : number :=
  match digits radix ds with
  | Some z => finite (inject_Z z)
  | None => NaN
  end.

(** [Number(v)] for [v] a string or [null] ([None]): the conversion of a
    string to a number.  White space around the literal is dropped;
    [null], the empty text and a text of white space give 0, and a text
    that is no numeric literal gives [NaN]. *)
Definition Number (v : option string) : number :=
  match v with
  | None => Num 0
  | Some s =>
      match trimEnd (trimStart (codes s)) with
      | [] => Num 0
      | 48%N :: (120 | 88)%N :: ds => radix_literal 16 ds
      | 48%N :: (111 | 79)%N :: ds => radix_literal 8 ds
      | 48%N :: (98 | 66)%N :: ds => radix_literal 2 ds
      | 43%N :: r => signed false r
      | 45%N :: r => signed true r
      | l => signed false l
      end
  end.

(** [ToBoolean] on numbers: 0 and [NaN] are falsy. *)
Definition truthy_number (n : number) : bool :=
  match n with
  | NaN => false
  | Infinity _ => true
  | Num q => negb (Qeq_bool q 0)
  end.

(** [a || b] on numbers. *)
Definition or_else (a b : number) : number :=
  if truthy_number a then a else b.

(** *** JSON values *)

#[warnings="-register-all"]
Inductive json : Type :=
  | JNull
  | JBool (b : bool)
  | JNumber (lexeme : string)
  | JString (s : string)
  | JArray (elements : list json)
  | JObject (members : list (string * json)).

(** [QuoteJSONString]: the text of a string inside [JSON.stringify]. *)
Definition hex_digit (n : N) : N :=
  if (n <? 10)%N then (48 + n)%N else (87 + n)%N.

Definition quote_unit (c : N) : list N :=
  if (c =? 34)%N then [92; 34]%N
  else if (c =? 92)%N then [92; 92]%N
  else if (c =? 8)%N then [92; 98]%N
  else if (c =? 12)%N then [92; 102]%N
  else if (c =? 10)%N then [92; 110]%N
  else if (c =? 13)%N then [92; 114]%N
  else if (c =? 9)%N then [92; 116]%N
  else if (c <? 32)%N
       then [92; 117; 48; 48; hex_digit (c / 16); hex_digit (c mod 16)]%N
  else [c].

Definition quote (s : string) : string :=
  of_codes ([34%N] ++ concat (map quote_unit (codes s)) ++ [34%N]).

(** *** [JSON.parse]

    The text is cut into tokens by a scanner that reads one byte at a
    time, and the tokens drive a stack automaton; both are folds over
    their input, so parsing is total.  [None] is the [SyntaxError]. *)

Inductive token : Type :=
  | TLBrace | TRBrace | TLBracket | TRBracket | TColon | TComma
  | TString (s : string)
  | TNumber (lexeme : string)
  | TTrue | TFalse | TNull.

(** The states of the number grammar: an optional minus, then 0 or a
    digit string that does not start with 0, then an optional fraction (a
    dot and one digit or more), then an optional exponent (e or E, an
    optional sign, one digit or more). *)
Inductive num_state : Type :=
  | NMinus | NZero | NInt | NDot | NFrac | NE | NESign | NExp.

Definition num_accepting (q : num_state) : bool :=
  match q with
  | NZero | NInt | NFrac | NExp => true
  | NMinus | NDot | NE | NESign => false
  end.

Definition is_e (c : N) : bool := ((c =? 101) || (c =? 69))%N.

(** One more byte of a number: the next state, or [None] when the byte
    does not continue the number. *)
Definition num_step (q : num_state) (c : N) : option num_state :=
  match q with
  | NMinus =>
      if (c =? 48)%N then Some NZero
      else if is_digit c then Some NInt else None
  | NZero =>
      if (c =? 46)%N then Some NDot else if is_e c then Some NE else None
  | NInt =>
      if is_digit c then Some NInt
      else if (c =? 46)%N then Some NDot
      else if is_e c then Some NE else None
  | NDot => if is_digit c then Some NFrac else None
  | NFrac =>
      if is_digit c then Some NFrac else if is_e c then Some NE else None
  | NE =>
      if ((c =? 43) || (c =? 45))%N then Some NESign
      else if is_digit c then Some NExp else None
  | NESign => if is_digit c then Some NExp else None
  | NExp => if is_digit c then Some NExp else None
  end.

(** The UTF-8 bytes of a code point (a lone surrogate takes the
    three-byte form). *)
Definition utf8 (n : N) : list N :=
  (if n <? 128 then [n]
   else if n <? 2048 then [192 + n / 64; 128 + n mod 64]
   else if n <? 65536
        then [224 + n / 4096; 128 + (n / 64) mod 64; 128 + n mod 64]
   else [240 + n / 262144; 128 + (n / 4096) mod 64;
         128 + (n / 64) mod 64; 128 + n mod 64])%N.

Definition hex_value (c : N) : option N :=
  (if (48 <=? c) && (c <=? 57) then Some (c - 48)
   else if (97 <=? c) && (c <=? 102) then Some (c - 87)
   else if (65 <=? c) && (c <=? 70) then Some (c - 55)
   else None)%N.

Definition is_high_surrogate (u : N) : bool := ((55296 <=? u) && (u <=? 56319))%N.
Definition is_low_surrogate (u : N) : bool := ((56320 <=? u) && (u <=? 57343))%N.

(** The scanner.  Inside a string, [acc] is the text read so far,
    reversed, and [hi] a high surrogate written as a [\u] escape that
    still waits for its low half. *)
Inductive scan : Type :=
  | Idle
  | InString (acc : list N) (hi : option N)
  | InEscape (acc : list N) (hi : option N)
  | InHex (acc : list N) (hi : option N) (n : nat) (v : N)
  | InNumber (q : num_state) (acc : list N)
  | InWord (rest : list N) (t : token).

Definition flush (acc : list N) (hi : option N) : list N :=
  match hi with
  | None => acc
  | Some h => rev (utf8 h) ++ acc
  end.

(** A complete [\uXXXX] escape with value [u]. *)
Definition escape_unit (acc : list N) (hi : option N) (u : N) : scan :=
  match hi with
  | Some h =>
      if is_low_surrogate u
      then InString
             (rev (utf8 (65536 + (h - 55296) * 1024 + (u - 56320))%N) ++ acc)
             None
      else if is_high_surrogate u then InString (flush acc hi) (Some u)
      else InString (rev (utf8 u) ++ flush acc hi) None
  | None =>
      if is_high_surrogate u then InString acc (Some u)
      else InString (rev (utf8 u) ++ acc) None
  end.

(** A byte read between tokens. *)
Definition scan_idle (toks : list token) (c : N) : option (scan * list token) :=
  if ((c =? 32) || (c =? 9) || (c =? 10) || (c =? 13))%N then Some (Idle, toks)
  else if (c =? 123)%N then Some (Idle, TLBrace :: toks)
  else if (c =? 125)%N then Some (Idle, TRBrace :: toks)
  else if (c =? 91)%N then Some (Idle, TLBracket :: toks)
  else if (c =? 93)%N then Some (Idle, TRBracket :: toks)
  else if (c =? 58)%N then Some (Idle, TColon :: toks)
  else if (c =? 44)%N then Some (Idle, TComma :: toks)
  else if (c =? 34)%N then Some (InString [] None, toks)
  else if (c =? 45)%N then Some (InNumber NMinus [c], toks)
  else if (c =? 48)%N then Some (InNumber NZero [c], toks)
  else if is_digit c then Some (InNumber NInt [c], toks)
  else if (c =? 116)%N then Some (InWord (codes "rue") TTrue, toks)
  else if (c =? 102)%N then Some (InWord (codes "alse") TFalse, toks)
  else if (c =? 110)%N then Some (InWord (codes "ull") TNull, toks)
  else None.

(** One byte; the tokens are collected in reverse. *)
Definition scan_step (st : scan) (toks : list token) (c : N)
  : option (scan * list token) :=
  match st with
  | Idle => scan_idle toks c
  | InString acc hi =>
      if (c =? 34)%N
      then Some (Idle, TString (of_codes (rev (flush acc hi))) :: toks)
      else if (c =? 92)%N then Some (InEscape acc hi, toks)
      else if (c <? 32)%N then None
      else Some (InString (c :: flush acc hi) None, toks)
  | InEscape acc hi =>
      let plain (b : N) := Some (InString (b :: flush acc hi) None, toks) in
      if ((c =? 34) || (c =? 92) || (c =? 47))%N then plain c
      else if (c =? 98)%N then plain 8%N
      else if (c =? 102)%N then plain 12%N
      else if (c =? 110)%N then plain 10%N
      else if (c =? 114)%N then plain 13%N
      else if (c =? 116)%N then plain 9%N
      else if (c =? 117)%N then Some (InHex acc hi 0 0%N, toks)
      else None
  | InHex acc hi n v =>
      match hex_value c with
      | None => None
      | Some d =>
          let v' := (16 * v + d)%N in
          if (n =? 3)%nat then Some (escape_unit acc hi v', toks)
          else Some (InHex acc hi (S n) v', toks)
      end
  | InNumber q acc =>
      match num_step q c with
      | Some q' => Some (InNumber q' (c :: acc), toks)
      | None =>
          if num_accepting q
          then scan_idle (TNumber (of_codes (rev acc)) :: toks) c
          else None
      end
  | InWord rest t =>
      match rest with
      | [] => None
      | x :: rest' =>
          if (c =? x)%N
          then match rest' with
               | [] => Some (Idle, t :: toks)
               | _ => Some (InWord rest' t, toks)
               end
          else None
      end
  end.

Fixpoint scan_all (st : scan) (toks : list token) (l : list N)
  : option (list token) :=
  match l with
  | [] =>
      match st with
      | Idle => Some (rev toks)
      | InNumber q acc =>
          if num_accepting q
          then Some (rev (TNumber (of_codes (rev acc)) :: toks))
          else None
      | _ => None
      end
  | c :: r =>
      match scan_step st toks c with
      | Some (st', toks') => scan_all st' toks' r
      | None => None
      end
  end.

Definition tokens (text : string) : option (list token) :=
  scan_all Idle [] (codes text).

(** The stack automaton.  A frame is an array or an object under
    construction, its parts in reverse; an object frame remembers the key
    whose value is being read. *)
Inductive frame : Type :=
  | FArray (elements : list json)
  | FObject (members : list (string * json)) (key : option string).

Inductive expect : Type :=
  | Value          (* a value *)
  | ValueOrClose   (* just after [[]: a value or []] *)
  | Key            (* after a comma in an object: a key *)
  | KeyOrClose     (* just after [{]: a key or [}] *)
  | Colon
  | Next           (* after a value in a container: a comma or the close *)
  | Done (v : json).

Definition deliver (v : json) (stack : list frame)
  : option (list frame * expect) :=
  match stack with
  | [] => Some ([], Done v)
  | FArray l :: st => Some (FArray (v :: l) :: st, Next)
  | FObject m (Some k) :: st => Some (FObject ((k, v) :: m) None :: st, Next)
  | FObject _ None :: _ => None
  end.

Definition open_value (t : token) (stack : list frame)
  : option (list frame * expect) :=
  match t with
  | TNull => deliver JNull stack
  | TTrue => deliver (JBool true) stack
  | TFalse => deliver (JBool false) stack
  | TNumber l => deliver (JNumber l) stack
  | TString s => deliver (JString s) stack
  | TLBracket => Some (FArray [] :: stack, ValueOrClose)
  | TLBrace => Some (FObject [] None :: stack, KeyOrClose)
  | TRBrace | TRBracket | TColon | TComma => None
  end.

Definition set_key (k : string) (stack : list frame)
  : option (list frame * expect) :=
  match stack with
  | FObject m None :: st => Some (FObject m (Some k) :: st, Colon)
  | _ => None
  end.

Definition close_array (stack : list frame) : option (list frame * expect) :=
  match stack with
  | FArray l :: st => deliver (JArray (rev l)) st
  | _ => None
  end.

Definition close_object (stack : list frame) : option (list frame * expect) :=
  match stack with
  | FObject m None :: st => deliver (JObject (rev m)) st
  | _ => None
  end.

Definition parse_step (stack : list frame) (e : expect) (t : token)
  : option (list frame * expect) :=
  match e, t with
  | Value, _ => open_value t stack
  | ValueOrClose, TRBracket => close_array stack
  | ValueOrClose, _ => open_value t stack
  | Key, TString k => set_key k stack
  | KeyOrClose, TString k => set_key k stack
  | KeyOrClose, TRBrace => close_object stack
  | Colon, TColon => Some (stack, Value)
  | Next, TComma =>
      match stack with
      | FArray _ :: _ => Some (stack, Value)
      | FObject _ None :: _ => Some (stack, Key)
      | _ => None
      end
  | Next, TRBracket => close_array stack
  | Next, TRBrace => close_object stack
  | _, _ => None
  end.

Fixpoint parse_all (stack : list frame) (e : expect) (ts : list token)
  : option json :=
  match ts with
  | [] => match e, stack with Done v, [] => Some v | _, _ => None end
  | t :: r =>
      match parse_step stack e t with
      | Some (stack', e') => parse_all stack' e' r
      | None => None
      end
  end.

(** [JSON.parse(text)]; [None] when it throws. *)
Definition JSON_parse (text : string) : option json :=
  match tokens text with
  | Some ts => parse_all [] Value ts
  | None => None
  end.

(** *** Reading a parsed value

    A JavaScript value read out of a parsed document is a [json] or
    [undefined]; [undefined] is [None]. *)

(** The own property [k] of an object literal; a repeated key keeps its
    last value. *)
Fixpoint get_own (k : string) (m : list (string * json)) : option json :=
  match m with
  | [] => None
  | (k', v) :: r =>
      match get_own k r with
      | Some v' => Some v'
      | None => if String.eqb k k' then Some v else None
      end
  end.

(** [v.k] for [v] not [null] and [k] one of the names the decoder reads
    ([choices], [delta], [content]): only an object can have them, a
    string, number, boolean or array has no such property. *)
Definition member (k : string) (v : json) : option json :=
  match v with
  | JObject m => get_own k m
  | _ => None
  end.

(** [v[0]] for [v] not [null]: the first element of an array, the
    property ["0"] of an object, the first unit of a string. *)
Definition element0 (v : json) : option json :=
  match v with
  | JArray l => head l
  | JObject m => get_own "0" m
  | JString (String c _) => Some (JString (String c EmptyString))
  | _ => None
  end.

(** [base?.f]: [undefined] when [base] is [null] or [undefined]. *)
Definition optional (base : option json) (f : json -> option json)
  : option json :=
  match base with
  | None | Some JNull => None
  | Some v => f v
  end.

(** [ToBoolean].  The number of a JSON number literal is the one the
    same text converts to. *)
Definition truthy (v : option json) : bool :=
  match v with
  | None | Some JNull => false
  | Some (JBool b) => b
  | Some (JNumber l) => truthy_number (Number (Some l))
  | Some (JString s) => negb (String.eqb s "")
  | Some (JArray _) | Some (JObject _) => true
  end.

(** [ToString] on a number read off its literal: an integer that a
    double holds exactly is printed in decimal digits; any other literal
    is given back as it is written, which is what JavaScript prints for a
    short decimal in its usual spelling.  A literal in another spelling
    (trailing zeros, an exponent, more digits than a double holds) is
    printed differently by JavaScript; the streams of the theorems below
    carry strings as their contents, not numbers. *)
Definition number_to_string (lexeme : string) : string :=
  match Number (Some lexeme) with
  | Num (z # 1) =>
      if Z.abs z <=? 2 ^ 53 then NilZero.string_of_int (Z.to_int z)
      else lexeme
  | _ => lexeme
  end.

(** [ToString], as string concatenation applies it. *)
Fixpoint to_string (v : json) : string :=
  match v with
  | JNull => "null"
  | JBool true => "true"
  | JBool false => "false"
  | JNumber l => number_to_string l
  | JString s => s
  | JArray l =>
      String.concat ","
        (map (fun e => match e with JNull => "" | _ => to_string e end) l)
  | JObject _ => "[object Object]"
  end.

(** *** Headers of the Fetch API *)

Definition Headers : Type := list (string * string).

Definition lower_unit (c : N) : N :=
  if ((65 <=? c) && (c <=? 90))%N then (c + 32)%N else c.

Definition lower (s : string) : string := of_codes (map lower_unit (codes s)).

(** [headers.get(name)]: header names compare without case; the values
    of a header that is repeated are joined, in their order, with a comma
    and a space; [None] is [null]. *)
Fixpoint get (name : string) (h : Headers) : option string :=
  match h with
  | [] => None
  | (k, v) :: r =>
      if String.eqb (lower k) (lower name)
      then match get name r with
           | Some more => Some (v ++ ", " ++ more)
           | None => Some v
           end
      else get name r
  end.

(** [headers.delete(name)] *)
Definition delete (name : string) (h : Headers) : Headers :=
  List.filter (fun kv => negb (String.eqb (lower (fst kv)) (lower name))) h.

(** [headers.set(name, value)]: the first header of that name takes the
    value and the others of that name go; a new header goes last. *)
Fixpoint set (name value : string) (h : Headers) : Headers :=
  match h with
  | [] => [(name, value)]
  | (k, v) :: r =>
      if String.eqb (lower k) (lower name) then (k, value) :: delete name r
      else (k, v) :: set name value r
  end.

(** *** Thrown values *)

Inductive thrown : Type :=
  | Error (message : string)   (* an [Error] object, of any subclass *)
  | NotAnError.                (* any other thrown value *)

End JS.

(** ** The relay proxy: [supabase/functions/chat/index.ts] *)

Module Proxy.
Import JS.

(** A response, the upstream's or the handler's own.  [body] is the body
    object: the bytes it streams, or [None] for a null body.
    [body_failure] is set when the body cannot be read to its end: it is
    the exception with which reading it then rejects. *)
Record Response : Type := {
  status : Z;
  headers : Headers;
  body : option string;
  body_failure : option thrown
}.

(** [response.ok] *)
Definition ok (r : Response) : bool := (200 <=? status r) && (status r <=? 299).

(** [await response.text()]: the text of the body, the empty text for a
    null body, or the exception of a body that cannot be read. *)
Definition text (r : Response) : thrown + string :=
  match body_failure r with
  | Some e => inl e
  | None =>
      inr (match body r with
           | Some b => b
           | None => ""
           end)
  end.

Definition corsHeaders : Headers :=
  [("Access-Control-Allow-Origin", "*");
   ("Access-Control-Allow-Headers",
    "authorization, x-client-info, apikey, content-type")].

(** [JSON.stringify({ error: message })] *)
Definition stringify_error (message : string) : string :=
  "{" ++ quote "error" ++ ":" ++ quote message ++ "}".

(** [new Response(JSON.stringify({ error }), { status, headers: {
    ...corsHeaders, "Content-Type": "application/json" } })] *)
Definition error_response (st : Z) (message : string) : Response :=
  {| status := st;
     headers := (corsHeaders ++ [("Content-Type", "application/json")])%list;
     body := Some (stringify_error message);
     body_failure := None |}.

(** The value of [messages] where the request body is spread into the
    upstream request: the items of an array, or something that is not
    iterable, with the [TypeError] the spread raises. *)
Inductive Spreadable : Type :=
  | Items (l : list json)
  | NotIterable (e : thrown).

(** What [const { messages } = await req.json()] gives.  The line throws
    in two ways: [req.json()] rejects, for a body that is not JSON, or the
    destructuring throws a [TypeError], for the JSON [null], which has no
    properties.  [Unreadable e] is either of the two, with the exception
    [e] thrown.  Otherwise the line completes, and [Readable] holds the
    value of the [messages] property: for a body that is JSON and is not
    [null]. *)
Inductive Payload : Type :=
  | Unreadable (e : thrown)
  | Readable (messages : Spreadable).

Record Request : Type := {
  method : string;
  payload : Payload
}.

(** The request sent upstream: the bearer token and the three fields of
    the JSON body. *)
Record Outbound : Type := {
  authorization : string;
  model : string;
  messages : list json;
  stream : bool
}.

(** The upstream: what the [n]-th [fetch] of this invocation (counted
    from 0) gives for the request sent, a response or a rejection. *)
Definition Upstream : Type := nat -> Outbound -> thrown + Response.

Inductive Effect : Type :=
  | Fetch (req : Outbound) (answer : thrown + Response)
  | Sleep (ms : number)
  | LogGatewayError (upstream_status : Z) (t : string)
  | LogChatError (e : thrown).

(** How the body of the [try] block ends. *)
Inductive Completion : Type :=
  | Return (r : Response)
  | Throw (e : thrown).

Definition primary_model : string := "google/gemini-2.5-flash".
Definition lite_model : string := "google/gemini-2.5-flash-lite".
Definition maxRetries : nat := 3.

Definition system_message : json :=
  JObject
    [("role", JString "system");
     ("content",
      JString "You are a helpful, knowledgeable AI assistant. Provide comprehensive, detailed, multi-paragraph answers with examples and clear structure when appropriate.")].

(** The request of one attempt: [Authorization: Bearer <key>] and the body
    [{ model, messages: [system, ...messages], stream: true }]. *)
Definition upstream_request (key model : string) (l : list json) : Outbound :=
  {| authorization := "Bearer " ++ key;
     model := model;
     messages := system_message :: l;
     stream := true |}.

(** [e instanceof Error ? e.message : "Unknown error"] *)
Definition error_message (e : thrown) : string :=
  match e with
  | Error message => message
  | NotAnError => "Unknown error"
  end.

(** The response of the success branch: the upstream body handed on, the
    default status, and the headers built for it. *)
Definition pass_through (model : string) (response : Response) : Response :=
  let headers :=
    set "x-model-used" model
      (corsHeaders ++ [("Content-Type", "text/event-stream")])%list in
  {| status := 200; headers := headers; body := body response;
     body_failure := body_failure response |}.

(** [Number(response.headers.get("retry-after")) || (attempt + 1) * 800] *)
Definition retryAfter (response : Response) (attempt : nat) : number :=
  or_else (Number (get "retry-after" (headers response)))
          (Num (inject_Z ((Z.of_nat attempt + 1) * 800))).

Section Handler.

Variable LOVABLE_API_KEY : string.
Variable msgs : Spreadable.
Variable upstream : Upstream.

(** The [for] loop, from the iteration [attempt] on; [left] is
    [maxRetries - attempt], the number of iterations the loop condition
    still allows.  The result is how the [try] block ends and the effects
    from this iteration on, in the order they happen. *)
Fixpoint attempts (left : nat) (attempt : nat) (model : string)
    (triedLite : bool) : Completion * list Effect :=
  match left with
  | O =>
      (* Exhausted retries *)
      (Return (error_response 429
                 "Rate limits exceeded, please try again shortly."), [])
  | S left' =>
      match msgs with
      | NotIterable e => (Throw e, [])
      | Items l =>
          let req := upstream_request LOVABLE_API_KEY model l in
          match upstream attempt req with
          | inl e => (Throw e, [Fetch req (inl e)])
          | inr response =>
              if ok response then
                (Return (pass_through model response),
                 [Fetch req (inr response)])
              else if status response =? 429 then
                (* Backoff on 429 *)
                let '(c, es) := attempts left' (S attempt) model triedLite in
                (c, Fetch req (inr response)
                      :: Sleep (retryAfter response attempt) :: es)
              else if (status response =? 402) && negb triedLite then
                (* If credits are low, fall back to a cheaper model once *)
                let '(c, es) := attempts left' (S attempt) lite_model true in
                (c, Fetch req (inr response) :: es)
              else if status response =? 402 then
                (Return (error_response 402
                           "Payment required. Please add credits to your Lovable AI workspace."),
                 [Fetch req (inr response)])
              else
                match text response with
                | inl e => (Throw e, [Fetch req (inr response)])
                | inr t =>
                    (Return (error_response 500 "AI gateway error"),
                     [Fetch req (inr response);
                      LogGatewayError (status response) t])
                end
          end
      end
  end.

End Handler.

(** The handler given to [serve].  [env_key] is
    [Deno.env.get("LOVABLE_API_KEY")], [None] when the variable is not
    set.  The result is the response and the effects in the order they
    happened. *)
Definition serve (env_key : option string) (upstream : Upstream)
    (req : Request) : Response * list Effect :=
  if String.eqb (method req) "OPTIONS"
  then ({| status := 200; headers := corsHeaders; body := None;
            body_failure := None |}, [])
  else
    let '(completion, log) :=
      match payload req with
      | Unreadable e => (Throw e, [])
      | Readable msgs =>
          match env_key with
          | None | Some "" =>
              (Throw (Error "LOVABLE_API_KEY is not configured"), [])
          | Some key =>
              attempts key msgs upstream maxRetries 0 primary_model false
          end
      end in
    match completion with
    | Return r => (r, log)
    | Throw e =>
        (error_response 500 (error_message e), (log ++ [LogChatError e])%list)
    end.

(** What a log shows: the fetches with their answers, and the delays
    slept. *)
Fixpoint fetches (log : list Effect) : list (Outbound * (thrown + Response)) :=
  match log with
  | [] => []
  | Fetch q a :: r => (q, a) :: fetches r
  | _ :: r => fetches r
  end.

Fixpoint sleeps (log : list Effect) : list number :=
  match log with
  | [] => []
  | Sleep d :: r => d :: sleeps r
  | _ :: r => sleeps r
  end.

(** The fetches that were answered with a rate-limit response. *)
Definition rate_limited (log : list Effect)
  : list (Outbound * (thrown + Response)) :=
  List.filter (fun f => match snd f with
                        | inr r => status r =? 429
                        | inl _ => false
                        end) (fetches log).

(** The downgrades of a log: the fetches made with the primary model that
    were answered with a quota response.  The loop holds the primary model
    exactly as long as [triedLite] is false, so these are the passes
    through the branch that switches the model. *)
Fixpoint downgrades (log : list Effect) : nat :=
  match log with
  | [] => 0
  | Fetch q (inr r) :: rest =>
      if String.eqb (model q) primary_model && (status r =? 402)
      then S (downgrades rest) else downgrades rest
  | _ :: rest => downgrades rest
  end.

(** The two models of the handler. *)
Definition configured (model : string) : Prop :=
  model = primary_model \/ model = lite_model.

(** The loop variables go together: the primary model before the
    downgrade, the cheaper one after it. *)
Definition paired (model : string) (triedLite : bool) : Prop :=
  (triedLite = false /\ model = primary_model)
  \/ (triedLite = true /\ model = lite_model).

(** An upstream answer that is neither a success nor one of the two
    statuses the loop handles. *)
Definition gateway_failure (r : Response) : Prop :=
  ok r = false /\ status r <> 429 /\ status r <> 402.

End Proxy.

(** ** The conversation drivers: [src/components/ChatInterface.tsx] *)

Module Client.
Import JS.

Inductive Role : Type := system | user | assistant.

Record Message : Type := { role : Role; content : string }.

(** The body of a relay response as its reader delivers it: the chunks,
    then the end of the body, or a rejected [read] when [failure] is set. *)
Record Stream : Type := {
  chunks : list string;
  failure : option thrown
}.

Record Response : Type := {
  status : Z;
  headers : Headers;
  body : option Stream
}.

Definition ok (r : Response) : bool := (200 <=? status r) && (status r <=? 299).

(** The relay: what the [n]-th [fetch] of one driver call (counted from
    0) gives for the message list sent. *)
Definition Relay : Type := nat -> list Message -> thrown + Response.

(** The component state the drivers read and set. *)
Record State : Type := {
  messages : list Message;
  isLoading : bool;
  assistantMessages : list Message;
  isAssistantLoading : bool
}.

(** The two conversations.  The drivers carry the same decode loop and
    the same updater word for word; they differ in the state they set. *)
Inductive Conversation : Type := Primary | Auxiliary.

Definition transcript (c : Conversation) (st : State) : list Message :=
  match c with
  | Primary => messages st
  | Auxiliary => assistantMessages st
  end.

Definition loading (c : Conversation) (st : State) : bool :=
  match c with
  | Primary => isLoading st
  | Auxiliary => isAssistantLoading st
  end.

Record ToastArgs : Type := {
  title : string;
  description : string;
  destructive : bool
}.

Inductive Effect : Type :=
  | Fetch (sent : list Message) (answer : thrown + Response)
  | Sleep (ms : Z)
  | Toast (t : ToastArgs)
  | ConsoleError (label : string) (attempt : option Z) (e : thrown)
  | SetTranscript (c : Conversation) (value : list Message)
  | SetLoading (c : Conversation) (value : bool).

(** [setMessages] / [setAssistantMessages] with an updater function, and
    [setIsLoading] / [setIsAssistantLoading]: the new state and the
    effect that records the value set.  React may run an updater later
    than the call that queues it, and the updater of the decode loop reads
    [assistantContent] when it runs; here every updater runs at the call
    that queues it, in the order of the calls.  The last value set is the
    same either way; a value set on the way is, either way, the fold of
    what the accumulator held at the call or at some later point, and
    which of the two depends on when React runs the updater. *)
Definition setTranscript (c : Conversation)
    (updater : list Message -> list Message) (st : State)
  : State * list Effect :=
  let value := updater (transcript c st) in
  (match c with
   | Primary =>
       {| messages := value; isLoading := isLoading st;
          assistantMessages := assistantMessages st;
          isAssistantLoading := isAssistantLoading st |}
   | Auxiliary =>
       {| messages := messages st; isLoading := isLoading st;
          assistantMessages := value;
          isAssistantLoading := isAssistantLoading st |}
   end, [SetTranscript c value]).

Definition setLoading (c : Conversation) (value : bool) (st : State)
  : State * list Effect :=
  (match c with
   | Primary =>
       {| messages := messages st; isLoading := value;
          assistantMessages := assistantMessages st;
          isAssistantLoading := isAssistantLoading st |}
   | Auxiliary =>
       {| messages := messages st; isLoading := isLoading st;
          assistantMessages := assistantMessages st;
          isAssistantLoading := value |}
   end, [SetLoading c value]).

(** The updater both drivers pass to their setter:
    [(prev) => { const last = prev[prev.length - 1];
                 if (last?.role === "assistant")
                   return prev.map((m, i) => i === prev.length - 1
                                      ? { ...m, content: assistantContent } : m);
                 return [...prev, { role: "assistant", content: assistantContent }]; }].
    On the empty list [prev[-1]] is [undefined]; so is the lookup at
    [0 - 1 = 0] here. *)
Definition fold_delta (assistantContent : string) (prev : list Message)
  : list Message :=
  let last := prev !! (List.length prev - 1)%nat in
  match last with
  | Some {| role := assistant |} =>
      imap (fun i m =>
              if decide (i = (List.length prev - 1)%nat)
              then {| role := role m; content := assistantContent |}
              else m) prev
  | _ => (prev ++ [{| role := assistant; content := assistantContent |}])%list
  end.

(** The local variables of the decode loop. *)
Record Decoder : Type := {
  textBuffer : string;
  streamDone : bool;
  assistantContent : string
}.

Definition LF : string := String (ascii_of_N 10) EmptyString.
Definition CR : string := String (ascii_of_N 13) EmptyString.

(** [decoder.decode(value, { stream: true })].  A chunk is given here as
    the text it decodes to: the bytes are taken to be UTF-8 cut between
    characters, for which the streaming decoder returns every chunk as it
    is. *)
Definition decode (value : string) : string := value.

(** The body of the inner [try]: [JSON.parse(jsonStr)] and
    [parsed.choices?.[0]?.delta?.content].  [None] when either throws (the
    text is not JSON, or it is the JSON [null], which has no properties). *)
Definition delta_content (jsonStr : string) : option (option json) :=
  match JSON_parse jsonStr with
  | None => None
  | Some JNull => None
  | Some parsed =>
      Some (optional
              (optional (optional (member "choices" parsed) element0)
                        (member "delta"))
              (member "content"))
  end.

(** The inner [while]: take complete lines off [textBuffer].  Every round
    that goes on has shortened the buffer, so [fuel] above its length is
    never used up. *)
Fixpoint lines (fuel : nat) (c : Conversation) (d : Decoder) (st : State)
  : Decoder * State * list Effect :=
  match fuel with
  | O => (d, st, [])
  | S fuel' =>
      let newlineIndex := indexOf LF (textBuffer d) in
      if newlineIndex =? -1 then (d, st, [])
      else
        let line := slice (textBuffer d) 0 (Some newlineIndex) in
        let d := {| textBuffer := slice (textBuffer d) (newlineIndex + 1) None;
                    streamDone := streamDone d;
                    assistantContent := assistantContent d |} in
        let line := if endsWith line CR then slice line 0 (Some (-1)) else line in
        if startsWith line ":" || String.eqb (trim line) ""
        then lines fuel' c d st
        else if negb (startsWith line "data: ") then lines fuel' c d st
        else
          let jsonStr := trim (slice line 6 None) in
          if String.eqb jsonStr "[DONE]"
          then ({| textBuffer := textBuffer d; streamDone := true;
                   assistantContent := assistantContent d |}, st, [])
          else
            match delta_content jsonStr with
            | Some content =>
                if truthy content then
                  let text := match content with
                              | Some v => to_string v
                              | None => ""
                              end in
                  let d := {| textBuffer := textBuffer d;
                              streamDone := streamDone d;
                              assistantContent := assistantContent d ++ text |} in
                  let '(st, es) :=
                    setTranscript c (fold_delta (assistantContent d)) st in
                  let '(d, st, es') := lines fuel' c d st in
                  (d, st, (es ++ es')%list)
                else lines fuel' c d st
            | None =>
                ({| textBuffer := line ++ LF ++ textBuffer d;
                    streamDone := streamDone d;
                    assistantContent := assistantContent d |}, st, [])
            end
  end.

(** The outer [while (!streamDone)]: read chunk after chunk.  The third
    component is the exception of a rejected [read], if any. *)
Fixpoint reads (c : Conversation) (chunks : list string)
    (failure : option thrown) (d : Decoder) (st : State)
  : Decoder * State * option thrown * list Effect :=
  if streamDone d then (d, st, None, [])
  else
    match chunks with
    | [] => (d, st, failure, [])
    | value :: rest =>
        let d := {| textBuffer := textBuffer d ++ decode value;
                    streamDone := streamDone d;
                    assistantContent := assistantContent d |} in
        let '(d, st, es) := lines (S (String.length (textBuffer d))) c d st in
        let '(d, st, e, es') := reads c rest failure d st in
        (d, st, e, (es ++ es')%list)
    end.

(** [let textBuffer = ""; let streamDone = false;
    let assistantContent = "";] *)
Definition initial : Decoder :=
  {| textBuffer := ""; streamDone := false; assistantContent := "" |}.

(** The decode loop with its three fresh local variables. *)
Definition decode_stream (c : Conversation) (body : Stream) (st : State)
  : Decoder * State * option thrown * list Effect :=
  reads c (chunks body) (failure body) initial st.

Definition maxRetries : Z := 3.

(** [Math.round(delay / 1000)] for an integer [delay]. *)
Definition round_seconds (delay : Z) : Z := (delay + 500) / 1000.

Definition show (z : Z) : string := NilZero.string_of_int (Z.to_int z).

(** [modelUsed.includes("flash-lite")] *)
Definition includes (s pat : string) : bool :=
  match String.index 0 pat s with
  | Some _ => true
  | None => false
  end.

Section StreamChat.

Variable relay : Relay.
Variable newMessages : list Message.

(** The [catch (error)] of one round of [streamChat]'s retry loop, up to
    the decision to go on: [inl] carries the effects and the new
    [attempt] when the loop goes on, [inr] the final state and effects
    when the driver returns. *)
Definition chat_catch (attempt : Z) (error : thrown) (st : State)
  : (Z * list Effect) + (State * list Effect) :=
  let logged := ConsoleError "Chat error attempt" (Some (attempt + 1)) error in
  let attempt := attempt + 1 in
  if attempt >=? maxRetries then
    let '(st, es) := setLoading Primary false st in
    inr (st, logged
             :: Toast {| title := "Error";
                         description := "Failed to send message. Please try again.";
                         destructive := true |}
             :: es)
  else inl (attempt, [logged; Sleep (500 * attempt)]).

(** [streamChat]'s [while (attempt < maxRetries)] loop from one round on.
    [left] bounds the rounds that remain: every round that goes on has
    raised [attempt] and found it below [maxRetries], so [left] from
    [maxRetries - attempt] on is never used up.  [call] is the number of
    fetches made so far. *)
Fixpoint chat_rounds (left : nat) (call : nat) (attempt : Z) (st : State)
  : State * list Effect :=
  match left with
  | O => (st, [])
  | S left' =>
      if negb (attempt <? maxRetries) then (st, [])
      else
        let answer := relay call newMessages in
        let fetched := Fetch newMessages answer in
        let caught (error : thrown) (st : State) (es : list Effect) :=
          match chat_catch attempt error st with
          | inl (attempt, es') =>
              let '(st, es'') := chat_rounds left' (S call) attempt st in
              (st, (fetched :: es ++ es' ++ es'')%list)
          | inr (st, es') => (st, (fetched :: es ++ es')%list)
          end in
        match answer with
        | inl error => caught error st []
        | inr resp =>
            if status resp =? 429 then
              let attempt := attempt + 1 in
              if attempt <? maxRetries then
                let delay := 700 * attempt in (* backoff *)
                let '(st, es) := chat_rounds left' (S call) attempt st in
                (st, fetched
                     :: Toast {| title := "Rate limited";
                                 description :=
                                   "Retrying in " ++ show (round_seconds delay)
                                                  ++ "s...";
                                 destructive := false |}
                     :: Sleep delay :: es)
              else
                let '(st, es) := setLoading Primary false st in
                (st, fetched
                     :: Toast {| title := "Rate limit exceeded";
                                 description := "Please try again a bit later.";
                                 destructive := true |}
                     :: es)
            else if status resp =? 402 then
              let '(st, es) := setLoading Primary false st in
              (st, fetched
                   :: Toast {| title := "Out of credits";
                               description :=
                                 "Please add credits to your Lovable AI workspace.";
                               destructive := true |}
                   :: es)
            else
              match (if ok resp then body resp else None) with
              | None => caught (Error "Failed to start stream") st []
              | Some stream =>
                  (* Inform user if we switched to a cheaper model *)
                  let economy :=
                    match get "x-model-used" (headers resp) with
                    | Some modelUsed =>
                        if negb (String.eqb modelUsed "")
                           && includes modelUsed "flash-lite"
                        then [Toast {| title := "Economy mode";
                                       description :=
                                         "Using Gemini Flash Lite to avoid credit limits.";
                                       destructive := false |}]
                        else []
                    | None => []
                    end in
                  let '(_, st, thrown_, es) := decode_stream Primary stream st in
                  match thrown_ with
                  | Some error => caught error st (economy ++ es)%list
                  | None =>
                      let '(st, es') := setLoading Primary false st in
                      (* success, exit function *)
                      (st, (fetched :: economy ++ es ++ es')%list)
                  end
              end
        end
  end.

End StreamChat.

(** [streamChat(userMessage)], called in state [st]. *)
Definition streamChat (relay : Relay) (userMessage : string) (st : State)
  : State * list Effect :=
  let newMessages :=
    (messages st ++ [{| role := user; content := userMessage |}])%list in
  let '(st, es1) := setTranscript Primary (fun _ => newMessages) st in
  let '(st, es2) := setLoading Primary true st in
  let '(st, es3) :=
    chat_rounds relay newMessages (Z.to_nat maxRetries) 0 0 st in
  (st, (es1 ++ es2 ++ es3)%list).

(** The system prompt of the auxiliary conversation; [activeTabUrl] is
    [activeTab?.url], and [activeTab?.url || 'a website'] is the page
    named. *)
Definition systemPrompt (activeTabUrl : option string) : string :=
  let viewing :=
    match activeTabUrl with
    | None | Some "" => "a website"
    | Some url => url
    end in
  "You are a helpful AI assistant that helps users navigate and understand websites. The user is currently viewing: "
  ++ viewing
  ++ ". Help them find information, explain features, and guide them through the site.".

(** [streamAssistantChat(userMessage)], called in state [st]. *)
Definition streamAssistantChat (relay : Relay) (activeTabUrl : option string)
    (userMessage : string) (st : State) : State * list Effect :=
  let asked := {| role := user; content := userMessage |} in
  let newMessages :=
    ({| role := system; content := systemPrompt activeTabUrl |}
       :: assistantMessages st ++ [asked])%list in
  let shown := (assistantMessages st ++ [asked])%list in
  let '(st, es1) := setTranscript Auxiliary (fun _ => shown) st in
  let '(st, es2) := setLoading Auxiliary true st in
  let answer := relay 0%nat newMessages in
  let fetched := Fetch newMessages answer in
  let caught (error : thrown) (st : State) (es : list Effect) :=
    let '(st, es') := setLoading Auxiliary false st in
    (st, (es1 ++ es2 ++ fetched :: es
            ++ ConsoleError "Assistant chat error:" None error
            :: Toast {| title := "Error";
                        description := "Failed to send message.";
                        destructive := true |}
            :: es')%list) in
  match answer with
  | inl error => caught error st []
  | inr resp =>
      if status resp =? 429 then
        let '(st, es) := setLoading Auxiliary false st in
        (st, (es1 ++ es2 ++ fetched
                :: Toast {| title := "Rate limited";
                            description := "Please try again later.";
                            destructive := true |}
                :: es)%list)
      else if status resp =? 402 then
        let '(st, es) := setLoading Auxiliary false st in
        (st, (es1 ++ es2 ++ fetched
                :: Toast {| title := "Out of credits";
                            description := "Please add credits.";
                            destructive := true |}
                :: es)%list)
      else
        match (if ok resp then body resp else None) with
        | None => caught (Error "Failed to start stream") st []
        | Some stream =>
            let '(_, st, thrown_, es) := decode_stream Auxiliary stream st in
            match thrown_ with
            | Some error => caught error st es
            | None =>
                let '(st, es') := setLoading Auxiliary false st in
                (st, (es1 ++ es2 ++ fetched :: es ++ es')%list)
            end
        end
  end.

(** What a log shows: the fetches with their answers, the delays slept,
    and the values a transcript was set to. *)
Fixpoint fetches (log : list Effect)
  : list (list Message * (thrown + Response)) :=
  match log with
  | [] => []
  | Fetch sent a :: r => (sent, a) :: fetches r
  | _ :: r => fetches r
  end.

Fixpoint sleeps (log : list Effect) : list Z :=
  match log with
  | [] => []
  | Sleep ms :: r => ms :: sleeps r
  | _ :: r => sleeps r
  end.

(** The last entry of a transcript, if any, is not the assistant's. *)
Definition open_turn (prev : list Message) : Prop :=
  forall m, last prev = Some m -> role m <> assistant.

(** [t] is [base] followed by one assistant entry. *)
Definition one_reply (base t : list Message) : Prop :=
  exists acc, t = (base ++ [{| role := assistant; content := acc |}])%list.

(** What a decode loop does to the state: it applies the updater, with
    one accumulator after the other, to the transcript of its
    conversation, and logs every value. *)
Inductive updates (c : Conversation) : State -> list Effect -> State -> Prop :=
  | updates_none st : updates c st [] st
  | updates_more st acc es st' :
      updates c (fst (setTranscript c (fold_delta acc) st)) es st' ->
      updates c st
        (SetTranscript c (fold_delta acc (transcript c st)) :: es) st'.

End Client.

(** ** Sample inputs *)

Module Samples.
Import JS.

(** The text [s] with every apostrophe read as a double quote: JSON
    texts are written with apostrophes below. *)
Definition dq (s : string) : string :=
  of_codes (map (fun c => if (c =? 39)%N then 34%N else c) (codes s)).

Module OfProxy.
Import Proxy.

Definition hello : list json :=
  [JObject [("role", JString "user"); ("content", JString "hello")]].

Definition post : Request :=
  {| method := "POST"; payload := Readable (Items hello) |}.

(** A body that is not JSON: [req.json()] rejects. *)
Definition garbled : Request :=
  {| method := "POST";
     payload := Unreadable (Error "Unexpected end of JSON input") |}.

(** The body [null]: [req.json()] resolves, and the destructuring of its
    value throws. *)
Definition null_body : Request :=
  {| method := "POST";
     payload :=
       Unreadable
         (Error "Cannot destructure property 'messages' of '(intermediate value)' as it is null.") |}.

Definition answer (st : Z) (h : Headers) : Response :=
  {| status := st; headers := h; body := Some "upstream says";
     body_failure := None |}.

(** An answer whose body breaks off while it is read. *)
Definition severed (st : Z) : Response :=
  {| status := st; headers := []; body := Some "upstream";
     body_failure := Some (Error "error reading a body from connection") |}.

Definition success : Response :=
  {| status := 200; headers := [("content-type", "text/event-stream")];
     body := Some "data: [DONE]"; body_failure := None |}.

(** The upstream that gives the answers of [script] in turn, and
    [success] after them. *)
Definition scripted (script : list Response) : Upstream :=
  fun n _ => inr (nth n script success).

End OfProxy.

Module OfClient.
Import Client.

Definition fresh : State :=
  {| messages := []; isLoading := false;
     assistantMessages := []; isAssistantLoading := false |}.

(** A state in which the user has just asked something. *)
Definition asked : State :=
  {| messages := [{| role := user; content := "question" |}];
     isLoading := true;
     assistantMessages := [{| role := user; content := "where am I" |}];
     isAssistantLoading := true |}.

Definition limited : Response :=
  {| status := 429; headers := []; body := None |}.

(** A data line cut in the middle of its JSON: the two chunks. *)
Definition cut_1 : string := dq "data: {'choices':[{'delta':{'con".
Definition cut_2 : string := dq "tent':'hi'}}]}" ++ LF.

(** Three complete lines. *)
Definition line_He : string :=
  dq "data: {'choices':[{'delta':{'content':'He'}}]}" ++ LF.
Definition line_llo : string :=
  dq "data: {'choices':[{'delta':{'content':'llo'}}]}" ++ LF.
Definition line_DONE : string := "data: [DONE]" ++ LF.

(** A complete line whose payload is not JSON. *)
Definition line_bad : string := "data: {oops}" ++ LF.

End OfClient.

End Samples.

(** ** The browser tabs and the two forms: [src/components/ChatInterface.tsx] *)

Module Page.
Import JS.

Record BrowserTab : Type := {
  id : string;
  url : string;
  title : string;
  isExternal : bool
}.

(** The tab state of the component: [browserTabs] and [activeTabId],
    [None] for [null]. *)
Record Tabs : Type := {
  browserTabs : list BrowserTab;
  activeTabId : option string
}.

(** [browserTabs.find(tab => tab.id === activeTabId)] *)
Definition activeTab (st : Tabs) : option BrowserTab :=
  match activeTabId st with
  | Some active => List.find (fun tab => String.eqb (id tab) active) (browserTabs st)
  | None => None
  end.

(** The tab state holds together: no tab is open and none is active, or
    the active identifier names an open tab. *)
Definition consistent (st : Tabs) : Prop :=
  match activeTabId st with
  | Some _ => activeTab st <> None
  | None => browserTabs st = []
  end.

Inductive Effect : Type :=
  | WindowOpen (url target : string)
  | Toast (t : Client.ToastArgs).

(** The sites [openNewTab] does not embed. *)
Definition blocked_sites : list string :=
  ["amazon.com"; "google.com"; "facebook.com"; "twitter.com"; "x.com";
   "instagram.com"; "youtube.com"; "netflix.com"; "github.com";
   "linkedin.com"; "reddit.com"; "tiktok.com"].

(** [[...].some(blocked => hostname === blocked
                          || hostname.endsWith(`.${blocked}`))] *)
Definition blocksEmbedding (hostname : string) : bool :=
  existsb (fun blocked =>
             String.eqb hostname blocked || endsWith hostname ("." ++ blocked))
          blocked_sites.

(** [openInExternalTab(url)] *)
Definition openInExternalTab (url : string) : list Effect :=
  [WindowOpen url "_blank";
   Toast {| Client.title := "Opened in new tab";
            Client.description :=
              "This site blocks embedding and was opened in a new browser tab.";
            Client.destructive := false |}].

Section Browser.

(** [new URL(u).hostname], [inl] when the constructor throws; the host
    name of a URL is ASCII, so [lower] is its [toLowerCase()].
    [now] is what [Date.now()] gives. *)
Variable hostname_of : string -> thrown + string.
Variable now : Z.

(** [openNewTab(url)]; [inl] when it throws. *)
Definition openNewTab (url : string) (st : Tabs)
  : thrown + (Tabs * list Effect) :=
  let fullUrl := if startsWith url "http" then url else "https://" ++ url in
  (* Check if site is known to block embedding *)
  match hostname_of fullUrl with
  | inl e => inl e
  | inr host =>
      let hostname := lower host in
      if blocksEmbedding hostname then inr (st, openInExternalTab fullUrl)
      else
        let newTab := {| id := Client.show now; url := fullUrl;
                         title := hostname; isExternal := false |} in
        inr ({| browserTabs := (browserTabs st ++ [newTab])%list;
                activeTabId := Some (id newTab) |}, [])
  end.

End Browser.

(** [closeTab(tabId)].  The updater given to [setBrowserTabs] reads
    [activeTabId] as the handler captured it; here that is the value in
    the state the handler is called in, and the updater runs once. *)
Definition closeTab (tabId : string) (st : Tabs) : Tabs :=
  let filtered :=
    List.filter (fun tab => negb (String.eqb (id tab) tabId)) (browserTabs st) in
  let is_active :=
    match activeTabId st with
    | Some active => String.eqb active tabId
    | None => false
    end in
  {| browserTabs := filtered;
     activeTabId :=
       if is_active && (0 <? Z.of_nat (List.length filtered)) then
         match last filtered with
         | Some tab => Some (id tab)
         | None => activeTabId st
         end
       else if (Z.of_nat (List.length filtered) =? 0) then None
       else activeTabId st |}.

(** The pattern [urlPattern] of [handleSubmit] as a recogniser on the
    bytes of the text.  The pattern is anchored at both ends and reads: an
    optional [http://] or [https://], letters in either case; one label
    or more, each followed by a dot; a last label; and optionally a slash
    followed by any characters.  A label is one or more of [[\w-]]: a
    letter, a digit, the underscore or the hyphen, in ASCII with or
    without the [i] flag.  Any character is any but LF, CR, U+2028 and
    U+2029. *)
Definition is_word (c : N) : bool :=
  (((48 <=? c) && (c <=? 57)) || ((65 <=? c) && (c <=? 90))
   || ((97 <=? c) && (c <=? 122)) || (c =? 95) || (c =? 45))%N.

(** Any characters up to the end of the text. *)
Fixpoint any_to_end (l : list N) : bool :=
  match l with
  | [] => true
  | c :: r =>
      if ((c =? 10) || (c =? 13))%N then false
      else
        match l with
        | 226%N :: 128%N :: c' :: _ =>
            if ((c' =? 168) || (c' =? 169))%N then false else any_to_end r
        | _ => any_to_end r
        end
  end.

(** The labels and what follows them: [dotted] says that a label and its
    dot have been read, [in_label] that a label has been begun. *)
Fixpoint host_path (dotted in_label : bool) (l : list N) : bool :=
  match l with
  | [] => dotted && in_label
  | c :: r =>
      if is_word c then host_path dotted true r
      else if (c =? 46)%N then in_label && host_path true false r
      else if (c =? 47)%N then dotted && in_label && any_to_end r
      else false
  end.

(** The scheme at the head of the text; the rest of the text when it is
    there. *)
Definition scheme (l : list N) : option (list N) :=
  match l with
  | h :: t :: t' :: p :: rest =>
      if ((lower_unit h =? 104) && (lower_unit t =? 116)
          && (lower_unit t' =? 116) && (lower_unit p =? 112))%N
      then
        match rest with
        | 58%N :: 47%N :: 47%N :: r => Some r
        | s :: 58%N :: 47%N :: 47%N :: r =>
            if (lower_unit s =? 115)%N then Some r else None
        | _ => None
        end
      else None
  | _ => None
  end.

(** [urlPattern.test(text)] *)
Definition urlPattern_test (text : string) : bool :=
  let l := codes text in
  host_path false false l
  || match scheme l with
     | Some r => host_path false false r
     | None => false
     end.

(** What a form handler goes on to call. *)
Inductive Submission : Type :=
  | Ignored
  | Navigate (url : string)   (* [openNewTab(url)] *)
  | Ask (userMessage : string).  (* [streamChat] or [streamAssistantChat] *)

(** [handleSubmit]: the call it makes, for the text of the input and the
    loading flag.  It also cancels the default action of the event, and
    empties the input after the call. *)
Definition handleSubmit (query : string) (isLoading : bool) : Submission :=
  if String.eqb (trim query) "" || isLoading then Ignored
  else
    (* Check if input is a URL *)
    let trimmedQuery := trim query in
    if urlPattern_test trimmedQuery then Navigate trimmedQuery
    else Ask query.

(** [handleAssistantSubmit] *)
Definition handleAssistantSubmit (assistantQuery : string)
    (isAssistantLoading : bool) : Submission :=
  if String.eqb (trim assistantQuery) "" || isAssistantLoading then Ignored
  else Ask assistantQuery.

End Page.

(** ** The drivers, round by round *)

Module Rounds.
Import JS Client.

(** The toast that tells the user that the relay fell back to the cheaper
    model, as a round of [streamChat] computes it from the response:
    [modelUsed && modelUsed.includes("flash-lite")]. *)
Definition economy (resp : Response) : list Effect :=
  match get "x-model-used" (headers resp) with
  | Some modelUsed =>
      if negb (String.eqb modelUsed "") && includes modelUsed "flash-lite"
      then [Toast {| title := "Economy mode";
                     description :=
                       "Using Gemini Flash Lite to avoid credit limits.";
                     destructive := false |}]
      else []
  | None => []
  end.

(** The ways a round of [streamChat] reaches its [catch]: the fetch is
    rejected; the response is neither 429 nor 402 and is not OK or has no
    body; or the body fails while it is decoded.  [error] is what is
    caught, [st'] the state then, and [es] the effects of the round
    between its fetch and the [catch]. *)
Definition failed_round (answer : thrown + Response) (st : State)
    (error : thrown) (st' : State) (es : list Effect) : Prop :=
  (answer = inl error /\ st' = st /\ es = [])
  \/ (exists resp,
        answer = inr resp /\ status resp <> 429 /\ status resp <> 402
        /\ (ok resp = false \/ body resp = None)
        /\ error = Error "Failed to start stream" /\ st' = st /\ es = [])
  \/ (exists resp stream d es',
        answer = inr resp /\ status resp <> 429 /\ status resp <> 402
        /\ ok resp = true /\ body resp = Some stream
        /\ decode_stream Primary stream st = (d, st', Some error, es')
        /\ es = (economy resp ++ es')%list).

(** The delays of the driver from the attempt [attempt] on: each is 700
    or 500 times the number of attempts made so far. *)
Fixpoint backoffs (attempt : Z) (delays : list Z) : Prop :=
  match delays with
  | [] => True
  | d :: rest =>
      (d = 700 * (attempt + 1) \/ d = 500 * (attempt + 1))
      /\ backoffs (attempt + 1) rest
  end.

(** What a round of [streamChat] throws before it reads the body, if
    anything: the exception of a rejected fetch, or
    [new Error("Failed to start stream")] for a response that is neither
    429 nor 402 and is not OK or has no body. *)
Definition start_failure (answer : thrown + Response) : option thrown :=
  match answer with
  | inl error => Some error
  | inr resp =>
      if (status resp =? 429) || (status resp =? 402) then None
      else match (if ok resp then body resp else None) with
           | None => Some (Error "Failed to start stream")
           | Some _ => None
           end
  end.

(** An effect of the primary conversation only. *)
Definition primary_only (e : Effect) : Prop :=
  match e with
  | SetTranscript Auxiliary _ | SetLoading Auxiliary _ => False
  | _ => True
  end.

(** An effect of the auxiliary conversation only. *)
Definition auxiliary_only (e : Effect) : Prop :=
  match e with
  | SetTranscript Primary _ | SetLoading Primary _ => False
  | _ => True
  end.

(** The primary transcript is [sent], which ends with an open turn, or
    [sent] and one reply. *)
Definition settled (sent : list Message) (st : State) : Prop :=
  (messages st = sent /\ open_turn sent) \/ one_reply sent (messages st).

(** An effect of the primary conversation that, if it sets the
    transcript, sets it to [sent] and one reply. *)
Definition replied (sent : list Message) (e : Effect) : Prop :=
  primary_only e /\ forall t, e = SetTranscript Primary t -> one_reply sent t.

(** An effect that only tells the user or the console something. *)
Definition notice (e : Effect) : Prop :=
  match e with
  | Toast _ | ConsoleError _ _ _ => True
  | _ => False
  end.

(** What follows the fetch of a round of [streamChat] that is answered
    402. *)
Definition out_of_credits : list Effect :=
  [Toast {| title := "Out of credits";
            description := "Please add credits to your Lovable AI workspace.";
            destructive := true |};
   SetLoading Primary false].

End Rounds.

(** ** The event stream as a gateway writes it *)

Module Wire.
Import JS Client.

(** A byte that can be part of a white space character: the ASCII white
    space, or any byte of a multi-byte sequence. *)
Definition blank (b : N) : Prop := (9 <= b <= 13 \/ b = 32 \/ 128 <= b)%N.

(** The data line of a delta with the content [text]: the JSON text of
    [{ choices: [{ delta: { content: text } }] }] after [data: ]. *)
Definition delta_open : string := Samples.dq "{'choices':[{'delta':{'content':".
Definition delta_close : string := "}}]}".

Definition delta_payload (text : string) : string :=
  delta_open ++ quote text ++ delta_close.

Definition delta_line (text : string) : string := "data: " ++ delta_payload text.

(** The lines of a stream of deltas: a delta, or the empty line that
    separates two events. *)
Inductive event : Type :=
  | Delta (text : string)
  | Blank.

Definition render (e : event) : string :=
  match e with
  | Delta text => delta_line text
  | Blank => ""
  end.

(** The text of a stream: every line and its line feed. *)
Fixpoint wire (events : list event) : string :=
  match events with
  | [] => ""
  | e :: rest => render e ++ LF ++ wire rest
  end.

(** What the deltas of a stream say, one after the other. *)
Fixpoint said (events : list event) : string :=
  match events with
  | [] => ""
  | Delta text :: rest => text ++ said rest
  | Blank :: rest => said rest
  end.

(** The contents of the deltas that say something: the decode loop skips
    a delta whose content is empty. *)
Fixpoint voiced (events : list event) : list string :=
  match events with
  | [] => []
  | Delta text :: rest =>
      if String.eqb text "" then voiced rest else text :: voiced rest
  | Blank :: rest => voiced rest
  end.

(** The chunks of a body, put together. *)
Fixpoint joined (chunks : list string) : string :=
  match chunks with
  | [] => ""
  | value :: rest => value ++ joined rest
  end.

(** The line that ends a stream. *)
Definition done_line : string := "data: [DONE]".

(** A line that the inner [try] hands back to the buffer as it is: a
    data line without a carriage return at its end whose payload is not
    the sentinel and makes [JSON.parse] or the reading of the delta
    throw. *)
Definition stuck (line : string) : bool :=
  (indexOf LF line =? -1)
  && negb (endsWith line CR)
  && negb (startsWith line ":" || String.eqb (trim line) "")
  && startsWith line "data: "
  && negb (String.eqb (trim (slice line 6 None)) "[DONE]")
  && match delta_content (trim (slice line 6 None)) with
     | None => true
     | Some _ => false
     end.

(** What the decode loop is to do with the lines of a stream, read in
    one piece: every delta with a content that is not empty is added to
    the accumulator, and the transcript is updated with the accumulator. *)
Fixpoint replay (c : Conversation) (acc : string) (events : list event)
    (st : State) : State * list Effect :=
  match events with
  | [] => (st, [])
  | Delta text :: rest =>
      if String.eqb text "" then replay c acc rest st
      else
        let '(st, es) := setTranscript c (fold_delta (acc ++ text)) st in
        let '(st, es') := replay c (acc ++ text) rest st in
        (st, (es ++ es')%list)
  | Blank :: rest => replay c acc rest st
  end.

End Wire.

(** ** More sample inputs *)

Module Cases.

Module OfClient.
Import Client.

(** The relay's answers when the upstream wants payment, and when the
    relay itself fails. *)
Definition unpaid : Response :=
  {| status := 402; headers := []; body := None |}.

Definition broken : Response :=
  {| status := 500; headers := [("Content-Type", "application/json")];
     body := None |}.

(** A stream that says [Hello] in two deltas, each followed by the empty
    line that ends an event. *)
Definition spoken : list Wire.event :=
  [Wire.Delta "He"; Wire.Blank; Wire.Delta "llo"; Wire.Blank].

(** The chunks of [text] cut after 20 and after 65 bytes. *)
Definition cut (text : string) : list string :=
  [String.substring 0 20 text; String.substring 20 45 text;
   String.substring 65 (String.length text - 65) text].

(** A body whose last line has no line feed, cut in the middle of lines. *)
Definition unterminated : Stream :=
  {| chunks := cut (Wire.wire spoken ++ Wire.delta_line "!");
     failure := None |}.

(** A stream that ends with the sentinel line. *)
Definition ended : string := Wire.wire spoken ++ Wire.done_line ++ LF.

(** A body with the sentinel, cut in the middle of lines: the chunk that
    brings the end of the sentinel line goes on with more text, another
    chunk follows, and the reader fails at the end. *)
Definition terminated : Stream :=
  {| chunks :=
       [String.substring 0 20 ended; String.substring 20 45 ended;
        String.substring 65 (String.length ended - 65) ended ++ "more";
        "never read"];
     failure := Some (JS.Error "network error") |}.

End OfClient.

End Cases.

(** ** The runtime: proofs *)

Module JSProofs.
Import JS.

(** Trimming leaves no white space at either end. *)
Lemma strip_done (head : list N -> nat) :
  head [] = O ->
  forall fuel l, (List.length l <= fuel)%nat -> head (strip head fuel l) = O.
Proof.
  intros Hnil. induction fuel as [|fuel IH]; intros l Hl.
  - destruct l; [done|simpl in Hl; lia].
  - simpl. destruct (head l) as [|n] eqn:Hh; [done|].
    apply IH. rewrite length_drop. lia.
Qed.

Lemma trimStart_done (l : list N) : ws_head (trimStart l) = O.
Proof. by apply strip_done. Qed.

Lemma trimEnd_done (l : list N) : ws_last (rev (trimEnd l)) = O.
Proof.
  unfold trimEnd. rewrite rev_involutive. apply strip_done; [done|].
  by rewrite length_rev.
Qed.

(** The parser and the conversion to a number on a few texts. *)
Example parse_delta :
  JSON_parse (Samples.dq "{'choices':[{'delta':{'content':'hi'}}]}")
  = Some (JObject
            [("choices",
              JArray [JObject [("delta",
                                JObject [("content", JString "hi")])]])]).
Proof. reflexivity. Qed.

Example parse_cut :
  JSON_parse (Samples.dq "{'choices':[{'delta':{'con") = None.
Proof. reflexivity. Qed.

Example parse_escapes :
  JSON_parse (Samples.dq " [ 'aA\n', -1.5e2, true, null, {'k': []} ] ")
  = Some (JArray [JString ("aA" ++ String (ascii_of_N 10) "");
                  JNumber "-1.5e2"; JBool true; JNull;
                  JObject [("k", JArray [])]]).
Proof. reflexivity. Qed.

Example parse_rejects :
  map JSON_parse ["[1,]"; "01"; "{1:2}"; "nul"; "[1 2]"; ""; "1."]
  = [None; None; None; None; None; None; None].
Proof. reflexivity. Qed.

Example Number_samples :
  map Number [None; Some ""; Some "0"; Some " 120 "; Some "1.5"; Some "1e3";
              Some "0x10"; Some "-Infinity"; Some "12s";
              Some "Wed, 21 Oct 2015 07:28:00 GMT"]
  = [Num 0; Num 0; Num 0; Num 120; Num (3 # 2); Num 1000; Num 16;
     Infinity true; NaN; NaN].
Proof. vm_compute. reflexivity. Qed.

End JSProofs.

(** ** The relay proxy: proofs *)

Module ProxyProofs.
Import JS Proxy.

Lemma models_differ : primary_model <> lite_model.
Proof. discriminate. Qed.

Lemma ok_excludes (r : Response) :
  ok r = true -> status r <> 429 /\ status r <> 402.
Proof. unfold ok. intros H. split; lia. Qed.

Lemma rate_limit_not_ok (r : Response) : status r = 429 -> ok r = false.
Proof. unfold ok. intros ->. reflexivity. Qed.

Lemma quota_not_ok (r : Response) : status r = 402 -> ok r = false.
Proof. unfold ok. intros ->. reflexivity. Qed.

(** A log that ends with the catch-all's console message, cut at an
    earlier fetch. *)
Lemma cut_before_last (es pre post : list Effect) e q a :
  (es ++ [LogChatError e])%list = (pre ++ Fetch q a :: post)%list ->
  exists post', post = (post' ++ [LogChatError e])%list
                /\ es = (pre ++ Fetch q a :: post')%list.
Proof.
  destruct post as [|p post _] using rev_ind; intros H.
  - apply app_inj_tail in H as [_ H]. discriminate.
  - exists post. change (pre ++ Fetch q a :: post ++ [p])%list
      with (pre ++ (Fetch q a :: post) ++ [p])%list in H.
    rewrite app_assoc in H. apply app_inj_tail in H as [-> ->]. auto.
Qed.

Section Loop.

Variable key : string.
Variable msgs : Spreadable.
Variable upstream : Upstream.

(** Induction on the loop: one case for each way an iteration ends. *)
Lemma attempts_cases
    (P : nat -> nat -> string -> bool -> Completion -> list Effect -> Prop) :
  (forall attempt model tried,
     P O attempt model tried
       (Return (error_response 429
                  "Rate limits exceeded, please try again shortly.")) []) ->
  (forall left attempt model tried e,
     msgs = NotIterable e -> P (S left) attempt model tried (Throw e) []) ->
  (forall left attempt model tried l e,
     msgs = Items l ->
     upstream attempt (upstream_request key model l) = inl e ->
     P (S left) attempt model tried (Throw e)
       [Fetch (upstream_request key model l) (inl e)]) ->
  (forall left attempt model tried l r,
     msgs = Items l ->
     upstream attempt (upstream_request key model l) = inr r ->
     ok r = true ->
     P (S left) attempt model tried (Return (pass_through model r))
       [Fetch (upstream_request key model l) (inr r)]) ->
  (forall left attempt model tried l r c es,
     msgs = Items l ->
     upstream attempt (upstream_request key model l) = inr r ->
     status r = 429 ->
     attempts key msgs upstream left (S attempt) model tried = (c, es) ->
     P left (S attempt) model tried c es ->
     P (S left) attempt model tried c
       (Fetch (upstream_request key model l) (inr r)
          :: Sleep (retryAfter r attempt) :: es)) ->
  (forall left attempt model l r c es,
     msgs = Items l ->
     upstream attempt (upstream_request key model l) = inr r ->
     status r = 402 ->
     attempts key msgs upstream left (S attempt) lite_model true = (c, es) ->
     P left (S attempt) lite_model true c es ->
     P (S left) attempt model false c
       (Fetch (upstream_request key model l) (inr r) :: es)) ->
  (forall left attempt model l r,
     msgs = Items l ->
     upstream attempt (upstream_request key model l) = inr r ->
     status r = 402 ->
     P (S left) attempt model true
       (Return (error_response 402
                  "Payment required. Please add credits to your Lovable AI workspace."))
       [Fetch (upstream_request key model l) (inr r)]) ->
  (forall left attempt model tried l r t,
     msgs = Items l ->
     upstream attempt (upstream_request key model l) = inr r ->
     gateway_failure r ->
     text r = inr t ->
     P (S left) attempt model tried
       (Return (error_response 500 "AI gateway error"))
       [Fetch (upstream_request key model l) (inr r);
        LogGatewayError (status r) t]) ->
  (forall left attempt model tried l r e,
     msgs = Items l ->
     upstream attempt (upstream_request key model l) = inr r ->
     gateway_failure r ->
     text r = inl e ->
     P (S left) attempt model tried (Throw e)
       [Fetch (upstream_request key model l) (inr r)]) ->
  forall left attempt model tried c es,
    attempts key msgs upstream left attempt model tried = (c, es) ->
    P left attempt model tried c es.
Proof.
  intros Hend Hspread Hreject Hok H429 Hdown Hquota Hother Hbroken.
  induction left as [|left IH]; intros attempt model tried c es Hrun.
  - simpl in Hrun. injection Hrun as <- <-. apply Hend.
  - simpl in Hrun. destruct msgs as [l|e] eqn:Hmsgs.
    2: { injection Hrun as <- <-. by apply Hspread. }
    destruct (upstream attempt _) as [e|r] eqn:Hup.
    { injection Hrun as <- <-. by apply Hreject. }
    destruct (ok r) eqn:Hokr.
    { injection Hrun as <- <-. by apply Hok. }
    destruct (status r =? 429) eqn:E429.
    { destruct (attempts _ _ _ left _ _ _) as [c' es'] eqn:Hrec.
      injection Hrun as <- <-. apply Z.eqb_eq in E429. eapply H429; eauto. }
    destruct (status r =? 402) eqn:E402; simpl in Hrun.
    + apply Z.eqb_eq in E402. destruct tried; simpl in Hrun.
      * injection Hrun as <- <-. by apply Hquota.
      * destruct (attempts _ _ _ left _ _ _) as [c' es'] eqn:Hrec.
        injection Hrun as <- <-. eapply Hdown; eauto.
    + apply Z.eqb_neq in E429, E402.
      destruct (text r) as [e|t] eqn:Htext; injection Hrun as <- <-.
      * by apply Hbroken.
      * by apply Hother.
Qed.

(** A fetch that is answered OK ends the run with the pass-through. *)
Lemma attempts_ok_ends left attempt model tried c es :
  attempts key msgs upstream left attempt model tried = (c, es) ->
  configured model ->
  forall pre q r post,
    es = (pre ++ Fetch q (inr r) :: post)%list ->
    ok r = true ->
    post = [] /\ c = Return (pass_through (Proxy.model q) r)
    /\ configured (Proxy.model q).
Proof.
  intros Hrun. pattern left, attempt, model, tried, c, es.
  eapply attempts_cases; [..|exact Hrun]; clear.
  - intros. by destruct pre.
  - intros. by destruct pre.
  - intros. destruct pre as [|? [|? ?]]; simplify_eq.
  - intros. destruct pre as [|? [|? ?]]; simplify_eq/=. auto.
  - intros left' a m t l r0 c' es' Hmsgs Hup Hst Hrec IH Hm pre q r post Hes Hok.
    destruct pre as [|? pre]; simplify_eq/=.
    + apply rate_limit_not_ok in Hst. congruence.
    + destruct pre as [|? pre]; simplify_eq/=. eapply IH; eauto.
  - intros left' a m l r0 c' es' Hmsgs Hup Hst Hrec IH Hm pre q r post Hes Hok.
    destruct pre as [|? pre]; simplify_eq/=.
    + apply quota_not_ok in Hst. congruence.
    + eapply IH; eauto. by right.
  - intros left' a m l r0 Hmsgs Hup Hst Hm pre q r post Hes Hok.
    destruct pre as [|? [|? ?]]; simplify_eq/=.
    apply quota_not_ok in Hst. congruence.
  - intros left' a m t l r0 t0 Hmsgs Hup [Hnok _] _ Hm pre q r post Hes Hok.
    destruct pre as [|? [|? [|? ?]]]; simplify_eq/=. congruence.
  - intros left' a m t l r0 e Hmsgs Hup [Hnok _] _ Hm pre q r post Hes Hok.
    destruct pre as [|? [|? ?]]; simplify_eq/=. congruence.
Qed.


(** The loop, entered with a conversation that can be spread, starts with
    a fetch for the current model unless no iteration is left. *)
Lemma attempts_head left attempt model tried c es l :
  attempts key msgs upstream left attempt model tried = (c, es) ->
  msgs = Items l ->
  (left = O /\ es = []
   /\ c = Return (error_response 429
                    "Rate limits exceeded, please try again shortly."))
  \/ (exists a post,
        es = Fetch (upstream_request key model l) a :: post).
Proof.
  intros Hrun. pattern left, attempt, model, tried, c, es.
  eapply attempts_cases; [..|exact Hrun]; clear; intros; simplify_eq;
    eauto 10.
Qed.

(** A quota answer after the downgrade ends the run with the payment
    error. *)
Lemma attempts_quota_ends left attempt model tried c es :
  attempts key msgs upstream left attempt model tried = (c, es) ->
  paired model tried ->
  forall pre q r post,
    es = (pre ++ Fetch q (inr r) :: post)%list ->
    status r = 402 ->
    Proxy.model q = lite_model ->
    post = []
    /\ c = Return (error_response 402
                     "Payment required. Please add credits to your Lovable AI workspace.").
Proof.
  intros Hrun. pattern left, attempt, model, tried, c, es.
  eapply attempts_cases; [..|exact Hrun]; clear.
  - intros. by destruct pre.
  - intros. by destruct pre.
  - intros. destruct pre as [|? [|? ?]]; simplify_eq.
  - intros left' a m t l r0 Hmsgs Hup Hokr Hp pre q r post Hes Hst Hq.
    destruct pre as [|? [|? ?]]; simplify_eq/=.
    apply quota_not_ok in Hst. congruence.
  - intros left' a m t l r0 c' es' Hmsgs Hup Hst0 Hrec IH Hp pre q r post Hes Hst Hq.
    destruct pre as [|? pre]; simplify_eq/=; [lia|].
    destruct pre as [|? pre]; simplify_eq/=. eapply IH; eauto.
  - intros left' a m l r0 c' es' Hmsgs Hup Hst0 Hrec IH Hp pre q r post Hes Hst Hq.
    destruct pre as [|? pre]; simplify_eq/=.
    + destruct Hp as [[_ Heq]|[? _]]; [|done].
      exfalso. apply models_differ. congruence.
    + eapply IH; eauto. by right.
  - intros left' a m l r0 Hmsgs Hup Hst0 Hp pre q r post Hes Hst Hq.
    destruct pre as [|? [|? ?]]; simplify_eq/=. auto.
  - intros left' a m t l r0 t0 Hmsgs Hup (_ & _ & Hn) _ Hp pre q r post Hes Hst Hq.
    destruct pre as [|? [|? [|? ?]]]; simplify_eq/=.
  - intros left' a m t l r0 e Hmsgs Hup (_ & _ & Hn) _ Hp pre q r post Hes Hst Hq.
    destruct pre as [|? [|? ?]]; simplify_eq/=.
Qed.

(** The first quota answer: the next thing the run does is the fetch with
    the cheaper model, unless that was the last iteration. *)
Lemma attempts_downgrade_next left attempt model tried c es :
  attempts key msgs upstream left attempt model tried = (c, es) ->
  paired model tried ->
  forall pre q r post,
    es = (pre ++ Fetch q (inr r) :: post)%list ->
    status r = 402 ->
    Proxy.model q = primary_model ->
    (exists q' a post',
        post = Fetch q' a :: post' /\ Proxy.model q' = lite_model)
    \/ (post = [] /\ S (List.length (fetches pre)) = left
        /\ c = Return (error_response 429
                         "Rate limits exceeded, please try again shortly.")).
Proof.
  intros Hrun. pattern left, attempt, model, tried, c, es.
  eapply attempts_cases; [..|exact Hrun]; clear.
  - intros. by destruct pre.
  - intros. by destruct pre.
  - intros. destruct pre as [|? [|? ?]]; simplify_eq.
  - intros left' a m t l r0 Hmsgs Hup Hokr Hp pre q r post Hes Hst Hq.
    destruct pre as [|? [|? ?]]; simplify_eq/=.
    apply quota_not_ok in Hst. congruence.
  - intros left' a m t l r0 c' es' Hmsgs Hup Hst0 Hrec IH Hp pre q r post Hes Hst Hq.
    destruct pre as [|? pre]; simplify_eq/=; [lia|].
    destruct pre as [|? pre]; simplify_eq/=.
    destruct (IH Hp pre q r post eq_refl Hst Hq) as [?|(? & ? & ?)]; auto.
  - intros left' a m l r0 c' es' Hmsgs Hup Hst0 Hrec IH Hp pre q r post Hes Hst Hq.
    pose proof (attempts_head _ _ _ _ _ _ _ Hrec Hmsgs) as Hhead.
    destruct pre as [|? pre]; simplify_eq/=.
    + destruct Hhead as [(-> & -> & ->)|(a' & post' & ->)]; [by right|].
      left. by eexists _, _, _.
    + assert (Hp' : paired lite_model true) by by right.
      destruct (IH Hp' pre q r post eq_refl Hst Hq) as [?|(? & ? & ?)]; auto.
  - intros left' a m l r0 Hmsgs Hup Hst0 Hp pre q r post Hes Hst Hq.
    destruct pre as [|? [|? ?]]; simplify_eq/=.
    destruct Hp as [[? _]|[_ Heq]]; [done|].
    exfalso. apply models_differ. congruence.
  - intros left' a m t l r0 t0 Hmsgs Hup (_ & _ & Hn) _ Hp pre q r post Hes Hst Hq.
    destruct pre as [|? [|? [|? ?]]]; simplify_eq/=.
  - intros left' a m t l r0 e Hmsgs Hup (_ & _ & Hn) _ Hp pre q r post Hes Hst Hq.
    destruct pre as [|? [|? ?]]; simplify_eq/=.
Qed.

(** At most one pass through the downgrade branch, and none once the
    cheaper model is in use. *)
Lemma attempts_downgrades left attempt model tried c es :
  attempts key msgs upstream left attempt model tried = (c, es) ->
  paired model tried ->
  (downgrades es <= if tried then 0 else 1)%nat.
Proof.
  intros Hrun. pattern left, attempt, model, tried, c, es.
  eapply attempts_cases; [..|exact Hrun]; clear.
  - intros. simpl. destruct tried; lia.
  - intros. simpl. destruct tried; lia.
  - intros. simpl. destruct tried; lia.
  - intros left' a m t l r Hmsgs Hup Hokr Hp. simpl.
    apply ok_excludes in Hokr as [_ Hn]. apply Z.eqb_neq in Hn.
    rewrite Hn, andb_false_r. destruct t; lia.
  - intros left' a m t l r c' es' Hmsgs Hup Hst Hrec IH Hp. simpl.
    rewrite Hst. simpl. rewrite andb_false_r. auto.
  - intros left' a m l r c' es' Hmsgs Hup Hst Hrec IH Hp. simpl.
    assert (Hp' : paired lite_model true) by by right.
    specialize (IH Hp'). simpl in IH. destruct (_ && _); lia.
  - intros left' a m l r Hmsgs Hup Hst Hp. simpl.
    destruct Hp as [[? _]|[_ ->]]; [done|]. simpl. lia.
  - intros left' a m t l r t0 Hmsgs Hup (_ & _ & Hn) _ Hp. simpl.
    apply Z.eqb_neq in Hn. rewrite Hn, andb_false_r. destruct t; lia.
  - intros left' a m t l r e Hmsgs Hup (_ & _ & Hn) _ Hp. simpl.
    apply Z.eqb_neq in Hn. rewrite Hn, andb_false_r. destruct t; lia.
Qed.

(** Any other failure ends the run: with the fixed gateway error once the
    text of the answer is read and logged, with the exception of the read
    when the text cannot be read. *)
Lemma attempts_gateway_failure left attempt model tried c es :
  attempts key msgs upstream left attempt model tried = (c, es) ->
  forall pre q r post,
    es = (pre ++ Fetch q (inr r) :: post)%list ->
    gateway_failure r ->
    match text r with
    | inr t => post = [LogGatewayError (status r) t]
               /\ c = Return (error_response 500 "AI gateway error")
    | inl e => post = [] /\ c = Throw e
    end.
Proof.
  intros Hrun. pattern left, attempt, model, tried, c, es.
  eapply attempts_cases; [..|exact Hrun]; clear.
  - intros. by destruct pre.
  - intros. by destruct pre.
  - intros. destruct pre as [|? [|? ?]]; simplify_eq.
  - intros left' a m t l r0 Hmsgs Hup Hokr pre q r post Hes (Hnok & _).
    destruct pre as [|? [|? ?]]; simplify_eq/=; congruence.
  - intros left' a m t l r0 c' es' Hmsgs Hup Hst0 Hrec IH pre q r post Hes (? & Hn & ?).
    destruct pre as [|? pre]; simplify_eq/=; try done.
    destruct pre as [|? pre]; simplify_eq/=. eapply IH; eauto. done.
  - intros left' a m l r0 c' es' Hmsgs Hup Hst0 Hrec IH pre q r post Hes (? & ? & Hn).
    destruct pre as [|? pre]; simplify_eq/=; try done.
    eapply IH; eauto. done.
  - intros left' a m l r0 Hmsgs Hup Hst0 pre q r post Hes (? & ? & Hn).
    destruct pre as [|? [|? ?]]; simplify_eq/=; done.
  - intros left' a m t l r0 t0 Hmsgs Hup _ Ht pre q r post Hes _.
    destruct pre as [|? [|? [|? ?]]]; simplify_eq/=. by rewrite Ht.
  - intros left' a m t l r0 e Hmsgs Hup _ Ht pre q r post Hes _.
    destruct pre as [|? [|? ?]]; simplify_eq/=. by rewrite Ht.
Qed.

(** The loop fetches at most once for each iteration it is allowed. *)
Lemma fetches_split (es es' : list Effect) :
  fetches (es ++ es') = (fetches es ++ fetches es')%list.
Proof.
  induction es as [|[q a|d|st t|e] es IH]; simpl; auto. by rewrite IH.
Qed.

Lemma attempts_fetch_bound left attempt model tried c es :
  attempts key msgs upstream left attempt model tried = (c, es) ->
  (List.length (fetches es) <= left)%nat.
Proof.
  intros Hrun. pattern left, attempt, model, tried, c, es.
  eapply attempts_cases; [..|exact Hrun]; clear; intros; simpl; lia.
Qed.

(** The loop one step forward, for the two answers of a rate-limit run. *)
Lemma attempts_step_ok left attempt model tried l r :
  msgs = Items l ->
  upstream attempt (upstream_request key model l) = inr r ->
  ok r = true ->
  attempts key msgs upstream (S left) attempt model tried
  = (Return (pass_through model r),
     [Fetch (upstream_request key model l) (inr r)]).
Proof. intros -> Hup Hok. simpl. by rewrite Hup, Hok. Qed.

Lemma attempts_step_429 left attempt model tried l r :
  msgs = Items l ->
  upstream attempt (upstream_request key model l) = inr r ->
  status r = 429 ->
  attempts key msgs upstream (S left) attempt model tried
  = (fst (attempts key msgs upstream left (S attempt) model tried),
     Fetch (upstream_request key model l) (inr r)
       :: Sleep (retryAfter r attempt)
       :: snd (attempts key msgs upstream left (S attempt) model tried)).
Proof.
  intros -> Hup Hst. simpl. rewrite Hup, (rate_limit_not_ok _ Hst), Hst. simpl.
  by destruct (attempts _ _ _ left _ _ _).
Qed.

End Loop.

(** What [serve] does, by cases: the preflight answer, an exception before
    the loop, or the loop. *)
Lemma serve_cases env_key upstream req resp log :
  serve env_key upstream req = (resp, log) ->
  (method req = "OPTIONS" /\ log = [])
  \/ (exists e, log = [LogChatError e]
                /\ resp = error_response 500 (error_message e))
  \/ (exists key msgs c es,
        env_key = Some key /\ payload req = Readable msgs
        /\ attempts key msgs upstream maxRetries 0 primary_model false = (c, es)
        /\ match c with
           | Return r => resp = r /\ log = es
           | Throw e => resp = error_response 500 (error_message e)
                        /\ log = (es ++ [LogChatError e])%list
           end).
Proof.
  unfold serve. destruct (String.eqb_spec (method req) "OPTIONS") as [Hm|Hm].
  { intros [= <- <-]. auto. }
  destruct (payload req) as [e|msgs] eqn:Hp.
  { intros [= <- <-]. right. left. eauto. }
  destruct env_key as [[|a key]|].
  1, 3: intros [= <- <-]; right; left; eauto.
  destruct (attempts _ _ _ _ _ _ _) as [c es] eqn:Hrun.
  intros H. right. right. exists (String a key), msgs, c, es.
  repeat split; auto. destruct c; by injection H as <- <-.
Qed.

Lemma serve_loop key upstream m l :
  key <> "" -> m <> "OPTIONS" ->
  serve (Some key) upstream {| method := m; payload := Readable (Items l) |}
  = match attempts key (Items l) upstream maxRetries 0 primary_model false with
    | (Return r, log) => (r, log)
    | (Throw e, log) =>
        (error_response 500 (error_message e), (log ++ [LogChatError e])%list)
    end.
Proof.
  intros Hk Hm. unfold serve. cbn [method payload].
  destruct (String.eqb_spec m "OPTIONS") as [|_]; [done|].
  destruct key as [|a key]; [done|].
  by destruct (attempts _ _ _ _ _ _ _) as [[r|e] log].
Qed.


(** The delay of the back-off, by what the upstream sent. *)
Lemma retryAfter_cases (r : Response) (attempt : nat) :
  let h := get "retry-after" (headers r) in
  let backoff := Num (inject_Z ((Z.of_nat attempt + 1) * 800)) in
  (forall q, Number h = Num q -> ~ (q == 0)%Q -> retryAfter r attempt = Num q)
  /\ (forall b, Number h = Infinity b -> retryAfter r attempt = Infinity b)
  /\ (forall q, Number h = Num q -> (q == 0)%Q -> retryAfter r attempt = backoff)
  /\ (Number h = NaN -> retryAfter r attempt = backoff)
  /\ (h = None -> retryAfter r attempt = backoff).
Proof.
  unfold retryAfter, or_else. cbv zeta. repeat split.
  - intros q -> Hq. simpl. destruct (Qeq_bool q 0) eqn:E; [|done].
    by apply Qeq_bool_iff in E.
  - by intros b ->.
  - intros q -> Hq. simpl. apply Qeq_bool_iff in Hq. by rewrite Hq.
  - by intros ->.
  - by intros ->.
Qed.

(** C2 (amended).  A run of [N] rate-limited upstream answers, followed by
    a success when the run is shorter than the budget: the handler makes
    [min 3 N] rate-limited attempts, then succeeds ([N < 3]) or gives the
    terminal 429 error ([3 <= N]).  It sleeps once after each rate-limited
    attempt.  After attempt [k] (counted from 1) the delay is decided by
    the number [Number] makes of what [headers.get] gives for retry-after:
    the delay is that number when it is a number other than zero, or an
    infinity; it is [k * 800] when that number is zero (the header says
    zero, or is empty or blank), when it is not a number (a date, or the
    header sent twice), and when the header is absent.  The five cases are
    all there are. *)
Theorem serve_rate_limit_run key upstream m l N
    (limited : nat -> Response) (fine : Response) resp log :
  key <> "" -> m <> "OPTIONS" ->
  (forall k q, (k < N)%nat -> upstream k q = inr (limited k)) ->
  (forall k, (k < N)%nat -> status (limited k) = 429) ->
  ((N < 3)%nat -> ok fine = true /\ forall q, upstream N q = inr fine) ->
  serve (Some key) upstream {| method := m; payload := Readable (Items l) |}
  = (resp, log) ->
  let n := Nat.min 3 N in
  List.length (rate_limited log) = n
  /\ List.length (fetches log) = (if (N <? 3)%nat then S n else n)
  /\ resp = (if (N <? 3)%nat then pass_through primary_model fine
             else error_response 429
                    "Rate limits exceeded, please try again shortly.")
  /\ List.length (sleeps log) = n
  /\ forall k, (1 <= k <= n)%nat ->
       exists d, sleeps log !! (k - 1)%nat = Some d
         /\ let h := get "retry-after" (headers (limited (k - 1)%nat)) in
            let backoff := Num (inject_Z (Z.of_nat k * 800)) in
            (forall q, Number h = Num q -> ~ (q == 0)%Q -> d = Num q)
            /\ (forall b, Number h = Infinity b -> d = Infinity b)
            /\ (forall q, Number h = Num q -> (q == 0)%Q -> d = backoff)
            /\ (Number h = NaN -> d = backoff)
            /\ (h = None -> d = backoff).
Proof.
  intros Hk Hm Hup Hst Hfine. rewrite serve_loop by done. unfold maxRetries.
  assert (Hfine' : (N < 3)%nat -> (status fine =? 429) = false).
  { intros HN. destruct (Hfine HN) as [Hok _].
    apply ok_excludes in Hok as [? _]. by apply Z.eqb_neq. }
  destruct N as [|[|[|N]]].
  - destruct Hfine as [Hok Hf]; [lia|].
    rewrite (attempts_step_ok _ _ _ _ _ _ _ l fine) by done.
    intros [= <- <-]. unfold rate_limited. simpl. rewrite Hfine' by lia.
    repeat split; try done. intros k ?. lia.
  - destruct Hfine as [Hok Hf]; [lia|].
    rewrite (attempts_step_429 _ _ _ _ _ _ _ l (limited 0%nat)) by auto.
    rewrite (attempts_step_ok _ _ _ _ _ _ _ l fine) by done.
    intros [= <- <-]. unfold rate_limited. simpl.
    rewrite Hfine', (Hst 0%nat) by lia.
    repeat split; try done. intros k ?.
    destruct k as [|[|k]]; try lia.
    eexists. split; [done|]. apply (retryAfter_cases (limited 0%nat) 0).
  - destruct Hfine as [Hok Hf]; [lia|].
    rewrite (attempts_step_429 _ _ _ _ _ _ _ l (limited 0%nat)) by auto.
    rewrite (attempts_step_429 _ _ _ _ _ _ _ l (limited 1%nat)) by auto.
    rewrite (attempts_step_ok _ _ _ _ _ _ _ l fine) by done.
    intros [= <- <-]. unfold rate_limited. simpl.
    rewrite Hfine', (Hst 0%nat), (Hst 1%nat) by lia.
    repeat split; try done. intros k ?.
    destruct k as [|[|[|k]]]; try lia.
    + eexists. split; [done|]. apply (retryAfter_cases (limited 0%nat) 0).
    + eexists. split; [done|]. apply (retryAfter_cases (limited 1%nat) 1).
  - rewrite (attempts_step_429 _ _ _ _ _ _ _ l (limited 0%nat)) by (auto with lia).
    rewrite (attempts_step_429 _ _ _ _ _ _ _ l (limited 1%nat)) by (auto with lia).
    rewrite (attempts_step_429 _ _ _ _ _ _ _ l (limited 2%nat)) by (auto with lia).
    intros [= <- <-]. unfold rate_limited. simpl.
    rewrite (Hst 0%nat), (Hst 1%nat), (Hst 2%nat) by lia.
    repeat split; try done. intros k ?.
    destruct k as [|[|[|[|k]]]]; try lia.
    + eexists. split; [done|]. apply (retryAfter_cases (limited 0%nat) 0).
    + eexists. split; [done|]. apply (retryAfter_cases (limited 1%nat) 1).
    + eexists. split; [done|]. apply (retryAfter_cases (limited 2%nat) 2).
Qed.


(** C2, witness: two rate-limited answers, the first with a retry-after
    of 5, then a success. *)
Lemma serve_rate_limit_run_witness :
  let limited (k : nat) :=
    nth k [Samples.OfProxy.answer 429 [("Retry-After", "5")];
           Samples.OfProxy.answer 429 []] Samples.OfProxy.success in
  let up : Upstream := fun k _ => inr (limited k) in
  let run := serve (Some "key") up Samples.OfProxy.post in
  List.length (rate_limited (snd run)) = 2%nat
  /\ List.length (fetches (snd run)) = 3%nat
  /\ fst run = pass_through primary_model Samples.OfProxy.success
  /\ List.length (sleeps (snd run)) = 2%nat
  /\ forall k, (1 <= k <= 2)%nat ->
       exists d, sleeps (snd run) !! (k - 1)%nat = Some d
         /\ let h := get "retry-after" (headers (limited (k - 1)%nat)) in
            let backoff := Num (inject_Z (Z.of_nat k * 800)) in
            (forall q, Number h = Num q -> ~ (q == 0)%Q -> d = Num q)
            /\ (forall b, Number h = Infinity b -> d = Infinity b)
            /\ (forall q, Number h = Num q -> (q == 0)%Q -> d = backoff)
            /\ (Number h = NaN -> d = backoff)
            /\ (h = None -> d = backoff).
Proof.
  intros limited up run.
  apply (serve_rate_limit_run "key" up "POST" Samples.OfProxy.hello 2
           limited Samples.OfProxy.success (fst run) (snd run)).
  - discriminate.
  - discriminate.
  - intros k q Hk. reflexivity.
  - intros [|[|k]] Hk; [reflexivity|reflexivity|lia].
  - intros _. split; [reflexivity|intros q; reflexivity].
  - reflexivity.
Defined.

(** C2, counterexample.  The first attempt is answered 429 with
    [retry-after: 0]: the header is present and is a number, and the
    handler sleeps 800, not 0. *)
Lemma retry_after_zero_not_slept :
  let limited := Samples.OfProxy.answer 429 [("retry-after", "0")] in
  let run := serve (Some "key") (Samples.OfProxy.scripted [limited])
                   Samples.OfProxy.post in
  get "retry-after" (headers limited) = Some "0"
  /\ Number (Some "0") = Num 0
  /\ sleeps (snd run) = [Num 800]
  /\ ~ (800 == 0)%Q.
Proof. repeat split; try (vm_compute; reflexivity). discriminate. Qed.

(** The other headers that make the delay the default one: an empty and
    a blank one, which [Number] reads as zero, and one that is sent
    twice, which [headers.get] joins into a text that is not a number. *)
Lemma retry_after_default_delays :
  let first_delay (h : Headers) :=
    sleeps (snd (serve (Some "key")
                   (Samples.OfProxy.scripted [Samples.OfProxy.answer 429 h])
                   Samples.OfProxy.post)) in
  (Number (Some "") = Num 0
   /\ first_delay [("retry-after", "")] = [Num 800])
  /\ (Number (Some "  ") = Num 0
      /\ first_delay [("retry-after", "  ")] = [Num 800])
  /\ (get "retry-after" [("retry-after", "5"); ("Retry-After", "5")]
      = Some "5, 5"
      /\ Number (Some "5, 5") = NaN
      /\ first_delay [("retry-after", "5"); ("Retry-After", "5")] = [Num 800])
  /\ first_delay [("retry-after", "5")] = [Num 5].
Proof. repeat split; vm_compute; reflexivity. Qed.

Lemma downgrades_logged (es : list Effect) e :
  downgrades (es ++ [LogChatError e]) = downgrades es.
Proof.
  induction es as [|[q [?|r]| | |] es IH]; simpl; auto.
  destruct (_ && _); auto.
Qed.

(** C3 (amended).  One run of the handler passes through the downgrade
    branch at most once.  The first quota answer, received while the
    primary model is in use, comes on the first, the second or the third
    attempt.  On the first or the second attempt it is followed at once,
    with no sleep between, by the fetch with the cheaper model.  On the
    third attempt nothing follows it: the loop is over and the caller
    gets the terminal 429 error.  A quota answer received with the cheaper
    model in use ends the run with the 402 payment error.  The attempt of
    a fetch is counted by the fetches before it in the log. *)
Theorem serve_single_downgrade env_key upstream req resp log :
  serve env_key upstream req = (resp, log) ->
  (downgrades log <= 1)%nat
  /\ (forall pre q r post,
        log = (pre ++ Fetch q (inr r) :: post)%list ->
        status r = 402 -> Proxy.model q = primary_model ->
        (List.length (fetches pre) <= 2)%nat
        /\ ((List.length (fetches pre) < 2)%nat ->
            exists q' a post',
              post = Fetch q' a :: post' /\ Proxy.model q' = lite_model)
        /\ (List.length (fetches pre) = 2%nat ->
            post = []
            /\ resp = error_response 429
                        "Rate limits exceeded, please try again shortly."))
  /\ (forall pre q r post,
        log = (pre ++ Fetch q (inr r) :: post)%list ->
        status r = 402 -> Proxy.model q = lite_model ->
        post = []
        /\ resp = error_response 402
                    "Payment required. Please add credits to your Lovable AI workspace.").
Proof.
  intros Hrun.
  destruct (serve_cases _ _ _ _ _ Hrun)
    as [[_ ->]|[(e & -> & _)|(key & msgs & c & es & _ & _ & Hloop & Hc)]].
  - split; [simpl; lia|]. split; intros [|? ?] *; discriminate.
  - split; [simpl; lia|]. split; intros [|? [|? ?]] *; discriminate.
  - assert (Hp : paired primary_model false) by by left.
    pose proof (attempts_downgrades _ _ _ _ _ _ _ _ _ Hloop Hp) as Hd.
    pose proof (attempts_downgrade_next _ _ _ _ _ _ _ _ _ Hloop Hp) as Hn.
    pose proof (attempts_quota_ends _ _ _ _ _ _ _ _ _ Hloop Hp) as Hq.
    pose proof (attempts_fetch_bound _ _ _ _ _ _ _ _ _ Hloop) as Hb.
    unfold maxRetries in Hb.
    assert (Hcut : forall pre q r post,
               es = (pre ++ Fetch q (inr r) :: post)%list ->
               status r = 402 -> Proxy.model q = primary_model ->
               (List.length (fetches pre) <= 2)%nat
               /\ ((List.length (fetches pre) < 2)%nat ->
                   exists q' a post',
                     post = Fetch q' a :: post' /\ Proxy.model q' = lite_model)
               /\ (List.length (fetches pre) = 2%nat ->
                   post = []
                   /\ c = Return (error_response 429
                                    "Rate limits exceeded, please try again shortly."))).
    { intros pre q r post Hes Hst Hm.
      pose proof Hb as Hb'. rewrite Hes, fetches_split in Hb'.
      rewrite length_app in Hb'. cbn in Hb'.
      destruct (Hn pre q r post Hes Hst Hm)
        as [(q' & a & post' & -> & Hlite)|(-> & Hlen & ->)].
      - cbn in Hb'. split; [lia|]. split; [|lia].
        intros _. by eexists _, _, _.
      - unfold maxRetries in Hlen. split; [lia|]. split; [lia|done]. }
    destruct c as [r0|e]; destruct Hc as [-> ->].
    + split; [done|]. split.
      * intros pre q r post Hes Hst Hm.
        destruct (Hcut pre q r post Hes Hst Hm) as (? & ? & Hlast).
        split; [done|]. split; [done|].
        intros Heq. by destruct (Hlast Heq) as [? [= ->]].
      * intros pre q r post Hes Hst Hm.
        destruct (Hq pre q r post Hes Hst Hm) as [? [= ->]]. auto.
    + rewrite downgrades_logged. split; [done|]. split.
      * intros pre q r post Hes Hst Hm.
        apply cut_before_last in Hes as (post' & -> & Hes).
        destruct (Hcut pre q r post' Hes Hst Hm) as (? & Hnext & Hlast).
        split; [done|]. split.
        -- intros Hlt. destruct (Hnext Hlt) as (q' & a & post'' & -> & ?).
           by eexists _, _, _.
        -- intros Heq. by destruct (Hlast Heq) as [_ [=]].
      * intros pre q r post Hes Hst Hm.
        apply cut_before_last in Hes as (post' & -> & Hes).
        by destruct (Hq pre q r post' Hes Hst Hm) as [_ [=]].
Qed.

(** C3, witness: two quota answers. *)
Lemma serve_single_downgrade_witness :
  let up := Samples.OfProxy.scripted
              [Samples.OfProxy.answer 402 []; Samples.OfProxy.answer 402 []] in
  let run := serve (Some "key") up Samples.OfProxy.post in
  (downgrades (snd run) <= 1)%nat
  /\ (forall pre q r post,
        snd run = (pre ++ Fetch q (inr r) :: post)%list ->
        status r = 402 -> Proxy.model q = primary_model ->
        (List.length (fetches pre) <= 2)%nat
        /\ ((List.length (fetches pre) < 2)%nat ->
            exists q' a post',
              post = Fetch q' a :: post' /\ Proxy.model q' = lite_model)
        /\ (List.length (fetches pre) = 2%nat ->
            post = []
            /\ fst run = error_response 429
                           "Rate limits exceeded, please try again shortly."))
  /\ (forall pre q r post,
        snd run = (pre ++ Fetch q (inr r) :: post)%list ->
        status r = 402 -> Proxy.model q = lite_model ->
        post = []
        /\ fst run = error_response 402
                       "Payment required. Please add credits to your Lovable AI workspace.").
Proof.
  intros up run.
  apply (serve_single_downgrade (Some "key") up Samples.OfProxy.post
           (fst run) (snd run)).
  reflexivity.
Defined.

(** C3, counterexample.  Two rate-limited answers and then the first
    quota answer: the model is switched on the third attempt, no retry
    follows, and the caller gets the rate-limit error. *)
Lemma downgrade_on_last_attempt_not_retried :
  let quota := Samples.OfProxy.answer 402 [] in
  let up := Samples.OfProxy.scripted
              [Samples.OfProxy.answer 429 []; Samples.OfProxy.answer 429 [];
               quota] in
  let run := serve (Some "key") up Samples.OfProxy.post in
  last (snd run)
  = Some (Fetch (upstream_request "key" primary_model Samples.OfProxy.hello)
                (inr quota))
  /\ List.length (fetches (snd run)) = 3%nat
  /\ status (fst run) = 429
  /\ fst run = error_response 429
                 "Rate limits exceeded, please try again shortly.".
Proof. repeat split. Qed.

(** C5.  Whatever the request, when a fetch of the run is answered OK,
    nothing follows it: the response of the handler is the pass-through of
    that answer, with the body object of the upstream, the status 200, the
    content type [text/event-stream], and the header [x-model-used] set to
    the model of that fetch, which is one of the two models. *)
Theorem serve_success_pass_through
    env_key upstream req resp log pre q r post :
  serve env_key upstream req = (resp, log) ->
  log = (pre ++ Fetch q (inr r) :: post)%list ->
  ok r = true ->
  post = []
  /\ resp = pass_through (Proxy.model q) r
  /\ body resp = body r
  /\ status resp = 200
  /\ get "Content-Type" (headers resp) = Some "text/event-stream"
  /\ get "x-model-used" (headers resp) = Some (Proxy.model q)
  /\ configured (Proxy.model q).
Proof.
  intros Hrun Hlog Hok.
  assert (post = [] /\ resp = pass_through (Proxy.model q) r
          /\ configured (Proxy.model q)) as (-> & -> & Hm).
  { destruct (serve_cases _ _ _ _ _ Hrun)
      as [[_ ->]|[(e & -> & _)|(key & msgs & c & es & _ & _ & Hloop & Hc)]].
    - by destruct pre.
    - by destruct pre as [|? [|? ?]].
    - assert (Hp : configured primary_model) by by left.
      pose proof (attempts_ok_ends _ _ _ _ _ _ _ _ _ Hloop Hp) as Hends.
      destruct c as [r0|e]; destruct Hc as [-> ->].
      + destruct (Hends pre q r post Hlog Hok) as (? & [= ->] & ?). auto.
      + apply cut_before_last in Hlog as (post' & -> & Hes).
        by destruct (Hends pre q r post' Hes Hok) as (_ & [=] & _). }
  repeat split; auto.
Qed.

(** C5, witness: the first attempt succeeds. *)
Lemma serve_success_pass_through_witness :
  let q := upstream_request "key" primary_model Samples.OfProxy.hello in
  let run := serve (Some "key") (Samples.OfProxy.scripted []) Samples.OfProxy.post in
  fst run = pass_through (Proxy.model q) Samples.OfProxy.success
  /\ body (fst run) = Some "data: [DONE]"
  /\ get "x-model-used" (headers (fst run)) = Some "google/gemini-2.5-flash".
Proof.
  intros q run.
  destruct (serve_success_pass_through (Some "key") (Samples.OfProxy.scripted [])
              Samples.OfProxy.post (fst run) (snd run) [] q
              Samples.OfProxy.success [] eq_refl eq_refl eq_refl)
    as (_ & H1 & H2 & _ & _ & H3 & _).
  exact (conj H1 (conj H2 H3)).
Defined.

(** C9 (amended).  With no credential in the environment, a request that
    is not a preflight makes no upstream call and is answered 500 with a
    JSON body that carries the message of the exception raised.  The
    credential is looked at after the line that reads the request body and
    takes its [messages].  When that line completes (the body is JSON and
    is not [null]) the exception is the configuration error.  When that
    line throws (the body is not JSON, or is the JSON [null], which cannot
    be destructured) its exception is the one reported, and the credential
    is never looked at. *)
Theorem serve_without_credential upstream req resp log :
  method req <> "OPTIONS" ->
  serve None upstream req = (resp, log) ->
  fetches log = []
  /\ status resp = 500
  /\ exists e,
       log = [LogChatError e]
       /\ resp = error_response 500 (error_message e)
       /\ body resp = Some (stringify_error (error_message e))
       /\ (forall msgs, payload req = Readable msgs ->
             e = Error "LOVABLE_API_KEY is not configured")
       /\ (forall e', payload req = Unreadable e' -> e = e').
Proof.
  intros Hm. unfold serve.
  destruct (String.eqb_spec (method req) "OPTIONS") as [|_]; [done|].
  destruct (payload req) as [e|msgs]; intros [= <- <-].
  - repeat split. exists e. repeat split; congruence.
  - repeat split. eexists. repeat split; congruence.
Qed.

(** C9, witness: a well-formed request. *)
Lemma serve_without_credential_witness :
  let run := serve None (Samples.OfProxy.scripted []) Samples.OfProxy.post in
  fetches (snd run) = []
  /\ status (fst run) = 500
  /\ exists e,
       snd run = [LogChatError e]
       /\ fst run = error_response 500 (error_message e)
       /\ body (fst run) = Some (stringify_error (error_message e))
       /\ (forall msgs, payload Samples.OfProxy.post = Readable msgs ->
             e = Error "LOVABLE_API_KEY is not configured")
       /\ (forall e', payload Samples.OfProxy.post = Unreadable e' -> e = e').
Proof.
  intros run.
  apply (serve_without_credential (Samples.OfProxy.scripted [])
           Samples.OfProxy.post (fst run) (snd run)).
  - discriminate.
  - reflexivity.
Defined.

(** C9, counterexample.  No credential and a request body that is not
    JSON: the exception raised and reported is the one of the body, not
    the configuration error.  The same holds of the body [null], whose
    exception is the one of the destructuring. *)
Lemma unreadable_body_reported_first :
  let run := serve None (Samples.OfProxy.scripted []) Samples.OfProxy.garbled in
  let run' := serve None (Samples.OfProxy.scripted []) Samples.OfProxy.null_body in
  (snd run = [LogChatError (Error "Unexpected end of JSON input")]
   /\ body (fst run) = Some (stringify_error "Unexpected end of JSON input")
   /\ body (fst run)
      <> Some (stringify_error "LOVABLE_API_KEY is not configured"))
  /\ (status (fst run') = 500
      /\ fetches (snd run') = []
      /\ body (fst run')
         <> Some (stringify_error "LOVABLE_API_KEY is not configured")).
Proof. repeat split; discriminate. Qed.

(** Two upstreams that agree except at the attempt [n], where both fail
    with some other status and their bodies are read alike, end the loop
    alike. *)
Lemma attempts_same_completion key msgs up1 up2 n :
  (forall k q, k <> n -> up1 k q = up2 k q) ->
  (forall q, exists r1 r2,
      up1 n q = inr r1 /\ up2 n q = inr r2
      /\ gateway_failure r1 /\ gateway_failure r2
      /\ body_failure r1 = body_failure r2) ->
  forall left attempt model tried,
    fst (attempts key msgs up1 left attempt model tried)
    = fst (attempts key msgs up2 left attempt model tried).
Proof.
  intros Hsame Hn. induction left as [|left IH]; intros attempt model tried.
  { reflexivity. }
  simpl. destruct msgs as [l|e]; [|reflexivity].
  destruct (decide (attempt = n)) as [->|Hne].
  - destruct (Hn (upstream_request key model l))
      as (r1 & r2 & -> & -> & (Hok1 & H1 & H1') & (Hok2 & H2 & H2') & Hb).
    apply Z.eqb_neq in H1, H1', H2, H2'.
    rewrite Hok1, Hok2, H1, H1', H2, H2'. unfold text. rewrite Hb.
    by destruct (body_failure r2).
  - rewrite (Hsame attempt _ Hne).
    destruct (up2 attempt _) as [e|r]; [reflexivity|].
    destruct (ok r); [reflexivity|].
    destruct (status r =? 429).
    { specialize (IH (S attempt) model tried).
      by do 2 destruct (attempts _ _ _ left _ _ _). }
    destruct (status r =? 402); simpl; [|reflexivity].
    destruct tried; simpl; [reflexivity|].
    specialize (IH (S attempt) lite_model true).
    by do 2 destruct (attempts _ _ _ left _ _ _).
Qed.

(** C10 (amended).  An upstream answer that is neither OK nor 429 nor 402
    ends the run.  When its body is read to the end, the handler logs the
    status and the text of the body and answers 500 with the fixed body
    [{"error":"AI gateway error"}].  When reading its body fails, nothing
    of the answer is logged: the failure is caught, logged, and answered
    500 with its message.  Two upstreams that differ only in such an
    answer, at one attempt, and whose bodies there are read alike, get the
    caller the same response. *)
Theorem serve_gateway_error_fixed :
  (forall env_key upstream req resp log pre q r post,
      serve env_key upstream req = (resp, log) ->
      log = (pre ++ Fetch q (inr r) :: post)%list ->
      gateway_failure r ->
      match body_failure r with
      | None =>
          resp = error_response 500 "AI gateway error"
          /\ status resp = 500
          /\ body resp = Some (Samples.dq "{'error':'AI gateway error'}")
          /\ post = [LogGatewayError (status r)
                       (match body r with Some b => b | None => "" end)]
      | Some e =>
          resp = error_response 500 (error_message e)
          /\ status resp = 500
          /\ body resp = Some (stringify_error (error_message e))
          /\ post = [LogChatError e]
      end)
  /\ (forall env_key up1 up2 req n,
         (forall k q, k <> n -> up1 k q = up2 k q) ->
         (forall q, exists r1 r2,
             up1 n q = inr r1 /\ up2 n q = inr r2
             /\ gateway_failure r1 /\ gateway_failure r2
             /\ body_failure r1 = body_failure r2) ->
         fst (serve env_key up1 req) = fst (serve env_key up2 req)).
Proof.
  split.
  - intros * Hrun Hlog Hfail.
    destruct (serve_cases _ _ _ _ _ Hrun)
      as [[_ ->]|[(e & -> & _)|(key & msgs & c & es & _ & _ & Hloop & Hc)]].
    { by destruct pre. }
    { by destruct pre as [|? [|? ?]]. }
    pose proof (attempts_gateway_failure _ _ _ _ _ _ _ _ _ Hloop) as Hends.
    unfold text in Hends.
    destruct c as [r0|e]; destruct Hc as [-> ->].
    + specialize (Hends pre q r post Hlog Hfail).
      destruct (body_failure r) as [e|].
      * by destruct Hends as [_ [=]].
      * destruct Hends as [-> [= ->]]. repeat split.
    + apply cut_before_last in Hlog as (post' & -> & Hes).
      specialize (Hends pre q r post' Hes Hfail).
      destruct (body_failure r) as [e'|].
      * destruct Hends as [-> [= ->]]. repeat split.
      * by destruct Hends as [_ [=]].
  - intros * Hsame Hn. unfold serve.
    destruct (String.eqb (method req) "OPTIONS"); [reflexivity|].
    destruct (payload req) as [e|msgs]; [reflexivity|].
    destruct env_key as [[|a key]|]; try reflexivity.
    pose proof (attempts_same_completion (String a key) msgs up1 up2 n
                  Hsame Hn maxRetries 0%nat primary_model false) as Heq.
    do 2 destruct (attempts _ _ _ _ _ _ _) as [[?|?] ?]; simpl in Heq;
      by simplify_eq.
Qed.

(** C10, witness: an upstream that answers 503 and one that answers 400
    with another body. *)
Lemma serve_gateway_error_fixed_witness :
  let r1 := Samples.OfProxy.answer 503 [] in
  let r2 := {| status := 400; headers := []; body := Some "bad request";
               body_failure := None |} in
  let run := serve (Some "key") (fun _ _ => inr r1) Samples.OfProxy.post in
  (fst run = error_response 500 "AI gateway error"
   /\ status (fst run) = 500
   /\ body (fst run) = Some (Samples.dq "{'error':'AI gateway error'}")
   /\ skipn 1 (snd run) = [LogGatewayError 503 "upstream says"])
  /\ fst run
     = fst (serve (Some "key")
              (fun k _ => match k with O => inr r2 | _ => inr r1 end)
              Samples.OfProxy.post).
Proof.
  intros r1 r2 run. destruct serve_gateway_error_fixed as [Hfixed Hsame]. split.
  - refine (Hfixed (Some "key") (fun _ _ => inr r1) Samples.OfProxy.post
             (fst run) (snd run) []
             (upstream_request "key" primary_model Samples.OfProxy.hello)
             r1 (skipn 1 (snd run)) eq_refl eq_refl _).
    repeat split; discriminate.
  - apply (Hsame _ _ _ _ 0%nat).
    + intros [|k] q Hk; [done|reflexivity].
    + intros q. exists r1, r2. repeat split; discriminate.
Defined.

(** C10, counterexample.  The upstream answers 503 and its body breaks
    off while the handler reads it: the caller gets 500 with the message
    of that failure, not the fixed body, and the log has no line for the
    gateway error. *)
Lemma gateway_body_failure_reported :
  let r := Samples.OfProxy.severed 503 in
  let q := upstream_request "key" primary_model Samples.OfProxy.hello in
  let run := serve (Some "key") (fun _ _ => inr r) Samples.OfProxy.post in
  gateway_failure r
  /\ snd run
     = [Fetch q (inr r);
        LogChatError (Error "error reading a body from connection")]
  /\ status (fst run) = 500
  /\ body (fst run)
     = Some (Samples.dq "{'error':'error reading a body from connection'}")
  /\ body (fst run) <> Some (Samples.dq "{'error':'AI gateway error'}").
Proof. repeat split; try discriminate; vm_compute; reflexivity. Qed.

End ProxyProofs.

(** ** The conversation drivers: proofs *)

Module ClientProofs.
Import JS Client.

Lemma length_substring (s : string) : forall n m,
  String.length (String.substring n m s) = Nat.min m (String.length s - n).
Proof.
  induction s as [|a s IH]; intros [|n] [|m]; simpl; auto;
    rewrite IH; lia.
Qed.

Lemma index_bound (pat s : string) (i : nat) :
  (0 < String.length pat)%nat ->
  String.index 0 pat s = Some i ->
  (i + String.length pat <= String.length s)%nat.
Proof.
  intros Hpat H. apply index_correct1 in H.
  apply (f_equal String.length) in H. rewrite length_substring in H. lia.
Qed.

(** What is left of the buffer after a line has been taken is shorter
    than the buffer. *)
Lemma slice_after_line (buffer : string) :
  indexOf LF buffer <> -1 ->
  (String.length (slice buffer (indexOf LF buffer + 1) None)
   < String.length buffer)%nat.
Proof.
  unfold indexOf. destruct (String.index 0 LF buffer) as [i|] eqn:Hi; [|done].
  intros _. apply index_bound in Hi; [|simpl; lia]. simpl in Hi.
  unfold slice, relative, JS.length. rewrite length_substring.
  destruct (Z.ltb_spec (Z.of_nat i + 1) 0); lia.
Qed.

(** The inner loop is not cut short by its fuel: any fuel above the
    length of the buffer gives the same result. *)
Lemma lines_fuel c : forall fuel fuel' d st,
  (String.length (textBuffer d) < fuel)%nat ->
  (String.length (textBuffer d) < fuel')%nat ->
  lines fuel c d st = lines fuel' c d st.
Proof.
  induction fuel as [|fuel IH]; intros [|fuel'] d st H H'; try lia.
  cbn [lines]. unfold setTranscript. cbv beta iota zeta.
  destruct (Z.eqb_spec (indexOf LF (textBuffer d)) (-1)) as [|Hnl]; [done|].
  apply slice_after_line in Hnl.
  destruct (_ || _); [apply IH; cbn [textBuffer]; lia|].
  destruct (negb _); [apply IH; cbn [textBuffer]; lia|].
  destruct (String.eqb _ "[DONE]"); [done|].
  destruct (delta_content _) as [content|]; [|done].
  destruct (truthy content); [|apply IH; cbn [textBuffer]; lia].
  by rewrite (IH fuel') by (cbn [textBuffer]; lia).
Qed.


(** [streamChat]'s retry loop is not cut short by its fuel either: the
    loop condition ends it. *)
Lemma chat_rounds_fuel relay sent : forall left left' call attempt st,
  (Z.to_nat (maxRetries - attempt) <= left)%nat ->
  (Z.to_nat (maxRetries - attempt) <= left')%nat ->
  chat_rounds relay sent left call attempt st
  = chat_rounds relay sent left' call attempt st.
Proof.
  unfold maxRetries.
  induction left as [|left IH]; intros [|left'] call attempt st H H';
    cbn [chat_rounds]; unfold maxRetries, chat_catch;
    destruct (Z.ltb_spec attempt 3) as [Ha|Ha]; try done; try lia.
  cbn [negb].
  assert (Hnext : forall st', chat_rounds relay sent left (S call) (attempt + 1) st'
                        = chat_rounds relay sent left' (S call) (attempt + 1) st').
  { intros st'. apply IH; lia. }
  unfold maxRetries.
  destruct (relay call sent) as [error|resp].
  { destruct (attempt + 1 >=? 3); [done|]. by rewrite Hnext. }
  destruct (status resp =? 429).
  { destruct (attempt + 1 <? 3); [|done]. by rewrite Hnext. }
  destruct (status resp =? 402); [done|].
  destruct (if ok resp then body resp else None) as [stream|].
  2: { destruct (attempt + 1 >=? 3); [done|]. by rewrite Hnext. }
  destruct (decode_stream _ _ _) as [[[d st'] [error|]] es]; [|done].
  destruct (attempt + 1 >=? 3); [done|]. by rewrite Hnext.
Qed.

Lemma last_index (prev : list Message) :
  prev !! (List.length prev - 1)%nat = last prev.
Proof. rewrite last_lookup. f_equal. lia. Qed.

Lemma fold_delta_replace acc base x :
  fold_delta acc (base ++ [{| role := assistant; content := x |}])%list
  = (base ++ [{| role := assistant; content := acc |}])%list.
Proof.
  unfold fold_delta. rewrite last_index, last_snoc.
  rewrite imap_app. f_equal.
  - rewrite <- (list_fmap_id base) at 2. rewrite <- imap_const.
    apply imap_ext. intros i m Hi. apply lookup_lt_Some in Hi.
    rewrite length_app. simpl. case_decide; [lia|done].
  - simpl. rewrite length_app. simpl. case_decide; [done|lia].
Qed.

Lemma fold_delta_append acc prev :
  open_turn prev ->
  fold_delta acc prev
  = (prev ++ [{| role := assistant; content := acc |}])%list.
Proof.
  unfold fold_delta, open_turn. rewrite last_index. intros Hopen.
  destruct (last prev) as [[[] ?]|]; try done.
  by destruct (Hopen _ eq_refl).
Qed.

Lemma lines_updates fuel c : forall d st d' st' es,
  lines fuel c d st = (d', st', es) -> updates c st es st'.
Proof.
  induction fuel as [|fuel IH]; intros d st d' st' es H.
  { injection H as <- <- <-. constructor. }
  cbn [lines] in H.
  repeat (case_match; simplify_eq/=); eauto using updates.
Qed.

Lemma updates_app c st es st1 es' st2 :
  updates c st es st1 -> updates c st1 es' st2 ->
  updates c st (es ++ es') st2.
Proof. induction 1; simpl; eauto using updates. Qed.

Lemma reads_updates c chunks failure : forall d st d' st' e es,
  reads c chunks failure d st = (d', st', e, es) -> updates c st es st'.
Proof.
  induction chunks as [|value rest IH]; intros d st d' st' e es H.
  - destruct d as [? [] ?]; injection H as <- <- <- <-; constructor.
  - cbn [reads] in H. destruct (streamDone d).
    { injection H as <- <- <- <-. constructor. }
    destruct (lines _ _ _ _) as [[d1 st1] es1] eqn:Hlines.
    destruct (reads _ _ _ _ _) as [[[d2 st2] e2] es2] eqn:Hreads.
    injection H as <- <- <- <-.
    eapply updates_app; eauto using lines_updates.
Qed.

(** Once the sentinel has been seen, no chunk is read any more. *)
Lemma reads_done c chunks failure d st :
  streamDone d = true -> reads c chunks failure d st = (d, st, None, []).
Proof. intros H. destruct chunks; cbn [reads]; by rewrite H. Qed.

Lemma reads_stops c pre more failure failure' : forall d st d' st' es,
  reads c pre failure d st = (d', st', None, es) ->
  streamDone d' = true ->
  reads c (pre ++ more) failure' d st = (d', st', None, es).
Proof.
  induction pre as [|value rest IH]; intros d st d' st' es H Hdone.
  - simpl in H. destruct (streamDone d) eqn:Hd.
    + injection H as <- <- <-. by apply reads_done.
    + injection H as <- <- _ <-. congruence.
  - cbn [reads app] in *. destruct (streamDone d); [done|].
    destruct (lines _ _ _ _) as [[d1 st1] es1].
    destruct (reads c rest failure d1 st1) as [[[d2 st2] e2] es2] eqn:Hreads.
    injection H as <- <- -> <-.
    by rewrite (IH _ _ _ _ _ Hreads Hdone).
Qed.

(** The updates of a decode loop touch one transcript and nothing else. *)
Lemma updates_frame c st es st' :
  updates c st es st' ->
  isLoading st' = isLoading st
  /\ isAssistantLoading st' = isAssistantLoading st
  /\ forall c', c' <> c -> transcript c' st' = transcript c' st.
Proof.
  induction 1 as [|st acc es st' _ (IH1 & IH2 & IH3)]; [done|].
  rewrite IH1, IH2. repeat split; try by destruct c.
  intros c' Hc. rewrite (IH3 c' Hc). by destruct c, c'.
Qed.

Lemma updates_io c st es st' :
  updates c st es st' -> fetches es = [] /\ sleeps es = [].
Proof. induction 1; simpl; auto. Qed.

Lemma transcript_set c f st :
  transcript c (fst (setTranscript c f st)) = f (transcript c st).
Proof. by destruct c. Qed.

(** From a transcript that is [base] with an open turn, or [base] and one
    reply, every value an update sets is [base] and one reply. *)
Lemma updates_replies c st es st' base :
  updates c st es st' ->
  (transcript c st = base /\ open_turn base)
  \/ one_reply base (transcript c st) ->
  Forall (fun e => exists acc,
            e = SetTranscript c
                  (base ++ [{| role := assistant; content := acc |}])%list) es
  /\ (transcript c st' = transcript c st \/ one_reply base (transcript c st')).
Proof.
  induction 1 as [|st acc es st' _ IH]; intros Hbase; [auto|].
  assert (Hset : fold_delta acc (transcript c st)
                 = (base ++ [{| role := assistant; content := acc |}])%list).
  { destruct Hbase as [[<- Hopen]|[x ->]].
    - by apply fold_delta_append.
    - apply fold_delta_replace. }
  destruct IH as [Hes Hst'].
  { right. rewrite transcript_set, Hset. by exists acc. }
  rewrite transcript_set, Hset in Hst'. rewrite Hset. split.
  - constructor; eauto.
  - right. destruct Hst' as [->|?]; [by exists acc|done].
Qed.

Lemma fetches_app (l k : list Effect) :
  fetches (l ++ k) = (fetches l ++ fetches k)%list.
Proof. induction l as [|[] l IH]; simpl; by rewrite ?IH. Qed.

Lemma sleeps_app (l k : list Effect) :
  sleeps (l ++ k) = (sleeps l ++ sleeps k)%list.
Proof. induction l as [|[] l IH]; simpl; by rewrite ?IH. Qed.

(** One round of [streamChat] that is answered 429. *)
Lemma chat_rounds_limited relay sent left call attempt st r :
  relay call sent = inr r -> status r = 429 -> attempt < maxRetries ->
  chat_rounds relay sent (S left) call attempt st
  = if attempt + 1 <? maxRetries then
      (fst (chat_rounds relay sent left (S call) (attempt + 1) st),
       Fetch sent (inr r)
         :: Toast {| title := "Rate limited";
                     description :=
                       "Retrying in "
                         ++ show (round_seconds (700 * (attempt + 1))) ++ "s...";
                     destructive := false |}
         :: Sleep (700 * (attempt + 1))
         :: snd (chat_rounds relay sent left (S call) (attempt + 1) st))
    else
      (fst (setLoading Primary false st),
       Fetch sent (inr r)
         :: Toast {| title := "Rate limit exceeded";
                     description := "Please try again a bit later.";
                     destructive := true |}
         :: snd (setLoading Primary false st)).
Proof.
  intros Hr Hst Ha. cbn [chat_rounds]. apply Z.ltb_lt in Ha.
  rewrite Ha, Hr, Hst. cbn [negb Z.eqb Pos.eqb].
  destruct (attempt + 1 <? maxRetries); [|reflexivity].
  by destruct (chat_rounds _ _ left _ _ _).
Qed.

Lemma streamChat_limited relay userMessage st :
  (forall n sent, exists r, relay n sent = inr r /\ status r = 429) ->
  let newMessages :=
    (messages st ++ [{| role := user; content := userMessage |}])%list in
  streamChat relay userMessage st
  = ({| messages := newMessages; isLoading := false;
        assistantMessages := assistantMessages st;
        isAssistantLoading := isAssistantLoading st |},
     [SetTranscript Primary newMessages;
      SetLoading Primary true;
      Fetch newMessages (relay 0%nat newMessages);
      Toast {| title := "Rate limited"; description := "Retrying in 1s...";
               destructive := false |};
      Sleep 700;
      Fetch newMessages (relay 1%nat newMessages);
      Toast {| title := "Rate limited"; description := "Retrying in 1s...";
               destructive := false |};
      Sleep 1400;
      Fetch newMessages (relay 2%nat newMessages);
      Toast {| title := "Rate limit exceeded";
               description := "Please try again a bit later.";
               destructive := true |};
      SetLoading Primary false]).
Proof.
  intros Hrelay newMessages.
  destruct (Hrelay 0%nat newMessages) as (r0 & E0 & S0).
  destruct (Hrelay 1%nat newMessages) as (r1 & E1 & S1).
  destruct (Hrelay 2%nat newMessages) as (r2 & E2 & S2).
  unfold streamChat, setTranscript at 1, setLoading at 1.
  cbn [messages isLoading assistantMessages isAssistantLoading transcript].
  fold newMessages. change (Z.to_nat maxRetries) with 3%nat.
  rewrite (chat_rounds_limited _ _ _ _ _ _ r0) by done.
  rewrite (chat_rounds_limited _ _ _ _ _ _ r1) by done.
  rewrite (chat_rounds_limited _ _ _ _ _ _ r2) by done.
  rewrite E0, E1, E2. reflexivity.
Qed.

(** C1 (amended).  When every transport call of [streamChat] is answered
    429, the driver makes three calls, sleeping 700 and 1400 between them,
    shows the terminal rate-limit toast and clears the loading flag.  The
    transcript is the one before the call with the utterance of the user
    appended, as it was set before the first transport call: no assistant
    entry is added. *)
Theorem streamChat_rate_limited relay userMessage st :
  (forall n sent, exists r, relay n sent = inr r /\ status r = 429) ->
  let newMessages :=
    (messages st ++ [{| role := user; content := userMessage |}])%list in
  let run := streamChat relay userMessage st in
  List.length (fetches (snd run)) = 3%nat
  /\ sleeps (snd run) = [700; 1400]
  /\ (exists before,
         snd run
         = (before
              ++ [Toast {| title := "Rate limit exceeded";
                           description := "Please try again a bit later.";
                           destructive := true |};
                  SetLoading Primary false])%list)
  /\ (forall c value, In (SetTranscript c value) (snd run) ->
        c = Primary /\ value = newMessages)
  /\ isLoading (fst run) = false
  /\ messages (fst run) = newMessages
  /\ assistantMessages (fst run) = assistantMessages st
  /\ isAssistantLoading (fst run) = isAssistantLoading st.
Proof.
  intros Hrelay newMessages run. unfold run.
  rewrite (streamChat_limited _ _ _ Hrelay). fold newMessages. cbn [fst snd].
  split; [reflexivity|]. split; [reflexivity|]. split.
  { eexists [_; _; _; _; _; _; _; _; _]. reflexivity. }
  split; [|by repeat split].
  intros c value Hin. simpl in Hin. intuition congruence.
Qed.

(** C1, witness: a relay that always answers 429, from a fresh state. *)
Lemma streamChat_rate_limited_witness :
  let relay : Relay := fun _ _ => inr Samples.OfClient.limited in
  let run := streamChat relay "hi" Samples.OfClient.fresh in
  List.length (fetches (snd run)) = 3%nat
  /\ sleeps (snd run) = [700; 1400]
  /\ isLoading (fst run) = false
  /\ messages (fst run) = [{| role := user; content := "hi" |}].
Proof.
  intros relay run.
  destruct (streamChat_rate_limited relay "hi" Samples.OfClient.fresh)
    as (H1 & H2 & _ & _ & H3 & H4 & _).
  { intros n sent. by exists Samples.OfClient.limited. }
  exact (conj H1 (conj H2 (conj H3 H4))).
Defined.

(** C1, counterexample.  From the empty transcript, with every call
    answered 429, the transcript after the call holds the utterance of the
    user: it is not the transcript from before the call. *)
Lemma streamChat_keeps_utterance :
  let relay : Relay := fun _ _ => inr Samples.OfClient.limited in
  let run := streamChat relay "hi" Samples.OfClient.fresh in
  messages Samples.OfClient.fresh = []
  /\ messages (fst run) = [{| role := user; content := "hi" |}]
  /\ messages (fst run) <> messages Samples.OfClient.fresh.
Proof. repeat split. discriminate. Qed.

(** The log of [streamAssistantChat] whatever the relay answers: the two
    state updates, the one fetch, and effects that are neither a fetch nor
    a sleep. *)
Lemma streamAssistantChat_log relay activeTabUrl userMessage st :
  let shown :=
    (assistantMessages st ++ [{| role := user; content := userMessage |}])%list in
  let sent :=
    {| role := system; content := systemPrompt activeTabUrl |} :: shown in
  exists rest,
    snd (streamAssistantChat relay activeTabUrl userMessage st)
    = SetTranscript Auxiliary shown :: SetLoading Auxiliary true
        :: Fetch sent (relay 0%nat sent) :: rest
    /\ fetches rest = [] /\ sleeps rest = []
    /\ (forall r, relay 0%nat sent = inr r -> status r = 429 ->
          rest = [Toast {| title := "Rate limited";
                           description := "Please try again later.";
                           destructive := true |};
                  SetLoading Auxiliary false]
          /\ isAssistantLoading
               (fst (streamAssistantChat relay activeTabUrl userMessage st))
             = false
          /\ assistantMessages
               (fst (streamAssistantChat relay activeTabUrl userMessage st))
             = shown).
Proof.
  intros shown sent. unfold streamAssistantChat.
  unfold setTranscript at 1, setLoading at 1.
  cbn [messages isLoading assistantMessages isAssistantLoading transcript].
  fold shown. fold sent.
  destruct (relay 0%nat sent) as [e|resp] eqn:Hrelay.
  { eexists. cbn [snd app]. do 3 (split; [reflexivity|]). by intros r [=]. }
  destruct (status resp =? 429) eqn:H429.
  { eexists. cbn [snd fst app setLoading]. do 3 (split; [reflexivity|]).
    by intros r [= <-] _. }
  assert (Hno : forall r, (inr resp : thrown + Response) = inr r ->
                       status r = 429 -> False).
  { intros r [= <-] Hst. rewrite Hst in H429. discriminate. }
  destruct (status resp =? 402).
  { eexists. cbn [snd app setLoading]. do 3 (split; [reflexivity|]).
    intros r Hr Hst. destruct (Hno r Hr Hst). }
  destruct (if ok resp then body resp else None) as [stream|].
  2: { eexists. cbn [snd app setLoading]. do 3 (split; [reflexivity|]).
       intros r Hr Hst. destruct (Hno r Hr Hst). }
  destruct (decode_stream _ _ _) as [[[d st'] e] es] eqn:Hdecode.
  apply reads_updates, updates_io in Hdecode as [Hf Hs].
  destruct e as [error|]; eexists; cbn [snd app setLoading];
    (split; [reflexivity|]); rewrite fetches_app, sleeps_app, Hf, Hs;
    (do 2 (split; [reflexivity|])); intros r Hr Hst; destruct (Hno r Hr Hst).
Qed.

(** C8.  [streamAssistantChat] makes exactly one transport call and never
    sleeps, whatever the relay answers; on a 429 answer it shows the
    terminal toast, clears its loading flag and returns.  [streamChat],
    answered 429 throughout, makes three calls and sleeps twice. *)
Theorem streamAssistantChat_single_attempt :
  (forall relay activeTabUrl userMessage st,
      let run := streamAssistantChat relay activeTabUrl userMessage st in
      let shown :=
        (assistantMessages st
           ++ [{| role := user; content := userMessage |}])%list in
      List.length (fetches (snd run)) = 1%nat
      /\ sleeps (snd run) = []
      /\ forall sent r,
           In (sent, inr r) (fetches (snd run)) -> status r = 429 ->
           snd run
           = [SetTranscript Auxiliary shown;
              SetLoading Auxiliary true;
              Fetch sent (inr r);
              Toast {| title := "Rate limited";
                       description := "Please try again later.";
                       destructive := true |};
              SetLoading Auxiliary false]
           /\ isAssistantLoading (fst run) = false
           /\ assistantMessages (fst run) = shown)
  /\ (forall relay userMessage st,
         (forall n sent, exists r, relay n sent = inr r /\ status r = 429) ->
         let run := streamChat relay userMessage st in
         List.length (fetches (snd run)) = 3%nat
         /\ sleeps (snd run) = [700; 1400]).
Proof.
  split.
  - intros relay activeTabUrl userMessage st run shown.
    destruct (streamAssistantChat_log relay activeTabUrl userMessage st)
      as (rest & Hlog & Hf & Hs & H429).
    fold run shown in Hlog, H429. rewrite Hlog. cbn [fetches sleeps].
    rewrite Hf, Hs. split; [reflexivity|]. split; [reflexivity|].
    intros sent r [[= <- Hr]|[]] Hst.
    destruct (H429 r Hr Hst) as (-> & ? & ?). rewrite Hr. auto.
  - intros relay userMessage st Hrelay run. unfold run.
    rewrite (streamChat_limited _ _ _ Hrelay). by split.
Qed.

(** C8, witness: the auxiliary driver against a relay that always answers
    429. *)
Lemma streamAssistantChat_single_attempt_witness :
  let relay : Relay := fun _ _ => inr Samples.OfClient.limited in
  let run := streamAssistantChat relay None "hi" Samples.OfClient.fresh in
  List.length (fetches (snd run)) = 1%nat
  /\ sleeps (snd run) = []
  /\ isAssistantLoading (fst run) = false
  /\ List.length (fetches (snd (streamChat relay "hi" Samples.OfClient.fresh)))
     = 3%nat.
Proof.
  intros relay run. destruct streamAssistantChat_single_attempt as [Haux Hchat].
  destruct (Haux relay None "hi" Samples.OfClient.fresh) as (H1 & H2 & H3).
  destruct (H3 _ Samples.OfClient.limited (or_introl eq_refl) eq_refl)
    as (_ & H4 & _).
  destruct (Hchat relay "hi" Samples.OfClient.fresh) as [H5 _].
  { intros n sent. by exists Samples.OfClient.limited. }
  exact (conj H1 (conj H2 (conj H4 H5))).
Defined.

(** The two chunks of the cut line, in either conversation and any state. *)
Lemma reads_cut c st :
  reads c [Samples.OfClient.cut_1] None initial st
  = ({| textBuffer := Samples.OfClient.cut_1; streamDone := false;
        assistantContent := "" |}, st, None, [])
  /\ reads c [Samples.OfClient.cut_1; Samples.OfClient.cut_2] None initial st
     = ({| textBuffer := ""; streamDone := false; assistantContent := "hi" |},
        fst (setTranscript c (fold_delta "hi") st), None,
        [SetTranscript c (fold_delta "hi" (transcript c st))]).
Proof. destruct c; split; vm_compute; reflexivity. Qed.

(** C4 (amended).  The first chunk holds no line feed, so no line is taken
    from it and nothing is parsed: the cut line stays in the pending
    buffer as it came, without a line feed added.  With the second chunk
    the line is complete; it is taken, parsed, and gives exactly one
    update of the transcript, with the content [hi].  No exception comes
    out of the decode loop, and the buffer is left empty. *)
Theorem cut_line_waits_for_its_end c st :
  indexOf LF Samples.OfClient.cut_1 = -1
  /\ reads c [Samples.OfClient.cut_1] None initial st
     = ({| textBuffer := Samples.OfClient.cut_1; streamDone := false;
           assistantContent := "" |}, st, None, [])
  /\ decode_stream c
       {| chunks := [Samples.OfClient.cut_1; Samples.OfClient.cut_2];
          failure := None |} st
     = ({| textBuffer := ""; streamDone := false; assistantContent := "hi" |},
        fst (setTranscript c (fold_delta "hi") st), None,
        [SetTranscript c (fold_delta "hi" (transcript c st))])
  /\ (open_turn (transcript c st) ->
      fold_delta "hi" (transcript c st)
      = (transcript c st ++ [{| role := assistant; content := "hi" |}])%list).
Proof.
  split; [reflexivity|]. destruct (reads_cut c st) as [H1 H2].
  split; [exact H1|]. split; [exact H2|]. apply fold_delta_append.
Qed.

(** C4, witness: the primary conversation after a question. *)
Lemma cut_line_waits_for_its_end_witness :
  snd (decode_stream Primary
         {| chunks := [Samples.OfClient.cut_1; Samples.OfClient.cut_2];
            failure := None |} Samples.OfClient.asked)
  = [SetTranscript Primary
       [{| role := user; content := "question" |};
        {| role := assistant; content := "hi" |}]].
Proof.
  destruct (cut_line_waits_for_its_end Primary Samples.OfClient.asked)
    as (_ & _ & H & Hfold).
  rewrite H. cbn [snd]. rewrite Hfold; [reflexivity|].
  intros m [= <-]. discriminate.
Defined.

(** C4, counterexample.  After the first chunk the pending buffer is the
    chunk itself: there is no line feed in it, so it is not the cut line
    followed by a line feed. *)
Lemma cut_line_not_pushed_back :
  let after :=
    fst (fst (fst (reads Primary [Samples.OfClient.cut_1] None initial
                     Samples.OfClient.asked))) in
  textBuffer after = Samples.OfClient.cut_1
  /\ indexOf LF (textBuffer after) = -1
  /\ textBuffer after <> Samples.OfClient.cut_1 ++ LF.
Proof. repeat split. vm_compute. discriminate. Qed.

(** For comparison, the branch that pushes a line back: it is taken for a
    complete line whose payload does not parse.  The line returns to the
    head of the buffer, is taken again with every later chunk, and the
    lines behind it are not reached. *)
Example unparsable_line_is_pushed_back :
  reads Primary [Samples.OfClient.line_bad; Samples.OfClient.line_He] None
        initial Samples.OfClient.asked
  = ({| textBuffer := Samples.OfClient.line_bad ++ Samples.OfClient.line_He;
        streamDone := false; assistantContent := "" |},
     Samples.OfClient.asked, None, []).
Proof. vm_compute. reflexivity. Qed.

Lemma reads_three c st :
  reads c [Samples.OfClient.line_He; Samples.OfClient.line_llo;
           Samples.OfClient.line_DONE] None initial st
  = ({| textBuffer := ""; streamDone := true; assistantContent := "Hello" |},
     fst (setTranscript c (fold_delta "Hello")
            (fst (setTranscript c (fold_delta "He") st))),
     None,
     [SetTranscript c (fold_delta "He" (transcript c st));
      SetTranscript c (fold_delta "Hello" (fold_delta "He" (transcript c st)))]).
Proof. destruct c; vm_compute; reflexivity. Qed.

(** C7.  From a transcript whose last entry is not the assistant's, the
    three lines make one assistant entry: it is appended with the content
    [He] and then set to [Hello].  The sentinel ends the decode loop:
    whatever chunks follow, and even if the body would fail after them,
    nothing more is read. *)
Theorem three_lines_one_reply c st more failure :
  open_turn (transcript c st) ->
  let '(d, st', e, es) :=
    decode_stream c
      {| chunks := ([Samples.OfClient.line_He; Samples.OfClient.line_llo;
                     Samples.OfClient.line_DONE] ++ more)%list;
         failure := failure |} st in
  streamDone d = true
  /\ assistantContent d = "Hello"
  /\ e = None
  /\ transcript c st'
     = (transcript c st ++ [{| role := assistant; content := "Hello" |}])%list
  /\ es = [SetTranscript c
             (transcript c st ++ [{| role := assistant; content := "He" |}])%list;
           SetTranscript c
             (transcript c st
                ++ [{| role := assistant; content := "Hello" |}])%list].
Proof.
  intros Hopen. unfold decode_stream. cbn [chunks Client.failure].
  rewrite (reads_stops _ _ _ None _ _ _ _ _ _ (reads_three c st) eq_refl).
  rewrite !transcript_set, (fold_delta_append "He") by done.
  rewrite fold_delta_replace. by repeat split.
Qed.

(** C7, witness: the primary conversation after a question, with a
    further line after the sentinel. *)
Lemma three_lines_one_reply_witness :
  let '(d, st', e, es) :=
    decode_stream Primary
      {| chunks := [Samples.OfClient.line_He; Samples.OfClient.line_llo;
                    Samples.OfClient.line_DONE; Samples.OfClient.line_He];
         failure := Some NotAnError |} Samples.OfClient.asked in
  streamDone d = true
  /\ assistantContent d = "Hello"
  /\ e = None
  /\ transcript Primary st'
     = [{| role := user; content := "question" |};
        {| role := assistant; content := "Hello" |}]
  /\ es = [SetTranscript Primary
             [{| role := user; content := "question" |};
              {| role := assistant; content := "He" |}];
           SetTranscript Primary
             [{| role := user; content := "question" |};
              {| role := assistant; content := "Hello" |}]].
Proof.
  apply (three_lines_one_reply Primary Samples.OfClient.asked
           [Samples.OfClient.line_He] (Some NotAnError)).
  intros m [= <-]. discriminate.
Defined.

End ClientProofs.

(** ** The runtime: reading back what is written *)

Module JsonMore.
Import JS.

Lemma code_bound (c : ascii) : (code c < 256)%N.
Proof. apply N_ascii_bounded. Qed.

Lemma of_codes_codes (s : string) : of_codes (codes s) = s.
Proof.
  induction s as [|c s IH]; simpl; [done|].
  unfold code. by rewrite ascii_N_embedding, IH.
Qed.

Lemma codes_of_codes (l : list N) :
  Forall (fun n => (n < 256)%N) l -> codes (of_codes l) = l.
Proof.
  induction 1 as [|n l Hn _ IH]; simpl; [done|].
  unfold code. by rewrite N_ascii_embedding, IH.
Qed.

Lemma codes_bound (s : string) : Forall (fun n => (n < 256)%N) (codes s).
Proof. induction s; simpl; constructor; auto using code_bound. Qed.

Lemma codes_append (s t : string) : codes (s ++ t) = (codes s ++ codes t)%list.
Proof. induction s as [|c s IH]; simpl; by rewrite ?IH. Qed.

Lemma hex_digit_value (n : N) :
  (n < 16)%N -> hex_value (hex_digit n) = Some n.
Proof.
  intros Hn. unfold hex_digit, hex_value.
  destruct (N.ltb_spec n 10).
  - replace ((48 <=? 48 + n) && (48 + n <=? 57))%N with true.
    + f_equal. lia.
    + symmetry. apply andb_true_iff. split; apply N.leb_le; lia.
  - replace ((48 <=? 87 + n) && (87 + n <=? 57))%N with false.
    + replace ((97 <=? 87 + n) && (87 + n <=? 102))%N with true.
      * f_equal. lia.
      * symmetry. apply andb_true_iff. split; apply N.leb_le; lia.
    + symmetry. apply andb_false_iff. right. apply N.leb_gt. lia.
Qed.

Lemma hex_digit_bound (n : N) : (n < 16)%N -> (hex_digit n < 256)%N.
Proof. intros Hn. unfold hex_digit. destruct (n <? 10)%N; lia. Qed.

Lemma quote_unit_bound (c : N) :
  (c < 256)%N -> Forall (fun n => (n < 256)%N) (quote_unit c).
Proof.
  intros Hc. unfold quote_unit.
  do 7 (destruct (_ =? _)%N; [by repeat constructor|]).
  destruct (N.ltb_spec c 32); [|by repeat constructor].
  repeat constructor; try done; apply hex_digit_bound.
  - apply N.Div0.div_lt_upper_bound. lia.
  - by apply N.mod_lt.
Qed.

(** Scanning the quoted form of one byte, inside a string, gives the
    byte. *)
Lemma scan_quoted_unit (c : N) acc toks rest :
  scan_all (InString acc None) toks (quote_unit c ++ rest)%list
  = scan_all (InString (c :: acc) None) toks rest.
Proof.
  unfold quote_unit.
  destruct (N.eqb_spec c 34) as [->|H34]; [done|].
  destruct (N.eqb_spec c 92) as [->|H92]; [done|].
  destruct (N.eqb_spec c 8) as [->|H8]; [done|].
  destruct (N.eqb_spec c 12) as [->|H12]; [done|].
  destruct (N.eqb_spec c 10) as [->|H10]; [done|].
  destruct (N.eqb_spec c 13) as [->|H13]; [done|].
  destruct (N.eqb_spec c 9) as [->|H9]; [done|].
  destruct (N.ltb_spec c 32) as [Hlt|Hge].
  - assert (E1 : hex_value (hex_digit (c / 16)) = Some (c / 16)%N).
    { apply hex_digit_value, N.Div0.div_lt_upper_bound. lia. }
    assert (E2 : hex_value (hex_digit (c mod 16)) = Some (c mod 16)%N).
    { by apply hex_digit_value, N.mod_lt. }
    set (h1 := hex_digit (c / 16)) in *. set (h2 := hex_digit (c mod 16)) in *.
    clearbody h1 h2.
    cbn -[N.mul N.add N.div N.modulo]. rewrite E1.
    cbn -[N.mul N.add N.div N.modulo]. rewrite E2.
    cbn -[N.mul N.add N.div N.modulo escape_unit].
    replace (16 * (16 * (16 * (16 * 0 + (48 - 48)) + (48 - 48)) + c / 16)
             + c mod 16)%N with c
      by (pose proof (N.div_mod c 16); lia).
    unfold escape_unit, is_high_surrogate.
    replace ((55296 <=? c) && (c <=? 56319))%N with false
      by (symmetry; apply andb_false_iff; left; apply N.leb_gt; lia).
    unfold utf8. replace (c <? 128)%N with true
      by (symmetry; apply N.ltb_lt; lia).
    done.
  - cbn [app scan_all scan_step flush].
    apply N.eqb_neq in H34, H92. rewrite H34, H92.
    replace (c <? 32)%N with false by (symmetry; apply N.ltb_ge; lia).
    done.
Qed.

(** Scanning the quoted form of a text, inside a string, rebuilds the
    text. *)
Lemma scan_quoted (l : list N) : forall acc toks rest,
  scan_all (InString acc None) toks
           ((concat (map quote_unit l)) ++ rest)%list
  = scan_all (InString (rev l ++ acc) None) toks rest.
Proof.
  induction l as [|c l IH]; intros acc toks rest; [done|].
  cbn [map concat]. rewrite <- app_assoc, scan_quoted_unit, IH.
  simpl. by rewrite <- app_assoc.
Qed.

Lemma codes_quote (s : string) :
  codes (quote s)
  = (34%N :: concat (map quote_unit (codes s)) ++ [34%N])%list.
Proof.
  unfold quote. apply codes_of_codes.
  constructor; [done|]. apply Forall_app. split; [|by constructor].
  apply Forall_concat, Forall_map.
  eapply Forall_impl; [apply codes_bound|]. apply quote_unit_bound.
Qed.

(** Scanning a quoted text between tokens gives the string token of the
    text. *)
Lemma scan_quote (s : string) toks rest :
  scan_all Idle toks (codes (quote s) ++ rest)%list
  = scan_all Idle (TString s :: toks) rest.
Proof.
  rewrite codes_quote. cbn [app scan_all scan_step scan_idle].
  change (scan_idle toks 34%N) with (Some (InString [] None, toks)).
  cbn iota beta. rewrite <- app_assoc, scan_quoted.
  cbn [app scan_all scan_step flush]. change (34 =? 34)%N with true.
  cbn iota. by rewrite app_nil_r, rev_involutive, of_codes_codes.
Qed.

(** [JSON.parse(JSON.stringify(s)) = s] for a string [s]. *)
Lemma parse_quote (s : string) : JSON_parse (quote s) = Some (JString s).
Proof.
  unfold JSON_parse, tokens.
  rewrite <- (app_nil_r (codes (quote s))), scan_quote. done.
Qed.


(** The body of an error response parses back to the object it was made
    from. *)
Lemma parse_stringify_error (message : string) :
  JSON_parse (Proxy.stringify_error message)
  = Some (JObject [("error", JString message)]).
Proof.
  unfold Proxy.stringify_error, JSON_parse, tokens.
  rewrite !codes_append.
  change (codes "{") with [123%N]. change (codes ":") with [58%N].
  change (codes "}") with [125%N].
  cbn [app scan_all scan_step scan_idle].
  change (scan_idle [] 123%N) with (Some (Idle, [TLBrace])). cbn iota beta.
  rewrite scan_quote. cbn [app scan_all scan_step].
  change (scan_idle [TString "error"; TLBrace] 58%N)
    with (Some (Idle, [TColon; TString "error"; TLBrace])). cbn iota beta.
  rewrite scan_quote. reflexivity.
Qed.

End JsonMore.

(** ** The relay proxy: every run *)

Module ProxyMore.
Import JS Proxy ProxyProofs.

Lemma upstream_fetches_app (l k : list Effect) :
  fetches (l ++ k) = (fetches l ++ fetches k)%list.
Proof. induction l as [|[] l IH]; simpl; by rewrite ?IH. Qed.

Lemma upstream_sleeps_app (l k : list Effect) :
  sleeps (l ++ k) = (sleeps l ++ sleeps k)%list.
Proof. induction l as [|[] l IH]; simpl; by rewrite ?IH. Qed.

Lemma rate_limited_app (l k : list Effect) :
  rate_limited (l ++ k) = (rate_limited l ++ rate_limited k)%list.
Proof. unfold rate_limited. by rewrite upstream_fetches_app, List.filter_app. Qed.

(** The loop makes at most as many fetches as it has iterations left, and
    sleeps once for every fetch answered 429. *)
Lemma attempts_budget key msgs upstream left attempt model tried c es :
  attempts key msgs upstream left attempt model tried = (c, es) ->
  (List.length (fetches es) <= left)%nat
  /\ List.length (sleeps es) = List.length (rate_limited es).
Proof.
  intros Hrun. pattern left, attempt, model, tried, c, es.
  eapply attempts_cases; [..|exact Hrun]; clear; unfold rate_limited; simpl.
  - intros. lia.
  - intros. lia.
  - intros. lia.
  - intros left a m t l r _ _ Hok. apply ok_excludes in Hok as [H _].
    apply Z.eqb_neq in H. rewrite H. simpl. lia.
  - intros left a m t l r c es _ _ Hst _ [IH1 IH2]. rewrite Hst. simpl.
    unfold rate_limited in IH2. lia.
  - intros left a m l r c es _ _ Hst _ [IH1 IH2]. rewrite Hst. simpl.
    unfold rate_limited in IH2. lia.
  - intros left a m l r _ _ Hst. rewrite Hst. simpl. lia.
  - intros left a m t l r t0 _ _ (_ & H & _) _. apply Z.eqb_neq in H.
    rewrite H. simpl. lia.
  - intros left a m t l r e _ _ (_ & H & _) _. apply Z.eqb_neq in H.
    rewrite H. simpl. lia.
Qed.

(** A fetch of the loop that is answered 429 is followed at once by the
    sleep of its back-off, and a sleep of the loop follows at once a fetch
    that was answered 429. *)
Lemma attempts_paced key msgs upstream left attempt model tried c es :
  attempts key msgs upstream left attempt model tried = (c, es) ->
  (forall pre q r post,
     es = (pre ++ Fetch q (inr r) :: post)%list -> status r = 429 ->
     exists post',
       post = Sleep (retryAfter r (attempt + List.length (fetches pre))) :: post')
  /\ (forall pre d post,
        es = (pre ++ Sleep d :: post)%list ->
        exists pre' q r,
          pre = (pre' ++ [Fetch q (inr r)])%list /\ status r = 429).
Proof.
  intros Hrun. pattern left, attempt, model, tried, c, es.
  eapply attempts_cases; [..|exact Hrun]; clear.
  - intros. split; intros; by destruct pre.
  - intros. split; intros; by destruct pre.
  - intros. split; intros; destruct pre as [|? [|? ?]]; by simplify_eq/=.
  - intros left a m t l r _ _ Hok. apply ok_excludes in Hok as [Hn _].
    split; intros; destruct pre as [|? [|? ?]]; by simplify_eq/=.
  - intros left a m t l r c es _ _ Hst _ [IH1 IH2]. split.
    + intros pre q r' post Hes Hst'. destruct pre as [|? pre]; simplify_eq/=.
      { rewrite Nat.add_0_r. by eexists. }
      destruct pre as [|? pre]; simplify_eq/=.
      destruct (IH1 pre q r' post eq_refl Hst') as [post' ->].
      rewrite Nat.add_succ_r. by eexists.
    + intros pre d post Hes. destruct pre as [|? pre]; simplify_eq/=.
      destruct pre as [|? pre]; simplify_eq/=.
      { by exists [], (upstream_request key m l), r. }
      destruct (IH2 pre d post eq_refl) as (pre' & q & r' & -> & ?).
      by exists (Fetch (upstream_request key m l) (inr r)
                 :: Sleep (retryAfter r a) :: pre'), q, r'.
  - intros left a m l r c es _ _ Hst _ [IH1 IH2]. split.
    + intros pre q r' post Hes Hst'. destruct pre as [|? pre]; simplify_eq/=.
      { lia. }
      destruct (IH1 pre q r' post eq_refl Hst') as [post' ->].
      rewrite Nat.add_succ_r. by eexists.
    + intros pre d post Hes. destruct pre as [|? pre]; simplify_eq/=.
      destruct (IH2 pre d post eq_refl) as (pre' & q & r' & -> & ?).
      by exists (Fetch (upstream_request key m l) (inr r) :: pre'), q, r'.
  - intros left a m l r _ _ Hst.
    split; intros; destruct pre as [|? [|? ?]]; simplify_eq/=; lia.
  - intros left a m t l r t0 _ _ (_ & Hn & _) _.
    split; intros; destruct pre as [|? [|? [|? ?]]]; by simplify_eq/=.
  - intros left a m t l r e _ _ (_ & Hn & _) _.
    split; intros; destruct pre as [|? [|? ?]]; by simplify_eq/=.
Qed.

(** X1.  Whatever the request, the credential and the upstream, one run of
    the handler makes at most three upstream fetches and sleeps at most
    three times, as often as a fetch was answered 429.  Every fetch that
    is answered 429 is followed at once by a sleep, for the delay computed
    from that answer and the number of the attempt; and every sleep comes
    directly after a fetch that was answered 429. *)
Theorem serve_attempt_budget env_key upstream req :
  let log := snd (serve env_key upstream req) in
  (List.length (fetches log) <= 3)%nat
  /\ List.length (sleeps log) = List.length (rate_limited log)
  /\ (List.length (sleeps log) <= 3)%nat
  /\ (forall pre q r post,
        log = (pre ++ Fetch q (inr r) :: post)%list -> status r = 429 ->
        exists post',
          post = Sleep (retryAfter r (List.length (fetches pre))) :: post')
  /\ (forall pre d post,
        log = (pre ++ Sleep d :: post)%list ->
        exists pre' q r,
          pre = (pre' ++ [Fetch q (inr r)])%list /\ status r = 429).
Proof.
  cbv zeta. destruct (serve env_key upstream req) as [resp log] eqn:Hrun.
  cbn [snd].
  assert ((List.length (fetches log) <= 3)%nat
          /\ List.length (sleeps log) = List.length (rate_limited log))
    as [H1 H2].
  { destruct (serve_cases _ _ _ _ _ Hrun)
      as [[_ ->]|[(e & -> & _)|(key & msgs & c & es & _ & _ & Hloop & Hc)]];
      [by split; simpl; lia|by split; simpl; lia|].
    apply attempts_budget in Hloop as [H1 H2]. unfold maxRetries in H1.
    destruct c as [r|e]; destruct Hc as [_ ->]; [done|].
    rewrite upstream_fetches_app, upstream_sleeps_app, rate_limited_app, !length_app.
    simpl. lia. }
  split; [done|]. split; [done|]. split.
  { rewrite H2. unfold rate_limited.
    etransitivity; [apply List.filter_length_le|done]. }
  destruct (serve_cases _ _ _ _ _ Hrun)
    as [[_ ->]|[(e & -> & _)|(key & msgs & c & es & _ & _ & Hloop & Hc)]].
  - split; intros; by destruct pre.
  - split; intros; by destruct pre as [|? [|? ?]].
  - destruct (attempts_paced _ _ _ _ _ _ _ _ _ Hloop) as [Hnext Hprev].
    destruct c as [r|e]; destruct Hc as [_ ->]; [by split|]. split.
    + intros pre q r post Hes Hst.
      apply cut_before_last in Hes as (post' & -> & Hes).
      destruct (Hnext pre q r post' Hes Hst) as [post'' ->]. by eexists.
    + intros pre d post Hes.
      destruct post as [|p post _] using rev_ind.
      { apply app_inj_tail in Hes as [_ [=]]. }
      change (pre ++ Sleep d :: post ++ [p])%list
        with (pre ++ (Sleep d :: post) ++ [p])%list in Hes.
      rewrite app_assoc in Hes. apply app_inj_tail in Hes as [Hes _].
      exact (Hprev pre d post Hes).
Qed.


(** What [serve] does once more, with what is known of the credential
    and the conversation when the loop runs. *)
Lemma serve_runs env_key upstream req resp log :
  serve env_key upstream req = (resp, log) ->
  (log = []
   /\ resp = {| status := 200; headers := corsHeaders; body := None;
                 body_failure := None |}
   /\ method req = "OPTIONS")
  \/ (method req <> "OPTIONS"
      /\ exists e, log = [LogChatError e]
                   /\ resp = error_response 500 (error_message e))
  \/ (method req <> "OPTIONS"
      /\ exists key l c es,
        env_key = Some key /\ key <> ""
        /\ payload req = Readable (Items l)
        /\ attempts key (Items l) upstream maxRetries 0 primary_model false
           = (c, es)
        /\ match c with
           | Return r => resp = r /\ log = es
           | Throw e => resp = error_response 500 (error_message e)
                        /\ log = (es ++ [LogChatError e])%list
           end).
Proof.
  unfold serve. destruct (String.eqb_spec (method req) "OPTIONS") as [Hm|Hm].
  { intros [= <- <-]. auto. }
  destruct (payload req) as [e|[l|e]] eqn:Hp.
  { intros [= <- <-]. right. left. eauto. }
  2: { destruct env_key as [[|a key]|]; intros [= <- <-]; right; left; eauto. }
  destruct env_key as [[|a key]|].
  1, 3: intros [= <- <-]; right; left; eauto.
  destruct (attempts _ _ _ _ _ _ _) as [c es] eqn:Hrun.
  intros H. right. right. split; [done|]. exists (String a key), l, c, es.
  repeat split; auto. destruct c; by injection H as <- <-.
Qed.

Lemma paired_configured model tried :
  paired model tried ->
  configured model /\ (tried = true -> model = lite_model).
Proof.
  intros [[-> ->]|[-> ->]]; split; try done; (by left) || (by right).
Qed.

(** Every fetch of the loop carries the request built for the model in
    use, which is one of the two; once the cheaper model is in use, it
    stays. *)
Lemma attempts_requests key msgs upstream left attempt model tried c es :
  attempts key msgs upstream left attempt model tried = (c, es) ->
  paired model tried ->
  (forall q a, In (q, a) (fetches es) ->
     exists l m, msgs = Items l /\ q = upstream_request key m l
                 /\ configured m
                 /\ (tried = true -> m = lite_model)).
Proof.
  intros Hrun. pattern left, attempt, model, tried, c, es.
  eapply attempts_cases; [..|exact Hrun]; clear.
  - intros a m t _ q a' [].
  - intros left a m t e _ _ q a' [].
  - intros left a m t l e Hmsgs _ Hp q a' [[= <- <-]|[]].
    apply paired_configured in Hp as [? ?]. by exists l, m.
  - intros left a m t l r Hmsgs _ _ Hp q a' [[= <- <-]|[]].
    apply paired_configured in Hp as [? ?]. by exists l, m.
  - intros left a m t l r c es Hmsgs _ _ _ IH Hp q a' [[= <- <-]|Hin].
    + apply paired_configured in Hp as [? ?]. by exists l, m.
    + exact (IH Hp q a' Hin).
  - intros left a m l r c es Hmsgs _ _ _ IH Hp q a' [[= <- <-]|Hin].
    + apply paired_configured in Hp as [? ?]. by exists l, m.
    + destruct (IH (or_intror (conj eq_refl eq_refl)) q a' Hin)
        as (l' & m' & ? & ? & ? & ?).
      by exists l', m'.
  - intros left a m l r Hmsgs _ _ Hp q a' [[= <- <-]|[]].
    apply paired_configured in Hp as [? ?]. by exists l, m.
  - intros left a m t l r t0 Hmsgs _ _ _ Hp q a' [[= <- <-]|[]].
    apply paired_configured in Hp as [? ?]. by exists l, m.
  - intros left a m t l r e Hmsgs _ _ _ Hp q a' [[= <- <-]|[]].
    apply paired_configured in Hp as [? ?]. by exists l, m.
Qed.

Lemma attempts_stay_lite key msgs upstream left attempt model tried c es :
  attempts key msgs upstream left attempt model tried = (c, es) ->
  paired model tried ->
  forall pre q a post,
    es = (pre ++ Fetch q a :: post)%list ->
    Proxy.model q = lite_model ->
    forall q' a', In (q', a') (fetches post) -> Proxy.model q' = lite_model.
Proof.
  intros Hrun. pattern left, attempt, model, tried, c, es.
  eapply attempts_cases; [..|exact Hrun]; clear.
  - intros. by destruct pre.
  - intros. by destruct pre.
  - intros left a m t l e _ _ _ pre q a' post Hes _ q' a'' Hin.
    destruct pre as [|? [|? ?]]; simplify_eq/=. done.
  - intros left a m t l r _ _ _ _ pre q a' post Hes _ q' a'' Hin.
    destruct pre as [|? [|? ?]]; simplify_eq/=. done.
  - intros left a m t l r c es Hmsgs Hup Hst Hrec IH Hp pre q a' post Hes Hq q' a'' Hin.
    destruct pre as [|? pre]; simplify_eq/=.
    + destruct Hp as [[_ Heq]|[-> _]].
      { exfalso. apply models_differ. by rewrite <- Heq. }
      destruct (attempts_requests _ _ _ _ _ _ _ _ _ Hrec
                  (or_intror (conj eq_refl eq_refl)) q' a'' Hin)
        as (l' & m' & _ & -> & _ & Hm). by rewrite Hm.
    + destruct pre as [|? pre]; simplify_eq/=. eapply IH; eauto.
  - intros left a m l r c es Hmsgs Hup Hst Hrec IH Hp pre q a' post Hes Hq q' a'' Hin.
    destruct pre as [|? pre]; simplify_eq/=.
    + destruct (attempts_requests _ _ _ _ _ _ _ _ _ Hrec
                  (or_intror (conj eq_refl eq_refl)) q' a'' Hin)
        as (l' & m' & _ & -> & _ & Hm). by rewrite Hm.
    + eapply (IH (or_intror (conj eq_refl eq_refl))); eauto.
  - intros left a m l r _ _ _ _ pre q a' post Hes _ q' a'' Hin.
    destruct pre as [|? [|? ?]]; simplify_eq/=. done.
  - intros left a m t l r t0 _ _ _ _ _ pre q a' post Hes _ q' a'' Hin.
    destruct pre as [|? [|? [|? ?]]]; simplify_eq/=. done.
  - intros left a m t l r e _ _ _ _ _ pre q a' post Hes _ q' a'' Hin.
    destruct pre as [|? [|? ?]]; simplify_eq/=. done.
Qed.

(** X2.  Every upstream fetch of a run carries the bearer token of the
    configured credential, the fixed system message followed by the
    messages of the caller in their order, [stream: true], and one of the
    two models.  The first fetch asks for the primary model, and after a
    fetch that asked for the cheaper model every later fetch asks for it
    too. *)
Theorem serve_requests env_key upstream req :
  let log := snd (serve env_key upstream req) in
  (forall q a, In (q, a) (fetches log) ->
     exists key l,
       env_key = Some key /\ key <> ""
       /\ payload req = Readable (Items l)
       /\ authorization q = "Bearer " ++ key
       /\ messages q = system_message :: l
       /\ stream q = true
       /\ configured (Proxy.model q))
  /\ (forall q a rest,
        fetches log = (q, a) :: rest -> Proxy.model q = primary_model)
  /\ (forall pre q a post,
        log = (pre ++ Fetch q a :: post)%list ->
        Proxy.model q = lite_model ->
        forall q' a', In (q', a') (fetches post) ->
                      Proxy.model q' = lite_model).
Proof.
  cbv zeta. destruct (serve env_key upstream req) as [resp log] eqn:Hrun.
  cbn [snd].
  destruct (serve_runs _ _ _ _ _ Hrun)
    as [(-> & _)|[(_ & e & -> & _)
                 |(_ & key & l & c & es & -> & Hk & Hp & Hloop & Hc)]].
  - repeat split; [intros ? ? []|discriminate|by intros [|? ?]].
  - repeat split; [intros ? ? []|discriminate|].
    intros pre q a post Hes. destruct pre as [|? [|? ?]]; simplify_eq/=.
  - assert (Hpaired : paired primary_model false) by by left.
    assert (Hlog : fetches log = fetches es).
    { destruct c; destruct Hc as [_ ->]; [done|].
      by rewrite upstream_fetches_app, app_nil_r. }
    repeat split.
    + intros q a Hin. rewrite Hlog in Hin.
      destruct (attempts_requests _ _ _ _ _ _ _ _ _ Hloop Hpaired q a Hin)
        as (l' & m & [= <-] & -> & Hm & _).
      exists key, l. by repeat split.
    + intros q a rest Hf. rewrite Hlog in Hf.
      destruct (attempts_head _ _ _ _ _ _ _ _ _ l Hloop eq_refl)
        as [(_ & -> & _)|(a' & post & ->)]; [done|].
      by injection Hf as <- _ _.
    + intros pre q a post Hes Hq q' a' Hin.
      destruct c as [r|e]; destruct Hc as [_ ->].
      * eapply attempts_stay_lite; eauto.
      * apply cut_before_last in Hes as (post' & -> & Hes).
        rewrite upstream_fetches_app, app_nil_r in Hin.
        eapply attempts_stay_lite; eauto.
Qed.

(** A rejected fetch ends the loop with its exception. *)
Lemma attempts_rejected key msgs upstream left attempt model tried c es :
  attempts key msgs upstream left attempt model tried = (c, es) ->
  forall pre q e post,
    es = (pre ++ Fetch q (inl e) :: post)%list ->
    post = [] /\ c = Throw e.
Proof.
  intros Hrun. pattern left, attempt, model, tried, c, es.
  eapply attempts_cases; [..|exact Hrun]; clear.
  - intros. by destruct pre.
  - intros. by destruct pre.
  - intros. destruct pre as [|? [|? ?]]; by simplify_eq/=.
  - intros. destruct pre as [|? [|? ?]]; by simplify_eq/=.
  - intros left a m t l r c es _ _ _ _ IH pre q e post Hes.
    destruct pre as [|? pre]; simplify_eq/=.
    destruct pre as [|? pre]; simplify_eq/=. eauto.
  - intros left a m l r c es _ _ _ _ IH pre q e post Hes.
    destruct pre as [|? pre]; simplify_eq/=. eauto.
  - intros. destruct pre as [|? [|? ?]]; by simplify_eq/=.
  - intros. destruct pre as [|? [|? [|? ?]]]; by simplify_eq/=.
  - intros. destruct pre as [|? [|? ?]]; by simplify_eq/=.
Qed.

(** X3.  A fetch that is rejected (the network call itself fails) is not
    retried: it is the last fetch of the run, the exception is logged,
    and the caller gets 500 with the message of the exception. *)
Theorem serve_rejected_fetch env_key upstream req resp log pre q e post :
  serve env_key upstream req = (resp, log) ->
  log = (pre ++ Fetch q (inl e) :: post)%list ->
  post = [LogChatError e]
  /\ resp = error_response 500 (error_message e)
  /\ status resp = 500.
Proof.
  intros Hrun Hlog.
  destruct (serve_runs _ _ _ _ _ Hrun)
    as [(-> & _)|[(_ & e' & -> & _)
                 |(_ & key & l & c & es & _ & _ & _ & Hloop & Hc)]].
  - by destruct pre.
  - by destruct pre as [|? [|? ?]].
  - pose proof (attempts_rejected _ _ _ _ _ _ _ _ _ Hloop) as Hends.
    destruct c as [r|e']; destruct Hc as [-> ->].
    + by destruct (Hends pre q e post Hlog) as [_ [=]].
    + apply cut_before_last in Hlog as (post' & -> & Hes).
      by destruct (Hends pre q e post' Hes) as [-> [= ->]].
Qed.

(** X3, witness: an upstream whose first call fails. *)
Lemma serve_rejected_fetch_witness :
  let up : Upstream := fun _ _ => inl (Error "connection refused") in
  let run := serve (Some "key") up Samples.OfProxy.post in
  snd run
  = [Fetch (upstream_request "key" primary_model Samples.OfProxy.hello)
       (inl (Error "connection refused"));
     LogChatError (Error "connection refused")]
  /\ fst run = error_response 500 "connection refused".
Proof.
  intros up run.
  destruct (serve_rejected_fetch (Some "key") up Samples.OfProxy.post
              (fst run) (snd run) []
              (upstream_request "key" primary_model Samples.OfProxy.hello)
              (Error "connection refused") [LogChatError (Error "connection refused")]
              eq_refl eq_refl) as (_ & H & _).
  split; [reflexivity|exact H].
Defined.


(** The responses the loop returns. *)
Lemma attempts_returns key msgs upstream left attempt model tried c es r :
  attempts key msgs upstream left attempt model tried = (c, es) ->
  c = Return r ->
  (exists m up, r = pass_through m up)
  \/ (exists st message,
        r = error_response st message /\ (st = 402 \/ st = 429 \/ st = 500)).
Proof.
  intros Hrun. pattern left, attempt, model, tried, c, es.
  eapply attempts_cases; [..|exact Hrun]; clear -r; intros; simplify_eq;
    eauto 10.
Qed.

(** The responses of the handler: the preflight answer, an upstream
    answer passed through, or an error report. *)
Lemma serve_responses env_key upstream req :
  let resp := fst (serve env_key upstream req) in
  resp = {| status := 200; headers := corsHeaders; body := None;
                 body_failure := None |}
  \/ (exists m up, resp = pass_through m up)
  \/ (exists st message,
        resp = error_response st message
        /\ (st = 402 \/ st = 429 \/ st = 500)).
Proof.
  cbv zeta. destruct (serve env_key upstream req) as [resp log] eqn:Hrun.
  cbn [fst].
  destruct (serve_runs _ _ _ _ _ Hrun)
    as [(_ & -> & _)|[(_ & e & _ & ->)
                     |(_ & key & l & c & es & _ & _ & _ & Hloop & Hc)]];
    [by left|right; right; eauto 10|].
  destruct c as [r|e]; destruct Hc as [-> _].
  - right. eapply attempts_returns; eauto.
  - right. right. eauto 10.
Qed.

(** X4.  Whatever the request and the upstream, the response of the
    handler has status 200, 402, 429 or 500, and it carries the two
    cross-origin headers: [Access-Control-Allow-Origin: *] and the list of
    allowed request headers. *)
Theorem serve_status_and_cors env_key upstream req :
  let resp := fst (serve env_key upstream req) in
  (status resp = 200 \/ status resp = 402 \/ status resp = 429
   \/ status resp = 500)
  /\ get "Access-Control-Allow-Origin" (headers resp) = Some "*"
  /\ get "Access-Control-Allow-Headers" (headers resp)
     = Some "authorization, x-client-info, apikey, content-type".
Proof.
  cbv zeta.
  destruct (serve_responses env_key upstream req)
    as [->|[(m & up & ->)|(st & message & -> & Hst)]].
  - repeat split. by left.
  - repeat split. by left.
  - repeat split. simpl. tauto.
Qed.

(** X5.  A request that is not a preflight and whose conversation cannot
    be used (the body could not be read, or its [messages] cannot be
    spread) never reaches the upstream, whether or not the credential is
    set: the caller gets 500, and the exception is logged. *)
Theorem serve_unusable_body env_key upstream req :
  method req <> "OPTIONS" ->
  (forall l, payload req <> Readable (Items l)) ->
  let run := serve env_key upstream req in
  fetches (snd run) = []
  /\ status (fst run) = 500
  /\ exists e, snd run = [LogChatError e]
               /\ fst run = error_response 500 (error_message e).
Proof.
  intros Hm Hp run. unfold run.
  destruct (serve env_key upstream req) as [resp log] eqn:Hrun.
  destruct (serve_runs _ _ _ _ _ Hrun)
    as [(_ & _ & ?)|[(_ & e & -> & ->)
                    |(_ & key & l & c & es & _ & _ & Hl & _)]].
  - done.
  - repeat split. by exists e.
  - by destruct (Hp l).
Qed.

(** X5, witness: a body whose [messages] is not an array, with the
    credential set. *)
Lemma serve_unusable_body_witness :
  let req := {| method := "POST";
                payload := Readable
                             (NotIterable (Error "messages is not iterable")) |} in
  let run := serve (Some "key") (Samples.OfProxy.scripted []) req in
  fetches (snd run) = []
  /\ status (fst run) = 500
  /\ exists e, snd run = [LogChatError e]
               /\ fst run = error_response 500 (error_message e).
Proof.
  intros req run.
  apply (serve_unusable_body (Some "key") (Samples.OfProxy.scripted []) req).
  - discriminate.
  - intros l. discriminate.
Defined.

Lemma retryAfter_truthy (r : Response) (attempt : nat) :
  truthy_number (retryAfter r attempt) = true.
Proof.
  unfold retryAfter, or_else.
  destruct (truthy_number (Number _)) eqn:E; [done|]. simpl.
  destruct (Qeq_bool _ 0) eqn:E'; [|done].
  apply Qeq_bool_iff in E'. unfold Qeq in E'. simpl in E'. lia.
Qed.

Lemma attempts_delays key msgs upstream left attempt model tried c es :
  attempts key msgs upstream left attempt model tried = (c, es) ->
  Forall (fun d => truthy_number d = true) (sleeps es).
Proof.
  intros Hrun. pattern left, attempt, model, tried, c, es.
  eapply attempts_cases; [..|exact Hrun]; clear; simpl; intros;
    auto using retryAfter_truthy.
Qed.

(** X6.  The handler never sleeps for a delay that is zero or not a
    number: whatever the retry-after headers of the upstream say, every
    delay passed to the timer is a truthy number. *)
Theorem serve_delays_truthy env_key upstream req :
  Forall (fun d => truthy_number d = true)
         (sleeps (snd (serve env_key upstream req))).
Proof.
  destruct (serve env_key upstream req) as [resp log] eqn:Hrun. cbn [snd].
  destruct (serve_runs _ _ _ _ _ Hrun)
    as [(-> & _)|[(_ & e & -> & _)
                 |(_ & key & l & c & es & _ & _ & _ & Hloop & Hc)]];
    [constructor..|].
  apply attempts_delays in Hloop.
  destruct c; destruct Hc as [_ ->]; [done|].
  by rewrite upstream_sleeps_app, app_nil_r.
Qed.

(** What a response of the loop tells about the run. *)
Lemma attempts_outcome key msgs upstream left attempt model tried c es :
  attempts key msgs upstream left attempt model tried = (c, es) ->
  paired model tried ->
  forall resp, c = Return resp ->
    (status resp = 200 ->
       exists pre q r, es = (pre ++ [Fetch q (inr r)])%list
                       /\ ok r = true
                       /\ resp = pass_through (Proxy.model q) r)
    /\ (status resp = 402 ->
          exists pre q r, es = (pre ++ [Fetch q (inr r)])%list
                          /\ status r = 402
                          /\ Proxy.model q = lite_model)
    /\ (status resp = 429 ->
          List.length (fetches es) = left
          /\ Forall (fun f => exists r, snd f = inr r
                                /\ (status r = 429 \/ status r = 402))
                    (fetches es)).
Proof.
  intros Hrun. pattern left, attempt, model, tried, c, es.
  eapply attempts_cases; [..|exact Hrun]; clear.
  - intros a m t _ resp [= <-]. by repeat split.
  - done.
  - done.
  - intros left a m t l r _ _ Hok _ resp [= <-]. repeat split; try done.
    intros _. by exists [], (upstream_request key m l), r.
  - intros left a m t l r c es _ _ Hst _ IH Hp resp ->.
    destruct (IH Hp resp eq_refl) as (H200 & H402 & H429). repeat split.
    + intros H. destruct (H200 H) as (pre & q & r' & -> & ? & ?).
      by exists (Fetch (upstream_request key m l) (inr r)
                 :: Sleep (retryAfter r a) :: pre), q, r'.
    + intros H. destruct (H402 H) as (pre & q & r' & -> & ? & ?).
      by exists (Fetch (upstream_request key m l) (inr r)
                 :: Sleep (retryAfter r a) :: pre), q, r'.
    + simpl. f_equal. by apply H429.
    + simpl. constructor; [eauto|by apply H429].
  - intros left a m l r c es _ _ Hst _ IH Hp resp ->.
    destruct (IH (or_intror (conj eq_refl eq_refl)) resp eq_refl)
      as (H200 & H402 & H429). repeat split.
    + intros H. destruct (H200 H) as (pre & q & r' & -> & ? & ?).
      by exists (Fetch (upstream_request key m l) (inr r) :: pre), q, r'.
    + intros H. destruct (H402 H) as (pre & q & r' & -> & ? & ?).
      by exists (Fetch (upstream_request key m l) (inr r) :: pre), q, r'.
    + simpl. f_equal. by apply H429.
    + simpl. constructor; [eauto|by apply H429].
  - intros left a m l r _ _ Hst Hp resp [= <-]. repeat split; try done.
    intros _. exists [], (upstream_request key m l), r.
    destruct Hp as [[? _]|[_ ->]]; done.
  - intros left a m t l r t0 _ _ _ _ _ resp [= <-]. by repeat split.
  - done.
Qed.

(** X7.  What the status of the answer tells the caller about the run.
    A 402 means that the last upstream fetch asked for the cheaper model
    and was answered 402.  A 429 means that the handler made all three
    attempts and each was answered 429 or 402 by the upstream.  A 200 to a
    request that is not a preflight means that the last thing the handler
    did was a fetch answered OK, whose body it passes through. *)
Theorem serve_outcome env_key upstream req resp log :
  serve env_key upstream req = (resp, log) ->
  (status resp = 402 ->
     exists pre q r, log = (pre ++ [Fetch q (inr r)])%list
                     /\ status r = 402 /\ Proxy.model q = lite_model)
  /\ (status resp = 429 ->
        List.length (fetches log) = 3%nat
        /\ Forall (fun f => exists r, snd f = inr r
                              /\ (status r = 429 \/ status r = 402))
                  (fetches log))
  /\ (status resp = 200 -> method req <> "OPTIONS" ->
        exists pre q r, log = (pre ++ [Fetch q (inr r)])%list
                        /\ ok r = true
                        /\ resp = pass_through (Proxy.model q) r).
Proof.
  intros Hrun.
  destruct (serve_runs _ _ _ _ _ Hrun)
    as [(_ & -> & Hm)|[(_ & e & _ & ->)
                      |(_ & key & l & c & es & _ & _ & _ & Hloop & Hc)]].
  - by repeat split.
  - by repeat split.
  - destruct c as [r|e]; destruct Hc as [-> ->]; [|by repeat split].
    destruct (attempts_outcome _ _ _ _ _ _ _ _ _ Hloop
                (or_introl (conj eq_refl eq_refl)) r eq_refl)
      as (H200 & H402 & H429).
    repeat split; auto; by apply H429.
Qed.

(** X7, witness: two quota answers. *)
Lemma serve_outcome_witness :
  let up := Samples.OfProxy.scripted
              [Samples.OfProxy.answer 402 []; Samples.OfProxy.answer 402 []] in
  let run := serve (Some "key") up Samples.OfProxy.post in
  status (fst run) = 402
  /\ exists pre q r, snd run = (pre ++ [Fetch q (inr r)])%list
                     /\ status r = 402 /\ Proxy.model q = lite_model.
Proof.
  intros up run. split; [reflexivity|].
  apply (serve_outcome (Some "key") up Samples.OfProxy.post (fst run) (snd run)
           eq_refl).
  reflexivity.
Defined.

(** X8.  Every response of the handler whose status is not 200 is an
    error report: its body is the JSON text of an object with the one
    member [error], a string, which [JSON.parse] reads back to that
    message whatever characters the message holds; and its content type
    says JSON. *)
Theorem serve_error_report env_key upstream req :
  let resp := fst (serve env_key upstream req) in
  status resp <> 200 ->
  exists message,
    body resp = Some (stringify_error message)
    /\ JSON_parse (stringify_error message)
       = Some (JObject [("error", JString message)])
    /\ get "Content-Type" (headers resp) = Some "application/json".
Proof.
  cbv zeta.
  destruct (serve_responses env_key upstream req)
    as [->|[(m & up & ->)|(st & message & -> & Hst)]]; try done.
  intros _. exists message. split; [done|].
  split; [apply JsonMore.parse_stringify_error|done].
Qed.

(** X8, witness: no credential is set. *)
Lemma serve_error_report_witness :
  exists message,
    body (fst (serve None (Samples.OfProxy.scripted [])
                 Samples.OfProxy.post))
    = Some (stringify_error message).
Proof.
  destruct (serve_error_report None (Samples.OfProxy.scripted [])
              Samples.OfProxy.post) as (message & H & _); [done|].
  by exists message.
Defined.

End ProxyMore.

(** ** The conversation drivers: every run *)

Module ClientMore.
Import JS Client Rounds ClientProofs.

Section Rounds.

Variable relay : Relay.
Variable sent : list Message.

(** Induction over the rounds of [streamChat]'s loop: one case for each
    way a round ends. *)
Lemma chat_rounds_cases
    (P : nat -> nat -> Z -> State -> State -> list Effect -> Prop) :
  (forall call attempt st, P O call attempt st st []) ->
  (forall left call attempt st,
     ~ attempt < maxRetries -> P (S left) call attempt st st []) ->
  (forall left call attempt st error st1 es st' es',
     attempt < maxRetries -> attempt + 1 < maxRetries ->
     failed_round (relay call sent) st error st1 es ->
     chat_rounds relay sent left (S call) (attempt + 1) st1 = (st', es') ->
     P left (S call) (attempt + 1) st1 st' es' ->
     P (S left) call attempt st st'
       (Fetch sent (relay call sent)
        :: es ++ [ConsoleError "Chat error attempt" (Some (attempt + 1)) error;
                  Sleep (500 * (attempt + 1))] ++ es')%list) ->
  (forall left call attempt st error st1 es,
     attempt < maxRetries -> ~ attempt + 1 < maxRetries ->
     failed_round (relay call sent) st error st1 es ->
     P (S left) call attempt st (fst (setLoading Primary false st1))
       (Fetch sent (relay call sent)
        :: es ++ [ConsoleError "Chat error attempt" (Some (attempt + 1)) error;
                  Toast {| title := "Error";
                           description := "Failed to send message. Please try again.";
                           destructive := true |};
                  SetLoading Primary false])%list) ->
  (forall left call attempt st resp st' es',
     attempt < maxRetries -> attempt + 1 < maxRetries ->
     relay call sent = inr resp -> status resp = 429 ->
     chat_rounds relay sent left (S call) (attempt + 1) st = (st', es') ->
     P left (S call) (attempt + 1) st st' es' ->
     P (S left) call attempt st st'
       (Fetch sent (inr resp)
        :: Toast {| title := "Rate limited";
                    description :=
                      "Retrying in " ++ show (round_seconds (700 * (attempt + 1)))
                                     ++ "s...";
                    destructive := false |}
        :: Sleep (700 * (attempt + 1)) :: es')) ->
  (forall left call attempt st resp,
     attempt < maxRetries -> ~ attempt + 1 < maxRetries ->
     relay call sent = inr resp -> status resp = 429 ->
     P (S left) call attempt st (fst (setLoading Primary false st))
       [Fetch sent (inr resp);
        Toast {| title := "Rate limit exceeded";
                 description := "Please try again a bit later.";
                 destructive := true |};
        SetLoading Primary false]) ->
  (forall left call attempt st resp,
     attempt < maxRetries ->
     relay call sent = inr resp -> status resp = 402 ->
     P (S left) call attempt st (fst (setLoading Primary false st))
       [Fetch sent (inr resp);
        Toast {| title := "Out of credits";
                 description := "Please add credits to your Lovable AI workspace.";
                 destructive := true |};
        SetLoading Primary false]) ->
  (forall left call attempt st resp stream d st1 es,
     attempt < maxRetries ->
     relay call sent = inr resp ->
     status resp <> 429 -> status resp <> 402 ->
     ok resp = true -> body resp = Some stream ->
     decode_stream Primary stream st = (d, st1, None, es) ->
     P (S left) call attempt st (fst (setLoading Primary false st1))
       (Fetch sent (inr resp) :: economy resp ++ es ++ [SetLoading Primary false])%list) ->
  forall left call attempt st st' log,
    chat_rounds relay sent left call attempt st = (st', log) ->
    P left call attempt st st' log.
Proof.
  intros Hzero Hstop Hfail Hfail_end H429 H429_end H402 Hok.
  induction left as [|left IH]; intros call attempt st st' log Hrun.
  { injection Hrun as <- <-. apply Hzero. }
  cbn [chat_rounds] in Hrun.
  destruct (Z.ltb_spec attempt maxRetries) as [Ha|Ha]; cbn [negb] in Hrun.
  2:{ injection Hrun as <- <-. apply Hstop. lia. }
  assert (Hcaught : forall error st1 es,
    failed_round (relay call sent) st error st1 es ->
    match chat_catch attempt error st1 with
    | inl (attempt', es') =>
        let '(st2, es'') := chat_rounds relay sent left (S call) attempt' st1 in
        (st2, (Fetch sent (relay call sent) :: es ++ es' ++ es'')%list)
    | inr (st2, es') => (st2, (Fetch sent (relay call sent) :: es ++ es')%list)
    end = (st', log) ->
    P (S left) call attempt st st' log).
  { intros error st1 es Hfr Hc. unfold chat_catch in Hc.
    destruct (Z.geb_spec (attempt + 1) maxRetries) as [Hn|Hn].
    - cbn in Hc. injection Hc as <- <-. apply Hfail_end; auto. lia.
    - destruct (chat_rounds relay sent left (S call) (attempt + 1) st1)
        as [st2 es2] eqn:Hrec.
      injection Hc as <- <-. eapply Hfail; eauto. }
  destruct (relay call sent) as [error|resp] eqn:Hanswer.
  { apply (Hcaught error st []); [by left|exact Hrun]. }
  destruct (Z.eqb_spec (status resp) 429) as [H9|H9].
  { destruct (Z.ltb_spec (attempt + 1) maxRetries) as [Hn|Hn].
    - destruct (chat_rounds relay sent left (S call) (attempt + 1) st)
        as [st2 es2] eqn:Hrec.
      injection Hrun as <- <-. eapply H429; eauto.
    - cbn in Hrun. injection Hrun as <- <-. apply H429_end; auto. lia. }
  destruct (Z.eqb_spec (status resp) 402) as [H2|H2].
  { cbn in Hrun. injection Hrun as <- <-. apply H402; auto. }
  destruct (ok resp) eqn:Hokr.
  2:{ apply (Hcaught (Error "Failed to start stream") st []); [|exact Hrun].
      right; left. exists resp. auto 10. }
  destruct (body resp) as [stream|] eqn:Hbody.
  2:{ apply (Hcaught (Error "Failed to start stream") st []); [|exact Hrun].
      right; left. exists resp. auto 10. }
  destruct (decode_stream Primary stream st) as [[[d st1] [error|]] es] eqn:Hdec.
  - apply (Hcaught error st1 (economy resp ++ es)%list); [|exact Hrun].
    right; right. exists resp, stream, d, es. auto 10.
  - cbn in Hrun. injection Hrun as <- <-. eapply Hok; eauto.
Qed.

Lemma decode_updates c stream st d st1 e es :
  decode_stream c stream st = (d, st1, e, es) -> updates c st es st1.
Proof. apply reads_updates. Qed.

Lemma economy_cases resp :
  economy resp = []
  \/ economy resp
     = [Toast {| title := "Economy mode";
                 description := "Using Gemini Flash Lite to avoid credit limits.";
                 destructive := false |}].
Proof. unfold economy. repeat case_match; auto. Qed.

(** What a round does between its fetch and its [catch]: at most the
    economy toast, and then updates of the primary transcript. *)
Lemma failed_round_view answer st error st1 es :
  failed_round answer st error st1 es ->
  exists pre es',
    es = (pre ++ es')%list
    /\ (pre = [] \/ exists t, pre = [Toast t])
    /\ updates Primary st es' st1.
Proof.
  intros [(_ & -> & ->)|[(resp & _ & _ & _ & _ & _ & -> & ->)
                        |(resp & stream & d & es' & _ & _ & _ & _ & _ & Hdec & ->)]].
  - exists [], []. repeat split; auto. constructor.
  - exists [], []. repeat split; auto. constructor.
  - exists (economy resp), es'. repeat split; [|by eapply decode_updates].
    destruct (economy_cases resp) as [->| ->]; eauto.
Qed.

Lemma failed_round_io answer st error st1 es :
  failed_round answer st error st1 es ->
  fetches es = [] /\ sleeps es = []
  /\ isLoading st1 = isLoading st
  /\ assistantMessages st1 = assistantMessages st
  /\ isAssistantLoading st1 = isAssistantLoading st.
Proof.
  intros (pre & es' & -> & Hpre & Hup)%failed_round_view.
  destruct (updates_io _ _ _ _ Hup) as [Hf Hs].
  destruct (updates_frame _ _ _ _ Hup) as (Hl & Hal & Hother).
  specialize (Hother Auxiliary ltac:(done)). cbn in Hother.
  rewrite fetches_app, sleeps_app, Hf, Hs.
  destruct Hpre as [->|[t ->]]; auto.
Qed.

Lemma last_snoc3 {A} (l : list A) (x y z : A) :
  last (l ++ [x; y; z]) = Some z.
Proof.
  change [x; y; z] with ([x; y] ++ [z])%list. by rewrite app_assoc, last_snoc.
Qed.

Lemma last_after {A} (l k : list A) (x : A) :
  last k = Some x -> last (l ++ k) = Some x.
Proof.
  intros H. destruct k as [|y k] using rev_ind; [done|].
  rewrite last_snoc in H. injection H as ->.
  by rewrite app_assoc, last_snoc.
Qed.

Lemma reads_no_failure c chunks : forall d st d' st' e es,
  reads c chunks None d st = (d', st', e, es) -> e = None.
Proof.
  induction chunks as [|value rest IH]; intros d st d' st' e es H;
    cbn [reads] in H; destruct (streamDone d); try by injection H.
  destruct (lines _ _ _ _) as [[d1 st1] es1].
  destruct (reads c rest None d1 st1) as [[[d2 st2] e2] es2] eqn:Hreads.
  injection H as <- <- <- <-. by eapply IH.
Qed.

Lemma failed_round_answer r st error st1 es :
  failed_round (inr r) st error st1 es ->
  status r <> 429 /\ status r <> 402
  /\ forall stream, ok r = true -> body r = Some stream ->
       failure stream <> None.
Proof.
  intros [([=] & _)|[(resp & [= <-] & H9 & H2 & Hno & _)
                    |(resp & stream & d & es' & [= <-] & H9 & H2 & Hok & Hbody
                      & Hdec & _)]].
  - repeat split; auto. intros stream Hok Hbody. destruct Hno; congruence.
  - repeat split; auto. intros stream' _ Hbody' Hnone.
    assert (stream' = stream) as -> by congruence.
    unfold decode_stream in Hdec. rewrite Hnone in Hdec.
    by apply reads_no_failure in Hdec.
Qed.

Lemma fetch_head s a l pre s' a' post :
  Fetch s a :: l = (pre ++ Fetch s' a' :: post)%list ->
  (pre = [] /\ s' = s /\ a' = a /\ post = l)
  \/ exists pre', pre = Fetch s a :: pre'
                  /\ l = (pre' ++ Fetch s' a' :: post)%list.
Proof.
  destruct pre as [|e pre]; cbn [app]; intros H; injection H as -> ->; eauto.
Qed.

Lemma fetch_skip l1 : forall l2 pre s a post,
  fetches l1 = [] ->
  (l1 ++ l2 = pre ++ Fetch s a :: post)%list ->
  exists pre', pre = (l1 ++ pre')%list /\ l2 = (pre' ++ Fetch s a :: post)%list.
Proof.
  induction l1 as [|e l1 IH]; intros l2 pre s a post Hf H; [by exists pre|].
  destruct pre as [|e' pre]; cbn [app] in H.
  - injection H as -> _. discriminate.
  - injection H as -> H.
    destruct (IH l2 pre s a post) as (pre' & -> & ->); [by destruct e'|done|].
    by exists pre'.
Qed.

Lemma fetch_absent l pre s a post :
  fetches l = [] -> l <> (pre ++ Fetch s a :: post)%list.
Proof.
  intros Hf ->. rewrite fetches_app in Hf. cbn in Hf.
  by destruct (fetches pre).
Qed.

Lemma rounds_budget left call attempt st st' log :
  chat_rounds relay sent left call attempt st = (st', log) ->
  attempt < maxRetries ->
  (Z.to_nat (maxRetries - attempt) <= left)%nat ->
  isLoading st' = false
  /\ last log = Some (SetLoading Primary false)
  /\ List.length (fetches log) = S (List.length (sleeps log))
  /\ Z.of_nat (List.length (fetches log)) <= maxRetries - attempt
  /\ Forall (fun f => fst f = sent) (fetches log)
  /\ backoffs attempt (sleeps log).
Proof.
  revert left call attempt st st' log. unfold maxRetries.
  apply (chat_rounds_cases
    (fun left call attempt st st' log =>
       attempt < 3 -> (Z.to_nat (3 - attempt) <= left)%nat ->
       isLoading st' = false
       /\ last log = Some (SetLoading Primary false)
       /\ List.length (fetches log) = S (List.length (sleeps log))
       /\ Z.of_nat (List.length (fetches log)) <= 3 - attempt
       /\ Forall (fun f => fst f = sent) (fetches log)
       /\ backoffs attempt (sleeps log))); unfold maxRetries.
  - intros; lia.
  - intros; lia.
  - intros left call attempt st error st1 es st' es' Ha Hn Hfr _ IH _ Hleft.
    destruct IH as (Hl & Hlast & Hlen & Hle & Hall & Hb); [lia|lia|].
    destruct (failed_round_io _ _ _ _ _ Hfr) as (Hf & Hs & _).
    cbn [fetches sleeps]. rewrite !fetches_app, !sleeps_app, Hf, Hs.
    cbn [fetches sleeps app List.length backoffs].
    repeat split; auto; try lia.
    + rewrite app_comm_cons. apply last_after. by apply (last_after [_; _]).
  - intros left call attempt st error st1 es Ha Hn Hfr _ _.
    destruct (failed_round_io _ _ _ _ _ Hfr) as (Hf & Hs & _).
    cbn [fetches sleeps]. rewrite !fetches_app, !sleeps_app, Hf, Hs.
    cbn [fetches sleeps app List.length backoffs].
    repeat split; auto; try lia.
    rewrite app_comm_cons. apply last_snoc3.
  - intros left call attempt st resp st' es' Ha Hn Hr H9 _ IH _ Hleft.
    destruct IH as (Hl & Hlast & Hlen & Hle & Hall & Hb); [lia|lia|].
    cbn [fetches sleeps List.length backoffs].
    repeat split; auto; try lia.
    change (Fetch sent (inr resp) :: ?a :: ?b :: es')%list
      with ([Fetch sent (inr resp); a; b] ++ es')%list.
    by apply last_after.
  - intros left call attempt st resp Ha Hn Hr H9 _ _.
    cbn [fetches sleeps List.length backoffs]. repeat split; auto; lia.
  - intros left call attempt st resp Ha Hr H2 _ _.
    cbn [fetches sleeps List.length backoffs]. repeat split; auto; lia.
  - intros left call attempt st resp stream d st1 es Ha Hr H9 H2 Hok Hbody Hdec _ _.
    apply decode_updates in Hdec.
    destruct (updates_io _ _ _ _ Hdec) as [Hf Hs].
    cbn [fetches sleeps]. rewrite !fetches_app, !sleeps_app, Hf, Hs.
    assert (fetches (economy resp) = [] /\ sleeps (economy resp) = []) as [-> ->].
    { by destruct (economy_cases resp) as [-> | ->]. }
    cbn [fetches sleeps app List.length backoffs].
    repeat split; auto; try lia.
    rewrite app_comm_cons, !app_assoc. apply last_snoc.
Qed.

Lemma sleep_skip l1 : forall l2 pre d post,
  sleeps l1 = [] ->
  (l1 ++ l2 = pre ++ Sleep d :: post)%list ->
  exists pre', pre = (l1 ++ pre')%list /\ l2 = (pre' ++ Sleep d :: post)%list.
Proof.
  induction l1 as [|e l1 IH]; intros l2 pre d post Hs H; [by exists pre|].
  destruct pre as [|e' pre]; cbn [app] in H.
  - injection H as -> _. discriminate.
  - injection H as -> H.
    destruct (IH l2 pre d post) as (pre' & -> & ->); [by destruct e'|done|].
    by exists pre'.
Qed.

Lemma sleep_absent l pre d post :
  sleeps l = [] -> l <> (pre ++ Sleep d :: post)%list.
Proof.
  intros Hs ->. rewrite sleeps_app in Hs. cbn in Hs.
  by destruct (sleeps pre).
Qed.

(** A round that the loop condition lets in starts with its fetch. *)
Lemma rounds_head left call attempt st st' log :
  chat_rounds relay sent left call attempt st = (st', log) ->
  attempt < maxRetries -> (0 < left)%nat ->
  exists rest, log = Fetch sent (relay call sent) :: rest.
Proof.
  revert left call attempt st st' log.
  apply (chat_rounds_cases
    (fun left call attempt st st' log =>
       attempt < maxRetries -> (0 < left)%nat ->
       exists rest, log = Fetch sent (relay call sent) :: rest)).
  - intros; lia.
  - intros; lia.
  - intros. by eexists.
  - intros. by eexists.
  - intros left call attempt st resp st' es' _ _ -> _ _ _ _ _. by eexists.
  - intros left call attempt st resp _ _ -> _ _ _. by eexists.
  - intros left call attempt st resp _ -> _ _ _. by eexists.
  - intros left call attempt st resp stream d st1 es _ -> _ _ _ _ _ _ _.
    by eexists.
Qed.

(** Where the loop sleeps: every sleep is followed at once by the fetch
    of the next round, and every fetch but the first of the loop comes
    directly after a sleep. *)
Lemma rounds_paced left call attempt st st' log :
  chat_rounds relay sent left call attempt st = (st', log) ->
  attempt < maxRetries ->
  (Z.to_nat (maxRetries - attempt) <= left)%nat ->
  (forall pre d post,
     log = (pre ++ Sleep d :: post)%list ->
     exists a post', post = Fetch sent a :: post')
  /\ (forall pre s a post,
        log = (pre ++ Fetch s a :: post)%list ->
        pre = [] \/ exists pre' d, pre = (pre' ++ [Sleep d])%list).
Proof.
  revert left call attempt st st' log. unfold maxRetries.
  apply (chat_rounds_cases
    (fun left call attempt st st' log =>
       attempt < 3 -> (Z.to_nat (3 - attempt) <= left)%nat ->
       (forall pre d post,
          log = (pre ++ Sleep d :: post)%list ->
          exists a post', post = Fetch sent a :: post')
       /\ (forall pre s a post,
             log = (pre ++ Fetch s a :: post)%list ->
             pre = [] \/ exists pre' d, pre = (pre' ++ [Sleep d])%list)));
    unfold maxRetries.
  - intros; lia.
  - intros; lia.
  - intros left call attempt st error st1 es st' es' Ha Hn Hfr Hrec IH _ Hleft.
    destruct IH as [IHs IHf]; [lia|lia|].
    destruct (failed_round_io _ _ _ _ _ Hfr) as (Hf & Hs & _).
    destruct (rounds_head _ _ _ _ _ _ Hrec) as [rest Hhead];
      [unfold maxRetries; lia|lia|].
    split.
    + intros pre d post H. rewrite app_comm_cons in H.
      apply sleep_skip in H as (pre1 & -> & H); [|done].
      destruct pre1 as [|x [|y pre2]]; cbn [app] in H.
      * discriminate.
      * injection H as _ _ <-. by eexists _, _.
      * injection H as _ _ H. exact (IHs pre2 d post H).
    + intros pre s a post H.
      apply fetch_head in H as [(-> & _)|(pre' & -> & H)]; [by left|].
      apply fetch_skip in H as (pre1 & -> & H); [|done].
      apply (fetch_skip [_; _]) in H as (pre2 & -> & H); [|done].
      right. destruct (IHf pre2 s a post H) as [->|(pre3 & d & ->)].
      * eexists (Fetch sent (relay call sent) :: es ++ [_])%list, _.
        cbn [app]. by rewrite <- app_assoc.
      * eexists (Fetch sent (relay call sent) :: es ++ [_; _] ++ pre3)%list, d.
        cbn [app]. by rewrite <- !app_assoc.
  - intros left call attempt st error st1 es Ha Hn Hfr _ _.
    destruct (failed_round_io _ _ _ _ _ Hfr) as (Hf & Hs & _). split.
    + intros pre d post H. rewrite app_comm_cons in H.
      apply sleep_absent in H; [done|]. rewrite sleeps_app. cbn [sleeps].
      by rewrite Hs.
    + intros pre s a post H.
      apply fetch_head in H as [(-> & _)|(pre' & -> & H)]; [by left|].
      apply fetch_absent in H; [done|]. by rewrite fetches_app, Hf.
  - intros left call attempt st resp st' es' Ha Hn Hr H9 Hrec IH _ Hleft.
    destruct IH as [IHs IHf]; [lia|lia|].
    destruct (rounds_head _ _ _ _ _ _ Hrec) as [rest Hhead];
      [unfold maxRetries; lia|lia|].
    split.
    + intros pre d post H.
      destruct pre as [|x [|y [|z pre2]]]; cbn [app] in H.
      * discriminate.
      * discriminate.
      * injection H as _ _ _ <-. by eexists _, _.
      * injection H as _ _ _ H. exact (IHs pre2 d post H).
    + intros pre s a post H.
      apply fetch_head in H as [(-> & _)|(pre' & -> & H)]; [by left|].
      apply (fetch_skip [_; _]) in H as (pre2 & -> & H); [|done].
      right. destruct (IHf pre2 s a post H) as [->|(pre3 & d & ->)].
      * by eexists [_; _], _.
      * by eexists (_ :: _ :: _ :: pre3), d.
  - intros left call attempt st resp Ha Hn Hr H9 _ _. split.
    + intros pre d post H. by apply (sleep_absent [_; _; _]) in H.
    + intros pre s a post H.
      apply fetch_head in H as [(-> & _)|(pre' & -> & H)]; [by left|].
      by apply fetch_absent in H.
  - intros left call attempt st resp Ha Hr H2 _ _. split.
    + intros pre d post H. by apply (sleep_absent [_; _; _]) in H.
    + intros pre s a post H.
      apply fetch_head in H as [(-> & _)|(pre' & -> & H)]; [by left|].
      by apply fetch_absent in H.
  - intros left call attempt st resp stream d0 st1 es Ha Hr H9 H2 Hok Hbody Hdec _ _.
    apply decode_updates in Hdec.
    destruct (updates_io _ _ _ _ Hdec) as [Hf Hs].
    assert (fetches (economy resp) = [] /\ sleeps (economy resp) = []) as [Hef Hes].
    { by destruct (economy_cases resp) as [-> | ->]. }
    split.
    + intros pre d post H. apply sleep_absent in H; [done|].
      cbn [sleeps]. by rewrite !sleeps_app, Hes, Hs.
    + intros pre s a post H.
      apply fetch_head in H as [(-> & _)|(pre' & -> & H)]; [by left|].
      apply fetch_absent in H; [done|]. by rewrite !fetches_app, Hef, Hf.
Qed.

Lemma updates_settled st es st1 :
  updates Primary st es st1 -> settled sent st ->
  settled sent st1 /\ Forall (replied sent) es.
Proof.
  intros Hup Hst.
  destruct (updates_replies _ _ _ _ sent Hup Hst) as [Hall Hend]. split.
  - destruct Hend as [Heq|Hone]; [|by right].
    cbn [transcript] in Heq. unfold settled. by rewrite Heq.
  - eapply Forall_impl; [exact Hall|]. intros e [acc ->]. split; [done|].
    intros t [= <-]. by exists acc.
Qed.

Lemma failed_round_settled answer st error st1 es :
  failed_round answer st error st1 es -> settled sent st ->
  settled sent st1 /\ Forall (replied sent) es.
Proof.
  intros (pre & es' & -> & Hpre & Hup)%failed_round_view Hst.
  destruct (updates_settled _ _ _ Hup Hst) as [Hst1 Hall].
  split; [done|]. apply Forall_app. split; [|done].
  destruct Hpre as [->|[t ->]]; repeat constructor; done.
Qed.

Lemma rounds_transcript left call attempt st st' log :
  chat_rounds relay sent left call attempt st = (st', log) ->
  settled sent st ->
  settled sent st' /\ Forall (replied sent) log
  /\ assistantMessages st' = assistantMessages st
  /\ isAssistantLoading st' = isAssistantLoading st.
Proof.
  revert left call attempt st st' log.
  apply (chat_rounds_cases
    (fun left call attempt st st' log =>
       settled sent st ->
       settled sent st' /\ Forall (replied sent) log
       /\ assistantMessages st' = assistantMessages st
       /\ isAssistantLoading st' = isAssistantLoading st)).
  - auto.
  - auto.
  - intros left call attempt st error st1 es st' es' _ _ Hfr _ IH Hst.
    destruct (failed_round_settled _ _ _ _ _ Hfr Hst) as [Hst1 Hes].
    destruct (failed_round_io _ _ _ _ _ Hfr) as (_ & _ & _ & Ham & Hal).
    destruct (IH Hst1) as (Hst' & Hes' & -> & ->).
    repeat split; auto.
    constructor; [done|]. apply Forall_app. split; [done|].
    apply Forall_app. split; [|done]. repeat constructor; done.
  - intros left call attempt st error st1 es _ _ Hfr Hst.
    destruct (failed_round_settled _ _ _ _ _ Hfr Hst) as [Hst1 Hes].
    destruct (failed_round_io _ _ _ _ _ Hfr) as (_ & _ & _ & Ham & Hal).
    repeat split; auto.
    constructor; [done|]. apply Forall_app. split; [done|].
    repeat constructor; done.
  - intros left call attempt st resp st' es' _ _ _ _ _ IH Hst.
    destruct (IH Hst) as (Hst' & Hes' & -> & ->).
    repeat split; auto. repeat (constructor; [done|]). done.
  - intros left call attempt st resp _ _ _ _ Hst.
    repeat split; auto. repeat constructor; done.
  - intros left call attempt st resp _ _ _ Hst.
    repeat split; auto. repeat constructor; done.
  - intros left call attempt st resp stream d st1 es _ _ _ _ _ _ Hdec Hst.
    apply decode_updates in Hdec.
    destruct (updates_settled _ _ _ Hdec Hst) as [Hst1 Hes].
    destruct (updates_frame _ _ _ _ Hdec) as (_ & Hal & Hother).
    specialize (Hother Auxiliary ltac:(done)). cbn in Hother.
    repeat split; auto.
    constructor; [done|]. apply Forall_app. split.
    { destruct (economy_cases resp) as [-> | ->]; repeat constructor; done. }
    apply Forall_app. split; [done|]. repeat constructor; done.
Qed.

Lemma rounds_no_retry left call attempt st st' log :
  chat_rounds relay sent left call attempt st = (st', log) ->
  forall pre q r post,
    log = (pre ++ Fetch q (inr r) :: post)%list ->
    (status r = 402 -> post = out_of_credits)
    /\ (status r <> 429 -> status r <> 402 -> ok r = true ->
        forall stream, body r = Some stream -> failure stream = None ->
        exists es st0 st1,
          post = (economy r ++ es ++ [SetLoading Primary false])%list
          /\ updates Primary st0 es st1).
Proof.
  revert left call attempt st st' log.
  apply (chat_rounds_cases
    (fun left call attempt st st' log =>
       forall pre q r post,
         log = (pre ++ Fetch q (inr r) :: post)%list ->
         (status r = 402 -> post = out_of_credits)
         /\ (status r <> 429 -> status r <> 402 -> ok r = true ->
             forall stream, body r = Some stream -> failure stream = None ->
             exists es st0 st1,
               post = (economy r ++ es ++ [SetLoading Primary false])%list
               /\ updates Primary st0 es st1))).
  - intros call attempt st pre q r post H. by destruct pre.
  - intros left call attempt st _ pre q r post H. by destruct pre.
  - intros left call attempt st error st1 es st' es' _ _ Hfr _ IH pre q r post H.
    apply fetch_head in H as [(-> & -> & Ha & ->)|(pre' & -> & H)].
    + rewrite <- Ha in Hfr.
      destruct (failed_round_answer _ _ _ _ _ Hfr) as (H9 & H2 & Hread).
      split; [done|]. intros _ _ Hok stream Hbody Hnone.
      by destruct (Hread stream).
    + destruct (failed_round_io _ _ _ _ _ Hfr) as (Hf & _).
      apply fetch_skip in H as (pre1 & -> & H); [|done].
      apply fetch_skip in H as (pre2 & -> & H); [|done].
      exact (IH pre2 q r post H).
  - intros left call attempt st error st1 es _ _ Hfr pre q r post H.
    apply fetch_head in H as [(-> & -> & Ha & ->)|(pre' & -> & H)].
    + rewrite <- Ha in Hfr.
      destruct (failed_round_answer _ _ _ _ _ Hfr) as (H9 & H2 & Hread).
      split; [done|]. intros _ _ Hok stream Hbody Hnone.
      by destruct (Hread stream).
    + destruct (failed_round_io _ _ _ _ _ Hfr) as (Hf & _).
      apply fetch_absent in H; [done|]. by rewrite fetches_app, Hf.
  - intros left call attempt st resp st' es' _ _ Hr H9 _ IH pre q r post H.
    apply fetch_head in H as [(-> & -> & [= ->] & ->)|(pre' & -> & H)].
    + split; intros; lia.
    + apply (fetch_skip [_; _]) in H as (pre1 & -> & H); [|done].
      exact (IH pre1 q r post H).
  - intros left call attempt st resp _ _ Hr H9 pre q r post H.
    apply fetch_head in H as [(-> & -> & [= ->] & ->)|(pre' & -> & H)].
    + split; intros; lia.
    + by apply fetch_absent in H.
  - intros left call attempt st resp _ Hr H2 pre q r post H.
    apply fetch_head in H as [(-> & -> & [= ->] & ->)|(pre' & -> & H)].
    + split; [done|]. intros; lia.
    + by apply fetch_absent in H.
  - intros left call attempt st resp stream d st1 es _ Hr H9 H2 Hok Hbody Hdec
      pre q r post H.
    apply decode_updates in Hdec.
    apply fetch_head in H as [(-> & -> & [= ->] & ->)|(pre' & -> & H)].
    + split; [done|]. intros _ _ _ stream' _ _. by exists es, st, st1.
    + apply fetch_absent in H; [done|].
      destruct (updates_io _ _ _ _ Hdec) as [Hf _].
      rewrite !fetches_app, Hf. by destruct (economy_cases resp) as [-> | ->].
Qed.

End Rounds.

(** The user's message closes the transcript that is sent with an open
    turn. *)
Lemma asked_open_turn (prev : list Message) (userMessage : string) :
  open_turn (prev ++ [{| role := user; content := userMessage |}]).
Proof. intros m. rewrite last_snoc. by intros [= <-]. Qed.

Lemma streamChat_rounds relay userMessage st :
  let sent := (messages st ++ [{| role := user; content := userMessage |}])%list in
  let asked := {| messages := sent; isLoading := true;
                  assistantMessages := assistantMessages st;
                  isAssistantLoading := isAssistantLoading st |} in
  streamChat relay userMessage st
  = (fst (chat_rounds relay sent 3 0 0 asked),
     SetTranscript Primary sent :: SetLoading Primary true
       :: snd (chat_rounds relay sent 3 0 0 asked)).
Proof.
  intros sent asked. unfold streamChat.
  unfold setTranscript at 1, setLoading at 1.
  cbn [transcript messages isLoading assistantMessages isAssistantLoading].
  change (Z.to_nat maxRetries) with 3%nat. fold sent. fold asked.
  by destruct (chat_rounds relay sent 3 0 0 asked).
Qed.

(** X9.  Whatever the relay answers, a call of [streamChat] ends with
    the loading flag cleared, and clearing it is the last thing it does.
    It fetches at most three times, and every fetch sends the same message
    list: the transcript with the message of the user.  Every sleep is
    followed at once by a fetch, and every fetch but the first comes
    directly after a sleep: so it sleeps exactly once between two fetches
    and never after the last.  The delay before the retry after attempt
    [n] is [700 * n] or [500 * n]. *)
Theorem streamChat_budget relay userMessage st :
  let sent := (messages st ++ [{| role := user; content := userMessage |}])%list in
  let final := fst (streamChat relay userMessage st) in
  let log := snd (streamChat relay userMessage st) in
  isLoading final = false
  /\ last log = Some (SetLoading Primary false)
  /\ (List.length (fetches log) <= 3)%nat
  /\ List.length (fetches log) = S (List.length (sleeps log))
  /\ Forall (fun f => fst f = sent) (fetches log)
  /\ backoffs 0 (sleeps log)
  /\ (forall pre d post,
        log = (pre ++ Sleep d :: post)%list ->
        exists a post', post = Fetch sent a :: post')
  /\ (forall pre s a post,
        log = (pre ++ Fetch s a :: post)%list ->
        fetches pre = [] \/ exists pre' d, pre = (pre' ++ [Sleep d])%list).
Proof.
  intros sent final log. subst final log. rewrite streamChat_rounds. fold sent.
  cbn [fst snd fetches sleeps].
  destruct (chat_rounds _ _ _ _ _ _) as [st' es] eqn:Hrun.
  destruct (rounds_paced _ _ _ _ _ _ _ _ Hrun) as [Hnext Hprev]; [done|done|].
  apply rounds_budget in Hrun; [|done|done].
  destruct Hrun as (Hl & Hlast & Hlen & Hle & Hall & Hb).
  cbn [fst snd]. repeat split; auto.
  - by apply (last_after [_; _]).
  - unfold maxRetries in Hle. lia.
  - intros pre d post H.
    apply (sleep_skip [_; _]) in H as (pre' & -> & H); [|done].
    exact (Hnext pre' d post H).
  - intros pre s a post H.
    apply (fetch_skip [_; _]) in H as (pre' & -> & H); [|done].
    destruct (Hprev pre' s a post H) as [->|(pre'' & d & ->)]; [by left|].
    right. by eexists (_ :: _ :: pre''), d.
Qed.

(** X10.  Whatever the relay answers, the transcript that [streamChat]
    leaves is the message list it sent, or that list and one assistant
    entry: a reply that a failed attempt left unfinished is overwritten
    by the next attempt, not followed by a second entry.  Every value the
    transcript is set to on the way has one of these two shapes, and the
    auxiliary conversation is not touched. *)
Theorem streamChat_transcript relay userMessage st :
  let sent := (messages st ++ [{| role := user; content := userMessage |}])%list in
  let final := fst (streamChat relay userMessage st) in
  let log := snd (streamChat relay userMessage st) in
  (messages final = sent \/ one_reply sent (messages final))
  /\ assistantMessages final = assistantMessages st
  /\ isAssistantLoading final = isAssistantLoading st
  /\ Forall primary_only log
  /\ (forall t, In (SetTranscript Primary t) log ->
        t = sent \/ one_reply sent t).
Proof.
  intros sent final log. subst final log. rewrite streamChat_rounds. fold sent.
  destruct (chat_rounds _ _ _ _ _ _) as [st' es] eqn:Hrun.
  apply rounds_transcript in Hrun.
  2:{ left. split; [done|apply asked_open_turn]. }
  destruct Hrun as (Hst & Hall & Ham & Hal). cbn [fst snd].
  repeat split; auto.
  - destruct Hst as [[? _]|?]; auto.
  - repeat (constructor; [done|]).
    eapply Forall_impl; [exact Hall|]. by intros e [? _].
  - intros t [[= <-]|[[=]|Hin]]; [by left|]. right.
    rewrite Forall_forall in Hall. apply list_elem_of_In in Hin.
    by apply (Hall _ Hin).
Qed.

(** Every run of [streamAssistantChat] has one shape: the two state
    updates, the fetch, the updates of the decode loop if it is reached,
    notices, and the loading flag cleared. *)
Lemma streamAssistantChat_shape relay activeTabUrl userMessage st :
  let shown :=
    (assistantMessages st ++ [{| role := user; content := userMessage |}])%list in
  let sent :=
    {| role := system; content := systemPrompt activeTabUrl |} :: shown in
  let asked := {| messages := messages st; isLoading := isLoading st;
                  assistantMessages := shown; isAssistantLoading := true |} in
  exists st1 es mid,
    updates Auxiliary asked es st1
    /\ Forall notice mid
    /\ streamAssistantChat relay activeTabUrl userMessage st
       = (fst (setLoading Auxiliary false st1),
          SetTranscript Auxiliary shown :: SetLoading Auxiliary true
            :: Fetch sent (relay 0%nat sent)
            :: es ++ mid ++ [SetLoading Auxiliary false])%list.
Proof.
  intros shown sent asked. unfold streamAssistantChat.
  unfold setTranscript at 1, setLoading at 1.
  cbn [messages isLoading assistantMessages isAssistantLoading transcript].
  fold shown. fold sent. fold asked.
  pose (failed error :=
    [ConsoleError "Assistant chat error:" None error;
     Toast {| title := "Error"; description := "Failed to send message.";
              destructive := true |}]).
  assert (Hfailed : forall error, Forall notice (failed error)).
  { intros error. by repeat constructor. }
  destruct (relay 0%nat sent) as [e|resp] eqn:Hrelay.
  { exists asked, [], (failed e). split; [constructor|]. by split. }
  destruct (status resp =? 429).
  { exists asked, [],
      [Toast {| title := "Rate limited"; description := "Please try again later.";
                destructive := true |}].
    split; [constructor|]. split; [by repeat constructor|done]. }
  destruct (status resp =? 402).
  { exists asked, [],
      [Toast {| title := "Out of credits"; description := "Please add credits.";
                destructive := true |}].
    split; [constructor|]. split; [by repeat constructor|done]. }
  destruct (if ok resp then body resp else None) as [stream|].
  2:{ exists asked, [], (failed (Error "Failed to start stream")).
      split; [constructor|]. by split. }
  destruct (decode_stream _ _ _) as [[[d st1] e] es] eqn:Hdecode.
  apply decode_updates in Hdecode. destruct e as [error|].
  - exists st1, es, (failed error). split; [done|]. by split.
  - exists st1, es, []. split; [done|]. split; [constructor|done].
Qed.

(** X13.  Whatever the relay answers, a call of [streamAssistantChat]
    ends with its loading flag cleared, as the last thing it does.  The
    transcript it leaves is the one shown when it began, that is the old
    transcript and the message of the user, or that and one assistant
    entry; the primary conversation is not touched.  It fetches once,
    sending the system prompt for the active tab and then the transcript
    shown.  The system prompt is sent but never stored: a transcript
    without a system entry stays without one. *)
Theorem streamAssistantChat_settles relay activeTabUrl userMessage st :
  let shown :=
    (assistantMessages st ++ [{| role := user; content := userMessage |}])%list in
  let final := fst (streamAssistantChat relay activeTabUrl userMessage st) in
  let log := snd (streamAssistantChat relay activeTabUrl userMessage st) in
  isAssistantLoading final = false
  /\ last log = Some (SetLoading Auxiliary false)
  /\ (assistantMessages final = shown \/ one_reply shown (assistantMessages final))
  /\ messages final = messages st
  /\ isLoading final = isLoading st
  /\ Forall auxiliary_only log
  /\ (forall t, In (SetTranscript Auxiliary t) log ->
        t = shown \/ one_reply shown t)
  /\ (Forall (fun m => role m <> system) (assistantMessages st) ->
      Forall (fun m => role m <> system) (assistantMessages final))
  /\ (let sent :=
        {| role := system; content := systemPrompt activeTabUrl |} :: shown in
      fetches log = [(sent, relay 0%nat sent)]).
Proof.
  intros shown final log. subst final log.
  destruct (streamAssistantChat_shape relay activeTabUrl userMessage st)
    as (st1 & es & mid & Hup & Hmid & ->).
  fold shown in Hup |- *. cbn [fst snd].
  cbn [setLoading fst messages isLoading assistantMessages isAssistantLoading].
  destruct (updates_frame _ _ _ _ Hup) as (Hl & _ & Hother).
  specialize (Hother Primary ltac:(done)). cbn in Hother, Hl.
  destruct (updates_replies _ _ _ _ shown Hup) as [Hall Hend].
  { left. split; [done|apply asked_open_turn]. }
  cbn [transcript assistantMessages] in Hend.
  assert (Hnotice : Forall auxiliary_only mid).
  { eapply Forall_impl; [exact Hmid|]. by intros []. }
  repeat split; auto.
  - rewrite !app_assoc. apply (last_after [_; _; _]), last_snoc.
  - repeat (constructor; [done|]). apply Forall_app. split.
    { eapply Forall_impl; [exact Hall|]. by intros e [acc ->]. }
    apply Forall_app. split; [done|]. by repeat constructor.
  - intros t [[= <-]|[[=]|[[=]|Hin]]]; [by left|]. right.
    apply in_app_or in Hin as [Hin|Hin].
    + rewrite Forall_forall in Hall. apply list_elem_of_In in Hin.
      destruct (Hall _ Hin) as [acc [= ->]]. by exists acc.
    + apply in_app_or in Hin as [Hin|[[=]|[]]].
      rewrite Forall_forall in Hmid. apply list_elem_of_In in Hin.
      destruct (Hmid _ Hin).
  - intros Hsys.
    assert (Hshown : Forall (fun m => role m <> system) shown).
    { apply Forall_app. split; [done|]. by repeat constructor. }
    destruct Hend as [-> | [acc ->]]; [done|].
    apply Forall_app. split; [done|]. by repeat constructor.
  - cbn [fetches]. rewrite !fetches_app. cbn [fetches].
    destruct (updates_io _ _ _ _ Hup) as [-> _]. cbn [app]. f_equal.
    rewrite app_nil_r. clear -Hmid.
    induction Hmid as [|[] mid Hn _ IH]; by cbn.
Qed.

(** X11.  An answer with status 402 ends [streamChat] at once, at
    whatever attempt it comes: only the toast and the clearing of the
    loading flag follow it.  So does an answer that is OK and whose body
    is read to its end without a rejected read: what follows it ends with
    the clearing of the flag and holds no fetch, no sleep and no console
    error. *)
Theorem streamChat_no_retry relay userMessage st pre q r post :
  snd (streamChat relay userMessage st)
  = (pre ++ Fetch q (inr r) :: post)%list ->
  (status r = 402 ->
   post = [Toast {| title := "Out of credits";
                    description := "Please add credits to your Lovable AI workspace.";
                    destructive := true |};
           SetLoading Primary false])
  /\ (status r <> 429 -> status r <> 402 -> ok r = true ->
      forall stream, body r = Some stream -> failure stream = None ->
      fetches post = [] /\ sleeps post = []
      /\ last post = Some (SetLoading Primary false)
      /\ forall label attempt e, ~ In (ConsoleError label attempt e) post).
Proof.
  rewrite streamChat_rounds. cbn [snd]. intros H.
  destruct (chat_rounds _ _ _ _ _ _) as [st' es] eqn:Hrun. cbn [snd] in H.
  apply (fetch_skip [_; _]) in H as (pre' & -> & H); [|done].
  destruct (rounds_no_retry _ _ _ _ _ _ _ _ Hrun _ _ _ _ H) as [H402 Hread].
  split; [exact H402|].
  intros H9 H2 Hok stream Hbody Hnone.
  destruct (Hread H9 H2 Hok stream Hbody Hnone) as (es' & st0 & st1 & -> & Hup).
  destruct (updates_io _ _ _ _ Hup) as [Hf Hs].
  rewrite !fetches_app, !sleeps_app, Hf, Hs.
  repeat split.
  - by destruct (economy_cases r) as [-> | ->].
  - by destruct (economy_cases r) as [-> | ->].
  - rewrite app_assoc. apply last_snoc.
  - intros label attempt e Hin.
    apply in_app_or in Hin as [Hin|Hin].
    { by destruct (economy_cases r) as [Hec | Hec]; rewrite Hec in Hin;
        [|destruct Hin]. }
    apply in_app_or in Hin as [Hin|[[=]|[]]].
    clear -Hup Hin. induction Hup as [|st acc es st' _ IH]; [done|].
    by destruct Hin.
Qed.

(** X11, witness: the relay answers 402 at once. *)
Lemma streamChat_no_retry_witness :
  let relay : Relay := fun _ _ => inr Cases.OfClient.unpaid in
  let sent := [{| role := user; content := "hi" |}] in
  let log := snd (streamChat relay "hi" Samples.OfClient.fresh) in
  log = ([SetTranscript Primary sent; SetLoading Primary true]
           ++ Fetch sent (inr Cases.OfClient.unpaid) :: skipn 3 log)%list
  /\ skipn 3 log
     = [Toast {| title := "Out of credits";
                 description := "Please add credits to your Lovable AI workspace.";
                 destructive := true |};
        SetLoading Primary false].
Proof.
  intros relay sent log.
  assert (H : log = ([SetTranscript Primary sent; SetLoading Primary true]
                       ++ Fetch sent (inr Cases.OfClient.unpaid)
                       :: skipn 3 log)%list) by reflexivity.
  split; [exact H|].
  exact (proj1 (streamChat_no_retry relay "hi" Samples.OfClient.fresh
                  _ _ _ _ H) eq_refl).
Defined.

(** One round of [streamChat] that throws before it reads a body. *)
Lemma chat_rounds_start_failure relay sent left call attempt st error :
  start_failure (relay call sent) = Some error -> attempt < maxRetries ->
  chat_rounds relay sent (S left) call attempt st
  = if attempt + 1 <? maxRetries then
      (fst (chat_rounds relay sent left (S call) (attempt + 1) st),
       Fetch sent (relay call sent)
         :: ConsoleError "Chat error attempt" (Some (attempt + 1)) error
         :: Sleep (500 * (attempt + 1))
         :: snd (chat_rounds relay sent left (S call) (attempt + 1) st))
    else
      (fst (setLoading Primary false st),
       [Fetch sent (relay call sent);
        ConsoleError "Chat error attempt" (Some (attempt + 1)) error;
        Toast {| title := "Error";
                 description := "Failed to send message. Please try again.";
                 destructive := true |};
        SetLoading Primary false]).
Proof.
  intros Hfail Ha. cbn [chat_rounds]. apply Z.ltb_lt in Ha. rewrite Ha.
  cbn [negb]. unfold start_failure in Hfail. unfold chat_catch.
  assert (Hge : (attempt + 1 >=? maxRetries) = negb (attempt + 1 <? maxRetries)).
  { destruct (Z.geb_spec (attempt + 1) maxRetries),
      (Z.ltb_spec (attempt + 1) maxRetries); try done; lia. }
  rewrite Hge.
  destruct (relay call sent) as [e|resp].
  { injection Hfail as ->.
    destruct (attempt + 1 <? maxRetries); cbn [negb]; [|done].
    by destruct (chat_rounds _ _ _ _ _ _). }
  destruct (status resp =? 429); [done|].
  destruct (status resp =? 402); [done|]. cbn [orb] in Hfail.
  destruct (if ok resp then body resp else None); [done|].
  injection Hfail as <-.
  destruct (attempt + 1 <? maxRetries); cbn [negb]; [|done].
  by destruct (chat_rounds _ _ _ _ _ _).
Qed.

(** X12.  When the first three fetches fail before a body is read (the
    fetch is rejected, or the response is neither 429 nor 402 and is not
    OK or has no body), [streamChat] makes exactly these three attempts,
    logs each exception with the number of its attempt, sleeps 500 and
    1000 ms in between, and ends with the error toast.  The transcript
    keeps the message of the user. *)
Theorem streamChat_start_failures relay userMessage st (thrown_ : nat -> thrown) :
  let sent := (messages st ++ [{| role := user; content := userMessage |}])%list in
  (forall n, (n < 3)%nat -> start_failure (relay n sent) = Some (thrown_ n)) ->
  streamChat relay userMessage st
  = ({| messages := sent; isLoading := false;
        assistantMessages := assistantMessages st;
        isAssistantLoading := isAssistantLoading st |},
     [SetTranscript Primary sent;
      SetLoading Primary true;
      Fetch sent (relay 0%nat sent);
      ConsoleError "Chat error attempt" (Some 1) (thrown_ 0%nat);
      Sleep 500;
      Fetch sent (relay 1%nat sent);
      ConsoleError "Chat error attempt" (Some 2) (thrown_ 1%nat);
      Sleep 1000;
      Fetch sent (relay 2%nat sent);
      ConsoleError "Chat error attempt" (Some 3) (thrown_ 2%nat);
      Toast {| title := "Error";
               description := "Failed to send message. Please try again.";
               destructive := true |};
      SetLoading Primary false]).
Proof.
  intros sent Hfail. rewrite streamChat_rounds. fold sent.
  rewrite (chat_rounds_start_failure _ _ _ _ _ _ _ (Hfail 0%nat ltac:(lia)))
    by done.
  rewrite (chat_rounds_start_failure _ _ _ _ _ _ _ (Hfail 1%nat ltac:(lia)))
    by done.
  rewrite (chat_rounds_start_failure _ _ _ _ _ _ _ (Hfail 2%nat ltac:(lia)))
    by done.
  reflexivity.
Qed.

(** X12, witness: the relay answers 500 every time. *)
Lemma streamChat_start_failures_witness :
  let relay : Relay := fun _ _ => inr Cases.OfClient.broken in
  let run := streamChat relay "hi" Samples.OfClient.fresh in
  messages (fst run) = [{| role := user; content := "hi" |}]
  /\ isLoading (fst run) = false
  /\ List.length (fetches (snd run)) = 3%nat
  /\ sleeps (snd run) = [500; 1000].
Proof.
  intros relay run. subst run.
  rewrite (streamChat_start_failures relay "hi" Samples.OfClient.fresh
             (fun _ => Error "Failed to start stream")).
  - by repeat split.
  - intros n _. reflexivity.
Defined.

End ClientMore.

(** ** The decode loop on a stream of deltas *)

Module DecoderMore.
Import JS Client Rounds Wire ClientProofs JsonMore.

Lemma append_assoc (a b c : string) : (a ++ b) ++ c = a ++ b ++ c.
Proof. induction a as [|x a IH]; simpl; congruence. Qed.

Lemma append_nil_r (a : string) : a ++ "" = a.
Proof. induction a as [|x a IH]; simpl; congruence. Qed.

Lemma length_append (a b : string) :
  String.length (a ++ b) = (String.length a + String.length b)%nat.
Proof. induction a as [|x a IH]; simpl; congruence. Qed.

Lemma substring_app_l (a b : string) :
  String.substring 0 (String.length a) (a ++ b) = a.
Proof. induction a as [|x a IH]; simpl; [by destruct b|congruence]. Qed.

Lemma substring_all (s : string) (m : nat) :
  (String.length s <= m)%nat -> String.substring 0 m s = s.
Proof.
  revert m. induction s as [|x s IH]; intros [|m] H; simpl in *;
    try done; try lia.
  rewrite IH; [done|lia].
Qed.

Lemma substring_app_r (a b : string) (m : nat) :
  String.substring (String.length a) m (a ++ b) = String.substring 0 m b.
Proof. induction a as [|x a IH]; simpl; [done|]. by rewrite IH. Qed.

(** Searching for the line feed, one character at a time. *)
Lemma index_LF_cons (x : ascii) (s : string) :
  String.index 0 LF (String x s)
  = if ascii_dec (ascii_of_N 10) x then Some 0%nat
    else match String.index 0 LF s with
         | Some n => Some (S n)
         | None => None
         end.
Proof.
  cbn [String.index]. unfold LF at 1.
  replace (String.prefix (String (ascii_of_N 10) "") (String x s))
    with (if ascii_dec (ascii_of_N 10) x then true else false).
  { by destruct (ascii_dec _ _). }
  symmetry. destruct (ascii_dec (ascii_of_N 10) x) as [<-|Hx].
  - apply prefix_correct. simpl. by destruct s.
  - destruct (String.prefix _ _) eqn:Hp; [|done].
    apply prefix_correct in Hp. simpl in Hp. injection Hp as Hp _.
    contradict Hx. exact (eq_sym Hp).
Qed.

Lemma indexOf_LF_cons (x : ascii) (s : string) :
  indexOf LF (String x s) = -1 <->
  ascii_of_N 10 <> x /\ indexOf LF s = -1.
Proof.
  unfold indexOf. rewrite index_LF_cons.
  destruct (ascii_dec _ _), (String.index 0 LF s); split;
    try done; try lia; intros [? ?]; try done; lia.
Qed.

(** The first line feed of a text that begins with a line. *)
Lemma indexOf_line (line rest : string) :
  indexOf LF line = -1 ->
  indexOf LF (line ++ LF ++ rest) = length line.
Proof.
  unfold length. induction line as [|x line IH]; intros H.
  - unfold indexOf. change ("" ++ LF ++ rest) with (String (ascii_of_N 10) rest).
    by rewrite index_LF_cons.
  - apply indexOf_LF_cons in H as [Hx H]. specialize (IH H). revert IH.
    unfold indexOf.
    change (String x line ++ LF ++ rest) with (String x (line ++ LF ++ rest)).
    rewrite index_LF_cons. destruct (ascii_dec _ _); [done|].
    destruct (String.index 0 LF (line ++ LF ++ rest)); simpl String.length; lia.
Qed.

Lemma indexOf_none_app (a b : string) :
  indexOf LF a = -1 -> indexOf LF b = -1 -> indexOf LF (a ++ b) = -1.
Proof.
  induction a as [|x a IH]; intros Ha Hb; [done|].
  apply indexOf_LF_cons in Ha as [Hx Ha]. simpl append.
  apply indexOf_LF_cons. auto.
Qed.

Lemma slice_line (line rest : string) :
  slice (line ++ LF ++ rest) 0 (Some (length line)) = line.
Proof.
  unfold slice, relative, length. rewrite !length_append.
  change (0 <? 0) with false. cbn iota.
  destruct (Z.ltb_spec (Z.of_nat (String.length line)) 0) as [?|_]; [lia|].
  rewrite Z.min_l by lia. rewrite Z.min_l by lia.
  replace (Z.to_nat (Z.max (Z.of_nat (String.length line) - 0) 0))
    with (String.length line) by lia.
  apply substring_app_l.
Qed.

Lemma slice_rest (line rest : string) :
  slice (line ++ LF ++ rest) (length line + 1) None = rest.
Proof.
  unfold slice, relative, length. rewrite !length_append.
  destruct (Z.ltb_spec (Z.of_nat (String.length line) + 1) 0) as [?|_]; [lia|].
  change (String.length LF) with 1%nat.
  rewrite Z.min_l by lia.
  replace (Z.to_nat (Z.of_nat (String.length line) + 1))
    with (String.length (line ++ LF)) by (rewrite length_append; simpl; lia).
  rewrite <- append_assoc, substring_app_r.
  apply substring_all. lia.
Qed.

(** *** White space *)

Ltac blank_units :=
  repeat case_match; subst; cbn [take List.length];
  (split; [lia|]);
  repeat (apply Forall_cons_2 || apply Forall_nil_2);
  unfold blank; try lia;
  match goal with
  | H : (_ || _)%bool = true |- _ =>
      rewrite ?orb_true_iff, ?andb_true_iff, ?N.leb_le, ?N.eqb_eq in H; lia
  end.

(** What [ws_head] and [ws_last] count lies in the list and is made of
    white space bytes. *)
Lemma ws_head_units (l : list N) :
  (ws_head l <= List.length l)%nat /\ Forall blank (take (ws_head l) l).
Proof. destruct l as [|a [|b [|c l]]]; unfold ws_head; blank_units. Qed.

Lemma ws_last_units (l : list N) :
  (ws_last l <= List.length l)%nat /\ Forall blank (take (ws_last l) l).
Proof. destruct l as [|a [|b [|c l]]]; unfold ws_last; blank_units. Qed.

Lemma strip_drop (head : list N -> nat) :
  (forall l, (head l <= List.length l)%nat /\ Forall blank (take (head l) l)) ->
  forall fuel l, exists k, strip head fuel l = drop k l /\ Forall blank (take k l).
Proof.
  intros Hhead. induction fuel as [|fuel IH]; intros l.
  { exists 0%nat. split; [done|constructor]. }
  cbn [strip]. destruct (head l) as [|n] eqn:Hh.
  { exists 0%nat. split; [done|constructor]. }
  destruct (IH (drop (S n) l)) as (k & Hk & Hall).
  exists (S n + k)%nat. split; [by rewrite Hk, drop_drop|].
  rewrite <- take_take_drop. apply Forall_app. split; [|done].
  rewrite <- Hh. apply Hhead.
Qed.

(** Stripping a list that begins with a byte that is no white space
    leaves it as it is. *)
Lemma strip_plain (head : list N -> nat) fuel x l :
  (forall l, (head l <= List.length l)%nat /\ Forall blank (take (head l) l)) ->
  ~ blank x -> strip head fuel (x :: l) = x :: l.
Proof.
  intros Hhead Hx. destruct (strip_drop head Hhead fuel (x :: l)) as ([|k] & -> & Hk).
  - done.
  - cbn [take] in Hk. by apply Forall_cons_1 in Hk as [? _].
Qed.

Lemma trimStart_plain x l : ~ blank x -> trimStart (x :: l) = x :: l.
Proof. intros Hx. by apply strip_plain; [apply ws_head_units|]. Qed.

Lemma trimEnd_plain l y : ~ blank y -> trimEnd (l ++ [y]) = (l ++ [y])%list.
Proof.
  intros Hy. unfold trimEnd. rewrite rev_app_distr. cbn [rev app].
  rewrite strip_plain; [|apply ws_last_units|done].
  change (y :: rev l) with (rev [y] ++ rev l)%list.
  by rewrite <- rev_app_distr, rev_involutive.
Qed.

(** A text that begins and ends with bytes that are no white space is
    its own trimmed form. *)
Lemma trim_plain (s : string) x l y :
  codes s = x :: l -> last (codes s) = Some y ->
  ~ blank x -> ~ blank y -> trim s = s.
Proof.
  intros Hs Hlast Hx Hy. unfold trim. rewrite Hs, (trimStart_plain _ _ Hx).
  rewrite <- Hs.
  destruct (last_Some (codes s) y) as [[m Hm] _]; [done|].
  by rewrite Hm, (trimEnd_plain _ _ Hy), <- Hm, of_codes_codes.
Qed.

(** A text that begins with a byte that is no white space does not trim
    to the empty text. *)
Lemma trim_nonempty (s : string) x l :
  codes s = x :: l -> ~ blank x -> trim s <> "".
Proof.
  intros Hs Hx. unfold trim. rewrite Hs, (trimStart_plain _ _ Hx).
  unfold trimEnd.
  destruct (strip_drop ws_last ws_last_units (List.length (x :: l))
              (rev (x :: l))) as (k & -> & Hk).
  destruct (decide (k < List.length (rev (x :: l)))%nat) as [Hlt|Hge].
  - intros Hnil. apply (f_equal String.length) in Hnil.
    assert (Hlen : forall m, String.length (of_codes m) = List.length m).
    { induction m; simpl; congruence. }
    rewrite Hlen, length_rev, length_drop in Hnil.
    change (String.length "") with 0%nat in Hnil. lia.
  - rewrite take_ge in Hk by lia. apply Forall_rev in Hk.
    rewrite rev_involutive in Hk. by apply Forall_cons_1 in Hk as [? _].
Qed.

Lemma endsWith_CR_last (a : string) (y : ascii) :
  endsWith (a ++ String y "") CR = Ascii.eqb y (ascii_of_N 13).
Proof.
  unfold endsWith, slice, relative, length. rewrite length_append.
  change (String.length (String y "")) with 1%nat.
  change (String.length CR) with 1%nat. change (Z.of_nat 1) with 1.
  destruct (Z.leb_spec 1 (Z.of_nat (String.length a + 1))) as [_|?]; [|lia].
  destruct (Z.ltb_spec (Z.of_nat (String.length a + 1) - 1) 0) as [?|_]; [lia|].
  rewrite Z.min_l by lia.
  replace (Z.to_nat (Z.of_nat (String.length a + 1) - 1))
    with (String.length a) by lia.
  rewrite substring_app_r.
  replace (Z.to_nat _) with 1%nat by lia.
  cbn. by destruct (Ascii.eqb y _).
Qed.

Lemma slice_after (a p : string) : slice (a ++ p) (length a) None = p.
Proof.
  unfold slice, relative, length. rewrite length_append.
  destruct (Z.ltb_spec (Z.of_nat (String.length a)) 0) as [?|_]; [lia|].
  rewrite Z.min_l by lia. rewrite Nat2Z.id, substring_app_r.
  apply substring_all. lia.
Qed.

Lemma startsWith_app (a p : string) : startsWith (a ++ p) a = true.
Proof. apply prefix_correct, substring_app_l. Qed.

(** *** The line of a delta *)

Lemma indexOf_codes (s : string) :
  Forall (fun n => n <> 10%N) (codes s) -> indexOf LF s = -1.
Proof.
  induction s as [|x s IH]; [done|]. cbn [codes]. intros [Hx Hs]%Forall_cons_1.
  apply indexOf_LF_cons. split; [|auto].
  intros <-. by apply Hx.
Qed.

Lemma hex_digit_printable (n : N) : (32 <= hex_digit n)%N.
Proof. unfold hex_digit. destruct (n <? 10)%N; lia. Qed.

Lemma quote_unit_printable (c : N) : Forall (fun n => (32 <= n)%N) (quote_unit c).
Proof.
  unfold quote_unit.
  do 7 (destruct (_ =? _)%N; [by repeat constructor|]).
  destruct (N.ltb_spec c 32); [|by repeat constructor].
  repeat constructor; try done; apply hex_digit_printable.
Qed.

Lemma quote_printable (s : string) : Forall (fun n => (32 <= n)%N) (codes (quote s)).
Proof.
  rewrite codes_quote. constructor; [done|]. apply Forall_app. split.
  - apply Forall_concat, Forall_map, Forall_true. intros c.
    apply quote_unit_printable.
  - by repeat constructor.
Qed.

Lemma delta_payload_printable (text : string) :
  Forall (fun n => (32 <= n)%N) (codes (delta_payload text)).
Proof.
  unfold delta_payload. rewrite !codes_append.
  repeat (apply Forall_app; split);
    [vm_compute; by repeat constructor|apply quote_printable
    |vm_compute; by repeat constructor].
Qed.

(** [JSON.parse] reads the payload of a delta line back, whatever bytes
    the content holds. *)
Lemma parse_delta_payload (text : string) :
  JSON_parse (delta_payload text)
  = Some (JObject
            [("choices",
              JArray [JObject [("delta",
                                JObject [("content", JString text)])]])]).
Proof.
  unfold JSON_parse, tokens, delta_payload. rewrite !codes_append.
  remember (codes (quote text) ++ codes delta_close)%list as tail eqn:Htail.
  let l := eval vm_compute in (codes delta_open) in
  change (codes delta_open) with l.
  cbn [app]. simpl scan_all. subst tail. rewrite scan_quote.
  reflexivity.
Qed.

Lemma delta_content_payload (text : string) :
  delta_content (delta_payload text) = Some (Some (JString text)).
Proof. unfold delta_content. by rewrite parse_delta_payload. Qed.

Lemma delta_payload_ends (text : string) :
  exists l,
    codes (delta_payload text) = 123%N :: l
    /\ last (codes (delta_payload text)) = Some 125%N.
Proof.
  unfold delta_payload. rewrite !codes_append.
  eexists. split; [reflexivity|].
  change (codes delta_close) with ([125; 125; 93] ++ [125])%N%list.
  by rewrite !app_assoc, last_snoc.
Qed.

Lemma trim_delta_payload (text : string) :
  trim (delta_payload text) = delta_payload text.
Proof.
  destruct (delta_payload_ends text) as (l & Hl & Hlast).
  eapply trim_plain; eauto; unfold blank; lia.
Qed.

Lemma indexOf_delta_line (text : string) : indexOf LF (delta_line text) = -1.
Proof.
  apply indexOf_codes. unfold delta_line. rewrite codes_append.
  apply Forall_app. split; [vm_compute; by repeat constructor|].
  eapply Forall_impl; [apply delta_payload_printable|]. intros n Hn. simpl in Hn. lia.
Qed.

Lemma delta_line_last (text : string) :
  delta_line text
  = ("data: " ++ delta_open ++ quote text ++ "}}]") ++ String "}" "".
Proof. unfold delta_line, delta_payload. by rewrite !append_assoc. Qed.

(** One round of the inner loop on the line of a delta. *)
Lemma lines_delta fuel c text rest done acc st :
  lines (S fuel) c
    {| textBuffer := delta_line text ++ LF ++ rest; streamDone := done;
       assistantContent := acc |} st
  = if String.eqb text "" then
      lines fuel c {| textBuffer := rest; streamDone := done;
                      assistantContent := acc |} st
    else
      let '(d, st', es) :=
        lines fuel c {| textBuffer := rest; streamDone := done;
                        assistantContent := acc ++ text |}
              (fst (setTranscript c (fold_delta (acc ++ text)) st)) in
      (d, st', SetTranscript c (fold_delta (acc ++ text) (transcript c st)) :: es).
Proof.
  cbn [lines textBuffer streamDone assistantContent].
  rewrite (indexOf_line _ _ (indexOf_delta_line text)).
  rewrite slice_line, slice_rest.
  destruct (Z.eqb_spec (length (delta_line text)) (-1)) as [Hneg|_].
  { unfold length in Hneg. lia. }
  assert (endsWith (delta_line text) CR = false) as ->.
  { by rewrite delta_line_last, endsWith_CR_last. }
  change (startsWith (delta_line text) ":") with false.
  assert (String.eqb (trim (delta_line text)) "" = false) as ->.
  { apply String.eqb_neq. eapply (trim_nonempty _ 100%N); [reflexivity|].
    unfold blank. lia. }
  cbn [orb]. change (delta_line text) with ("data: " ++ delta_payload text).
  rewrite startsWith_app. cbn [negb].
  change 6 with (length "data: "). rewrite slice_after, trim_delta_payload.
  change (String.eqb (delta_payload text) "[DONE]") with false. cbv iota.
  rewrite delta_content_payload. cbn [truthy to_string].
  destruct (String.eqb text ""); cbn [negb]; [done|].
  unfold setTranscript. cbn [fst].
  by destruct (lines fuel c _ _) as [[d' st'] es'].
Qed.

Lemma lines_blank fuel c rest done acc st :
  lines (S fuel) c
    {| textBuffer := LF ++ rest; streamDone := done; assistantContent := acc |} st
  = lines fuel c
      {| textBuffer := rest; streamDone := done; assistantContent := acc |} st.
Proof.
  cbn [lines textBuffer streamDone assistantContent].
  change (LF ++ rest) with ("" ++ LF ++ rest).
  rewrite (indexOf_line "" rest eq_refl).
  change (length "") with 0.
  change (0 + 1) with (length "" + 1). rewrite slice_rest.
  change (Some 0) with (Some (length "")). rewrite slice_line.
  reflexivity.
Qed.

Lemma lines_wait fuel c d st :
  indexOf LF (textBuffer d) = -1 -> lines fuel c d st = (d, st, []).
Proof. intros H. destruct fuel; [done|]. cbn [lines]. by rewrite H. Qed.

(** *** A stream cut into chunks *)

Lemma indexOf_render (e : event) : indexOf LF (render e) = -1.
Proof. destruct e; [apply indexOf_delta_line|done]. Qed.

Lemma line_split (L : string) :
  indexOf LF L = -1 ->
  forall X Y R,
    X ++ Y = L ++ LF ++ R -> indexOf LF X <> -1 ->
    exists X', X = L ++ LF ++ X' /\ X' ++ Y = R.
Proof.
  induction L as [|a L IH]; intros HL X Y R Heq HX.
  - destruct X as [|x X]; [done|]. injection Heq as -> Heq. by exists X.
  - apply indexOf_LF_cons in HL as [Ha HL].
    destruct X as [|x X]; [done|]. injection Heq as -> Heq.
    destruct (IH HL X Y R Heq) as (X' & -> & HR).
    + intros HX'. apply HX. apply indexOf_LF_cons. auto.
    + by exists X'.
Qed.

Lemma said_app (seen unseen : list event) :
  said (seen ++ unseen) = said seen ++ said unseen.
Proof.
  induction seen as [|[text|] seen IH]; cbn [said app]; [done| |done].
  by rewrite IH, append_assoc.
Qed.

Lemma replay_app c (seen unseen : list event) : forall acc st,
  replay c acc (seen ++ unseen) st
  = let '(st1, es1) := replay c acc seen st in
    let '(st2, es2) := replay c (acc ++ said seen) unseen st1 in
    (st2, (es1 ++ es2)%list).
Proof.
  induction seen as [|[text|] seen IH]; intros acc st; cbn [replay said app].
  - rewrite append_nil_r. by destruct (replay c acc unseen st).
  - destruct (String.eqb_spec text "") as [->|_].
    + by rewrite IH.
    + unfold setTranscript. rewrite IH, append_assoc.
      destruct (replay c (acc ++ text) seen _) as [st1 es1].
      by destruct (replay c _ unseen st1) as [st2 es2].
  - by rewrite IH.
Qed.

Lemma indexOf_none_prefix (X Y : string) :
  indexOf LF (X ++ Y) = -1 -> indexOf LF X = -1.
Proof.
  induction X as [|x X IH]; [done|]. cbn [append].
  intros [Hx H]%indexOf_LF_cons. apply indexOf_LF_cons. auto.
Qed.

(** The inner loop on a buffer that is the beginning of a stream: it
    takes the lines that are complete and leaves the rest. *)
Lemma lines_wire c done tail :
  indexOf LF tail = -1 ->
  forall events fuel X Y acc st,
  X ++ Y = wire events ++ tail ->
  (String.length X < fuel)%nat ->
  exists seen unseen P,
    events = (seen ++ unseen)%list
    /\ indexOf LF P = -1
    /\ P ++ Y = wire unseen ++ tail
    /\ lines fuel c
         {| textBuffer := X; streamDone := done; assistantContent := acc |} st
       = ({| textBuffer := P; streamDone := done;
             assistantContent := acc ++ said seen |},
          fst (replay c acc seen st), snd (replay c acc seen st)).
Proof.
  intros Htail.
  induction events as [|e events IH]; intros fuel X Y acc st Heq Hfuel.
  { exists [], [], X. cbn [said replay fst snd wire app] in *.
    assert (HX : indexOf LF X = -1).
    { apply (indexOf_none_prefix X Y). by rewrite Heq. }
    rewrite append_nil_r. repeat split; try done. by apply lines_wait. }
  destruct (Z.eq_dec (indexOf LF X) (-1)) as [HX|HX].
  { exists [], (e :: events), X. cbn [said replay fst snd].
    rewrite append_nil_r. repeat split; try done. by apply lines_wait. }
  cbn [wire] in Heq. rewrite !append_assoc in Heq.
  destruct (line_split _ (indexOf_render e) X Y _ Heq HX) as (X' & -> & HR).
  destruct fuel as [|fuel]; [lia|].
  rewrite !length_append in Hfuel. change (String.length LF) with 1%nat in Hfuel.
  destruct e as [text|]; cbn [render].
  - rewrite lines_delta. destruct (String.eqb_spec text "") as [->|Htext].
    + destruct (IH fuel X' Y acc st HR ltac:(lia))
        as (seen & unseen & P & -> & HP & HY & ->).
      exists (Delta "" :: seen), unseen, P. cbn [said replay app].
      repeat split; done.
    + destruct (IH fuel X' Y (acc ++ text)
                  (fst (setTranscript c (fold_delta (acc ++ text)) st)) HR
                  ltac:(lia))
        as (seen & unseen & P & -> & HP & HY & ->).
      exists (Delta text :: seen), unseen, P. cbn [said replay app].
      apply String.eqb_neq in Htext. rewrite Htext.
      unfold setTranscript at 3 4. cbn [fst snd].
      destruct (replay c (acc ++ text) seen _) as [st1 es1].
      rewrite append_assoc. repeat split; done.
  - change ("" ++ LF ++ X') with (LF ++ X'). rewrite lines_blank.
    destruct (IH fuel X' Y acc st HR ltac:(simpl in Hfuel; lia))
      as (seen & unseen & P & -> & HP & HY & ->).
    exists (Blank :: seen), unseen, P. cbn [said replay app].
    repeat split; done.
Qed.

Lemma wire_has_line (e : event) (events : list event) (tail : string) :
  indexOf LF (wire (e :: events) ++ tail) <> -1.
Proof.
  cbn [wire]. rewrite !append_assoc.
  rewrite (indexOf_line _ _ (indexOf_render e)). unfold length. lia.
Qed.

(** The outer loop on the chunks of a stream, from a buffer that holds
    the beginning of a line. *)
Lemma reads_wire c thrown_ tail :
  indexOf LF tail = -1 ->
  forall values events P acc st,
  indexOf LF P = -1 ->
  P ++ joined values = wire events ++ tail ->
  reads c values thrown_
    {| textBuffer := P; streamDone := false; assistantContent := acc |} st
  = ({| textBuffer := tail; streamDone := false;
        assistantContent := acc ++ said events |},
     fst (replay c acc events st), thrown_, snd (replay c acc events st)).
Proof.
  intros Htail.
  induction values as [|value values IH]; intros events P acc st HP Heq.
  - cbn [joined] in Heq. rewrite append_nil_r in Heq. subst P.
    destruct events as [|e events]; [|by destruct (wire_has_line e events tail HP)].
    cbn [reads streamDone said replay fst snd wire]. by rewrite append_nil_r.
  - cbn [reads streamDone textBuffer assistantContent joined] in *.
    unfold decode. rewrite <- append_assoc in Heq.
    destruct (lines_wire c false tail Htail events
                (S (String.length (P ++ value)))
                (P ++ value) (joined values) acc st Heq ltac:(lia))
      as (seen & unseen & P' & -> & HP' & HY & ->).
    rewrite (IH unseen P' (acc ++ said seen) _ HP' HY).
    rewrite replay_app, said_app, append_assoc.
    destruct (replay c acc seen st) as [st1 es1]. cbn [fst snd].
    by destruct (replay c (acc ++ said seen) unseen st1) as [st2 es2].
Qed.

Lemma fold_delta_twice (a b : string) (prev : list Message) :
  fold_delta b (fold_delta a prev) = fold_delta b prev.
Proof.
  assert (Hopen : open_turn prev ->
                  fold_delta b (fold_delta a prev) = fold_delta b prev).
  { intros Hopen. rewrite (fold_delta_append a prev Hopen), fold_delta_replace.
    symmetry. by apply fold_delta_append. }
  destruct (last prev) as [[r x]|] eqn:Hlast.
  - destruct r.
    1, 2: apply Hopen; intros m Hm; rewrite Hlast in Hm; by injection Hm as <-.
    apply last_Some in Hlast as [base ->]. by rewrite !fold_delta_replace.
  - apply Hopen. intros m Hm. congruence.
Qed.

Lemma append_eq_nil (a b : string) : a ++ b = "" -> a = "" /\ b = "".
Proof. by destruct a. Qed.

Lemma replay_silent c : forall events acc st,
  said events = "" -> replay c acc events st = (st, []).
Proof.
  induction events as [|[text|] events IH]; intros acc st H; cbn [said replay] in *.
  - done.
  - apply append_eq_nil in H as [-> H]. by apply IH.
  - by apply IH.
Qed.

(** What the stream says is what the transcript shows at the end. *)
Lemma replay_final c : forall events acc st,
  said events <> "" ->
  transcript c (fst (replay c acc events st))
  = fold_delta (acc ++ said events) (transcript c st).
Proof.
  induction events as [|[text|] events IH]; intros acc st H; cbn [said replay] in *.
  - done.
  - destruct (String.eqb_spec text "") as [->|Htext]; [by apply IH|].
    pose proof (transcript_set c (fold_delta (acc ++ text)) st) as Hset.
    destruct (setTranscript c _ st) as [st1 es1]. cbn [fst] in Hset.
    destruct (replay c (acc ++ text) events st1) as [st2 es2] eqn:Hrest.
    cbn [fst].
    destruct (string_dec (said events) "") as [Hnone|Hsome].
    + rewrite (replay_silent c events _ _ Hnone) in Hrest.
      injection Hrest as <- <-. by rewrite Hnone, append_nil_r.
    + pose proof (IH (acc ++ text) st1 Hsome) as Hfinal.
      rewrite Hrest in Hfinal. cbn [fst] in Hfinal.
      rewrite Hfinal, Hset, append_assoc. apply fold_delta_twice.
  - by apply IH.
Qed.

(** *** The sentinel *)

Lemma lines_done fuel c rest done acc st :
  lines (S fuel) c
    {| textBuffer := done_line ++ LF ++ rest; streamDone := done;
       assistantContent := acc |} st
  = ({| textBuffer := rest; streamDone := true; assistantContent := acc |},
     st, []).
Proof.
  cbn [lines textBuffer streamDone assistantContent].
  rewrite (indexOf_line done_line rest eq_refl).
  rewrite slice_line, slice_rest. reflexivity.
Qed.

Lemma lines_wire_done c done junk : forall events fuel X Y acc st,
  X ++ Y = wire events ++ done_line ++ LF ++ junk ->
  (String.length X < fuel)%nat ->
  (exists seen unseen P,
     events = (seen ++ unseen)%list
     /\ indexOf LF P = -1
     /\ P ++ Y = wire unseen ++ done_line ++ LF ++ junk
     /\ lines fuel c
          {| textBuffer := X; streamDone := done; assistantContent := acc |} st
        = ({| textBuffer := P; streamDone := done;
              assistantContent := acc ++ said seen |},
           fst (replay c acc seen st), snd (replay c acc seen st)))
  \/ (exists X',
        X' ++ Y = junk
        /\ lines fuel c
             {| textBuffer := X; streamDone := done; assistantContent := acc |} st
           = ({| textBuffer := X'; streamDone := true;
                 assistantContent := acc ++ said events |},
              fst (replay c acc events st), snd (replay c acc events st))).
Proof.
  induction events as [|e events IH]; intros fuel X Y acc st Heq Hfuel.
  { cbn [wire said replay fst snd] in *.
    destruct (Z.eq_dec (indexOf LF X) (-1)) as [HX|HX].
    - left. exists [], [], X. cbn [said replay fst snd wire].
      rewrite append_nil_r. repeat split; try done. by apply lines_wait.
    - right. change ("" ++ done_line ++ LF ++ junk)
        with (done_line ++ LF ++ junk) in Heq.
      destruct (line_split done_line eq_refl X Y _ Heq HX) as (X' & -> & HR).
      destruct fuel as [|fuel]; [lia|].
      exists X'. split; [done|]. by rewrite lines_done, append_nil_r. }
  destruct (Z.eq_dec (indexOf LF X) (-1)) as [HX|HX].
  { left. exists [], (e :: events), X. cbn [said replay fst snd].
    rewrite append_nil_r. repeat split; try done. by apply lines_wait. }
  cbn [wire] in Heq. rewrite !append_assoc in Heq.
  destruct (line_split _ (indexOf_render e) X Y _ Heq HX) as (X' & -> & HR).
  destruct fuel as [|fuel]; [lia|].
  rewrite !length_append in Hfuel. change (String.length LF) with 1%nat in Hfuel.
  destruct e as [text|]; cbn [render].
  - rewrite lines_delta. destruct (String.eqb_spec text "") as [->|Htext].
    + destruct (IH fuel X' Y acc st HR ltac:(lia))
        as [(seen & unseen & P & -> & HP & HY & ->)|(X2 & HX2 & ->)].
      * left. exists (Delta "" :: seen), unseen, P. cbn [said replay app].
        repeat split; done.
      * right. by exists X2.
    + apply String.eqb_neq in Htext.
      destruct (IH fuel X' Y (acc ++ text)
                  (fst (setTranscript c (fold_delta (acc ++ text)) st)) HR
                  ltac:(lia))
        as [(seen & unseen & P & -> & HP & HY & ->)|(X2 & HX2 & ->)].
      * left. exists (Delta text :: seen), unseen, P. cbn [said replay app].
        rewrite Htext. unfold setTranscript at 3 4. cbn [fst snd].
        destruct (replay c (acc ++ text) seen _) as [st1 es1].
        rewrite append_assoc. repeat split; done.
      * right. exists X2. split; [done|]. cbn [said replay]. rewrite Htext.
        unfold setTranscript at 3 4. cbn [fst snd].
        destruct (replay c (acc ++ text) events _) as [st1 es1].
        by rewrite append_assoc.
  - change ("" ++ LF ++ X') with (LF ++ X'). rewrite lines_blank.
    destruct (IH fuel X' Y acc st HR ltac:(simpl in Hfuel; lia))
      as [(seen & unseen & P & -> & HP & HY & ->)|(X2 & HX2 & ->)].
    + left. exists (Blank :: seen), unseen, P. cbn [said replay app].
      repeat split; done.
    + right. by exists X2.
Qed.

Lemma wire_done_has_line (events : list event) (junk : string) :
  indexOf LF (wire events ++ done_line ++ LF ++ junk) <> -1.
Proof.
  destruct events as [|e events].
  - cbn [wire]. change ("" ++ done_line ++ LF ++ junk)
      with (done_line ++ LF ++ junk).
    by rewrite (indexOf_line done_line junk eq_refl).
  - apply wire_has_line.
Qed.

Lemma reads_wire_done c thrown_ junk : forall values events P acc st,
  indexOf LF P = -1 ->
  P ++ joined values = wire events ++ done_line ++ LF ++ junk ->
  exists X',
    reads c values thrown_
      {| textBuffer := P; streamDone := false; assistantContent := acc |} st
    = ({| textBuffer := X'; streamDone := true;
          assistantContent := acc ++ said events |},
       fst (replay c acc events st), None, snd (replay c acc events st)).
Proof.
  induction values as [|value values IH]; intros events P acc st HP Heq.
  - cbn [joined] in Heq. rewrite append_nil_r in Heq. subst P.
    by destruct (wire_done_has_line events junk HP).
  - cbn [reads streamDone textBuffer assistantContent joined] in *.
    unfold decode. rewrite <- append_assoc in Heq.
    destruct (lines_wire_done c false junk events
                (S (String.length (P ++ value)))
                (P ++ value) (joined values) acc st Heq ltac:(lia))
      as [(seen & unseen & P' & -> & HP' & HY & ->)|(X' & _ & ->)].
    + destruct (IH unseen P' (acc ++ said seen)
                  (fst (replay c acc seen st)) HP' HY) as (X' & ->).
      exists X'. rewrite replay_app, said_app, append_assoc.
      destruct (replay c acc seen st) as [st1 es1]. cbn [fst snd].
      by destruct (replay c (acc ++ said seen) unseen st1) as [st2 es2].
    + exists X'. rewrite reads_done by done. by rewrite app_nil_r.
Qed.

(** The same with the chunk named that brings the end of the sentinel
    line: what that chunk holds after it stays in the buffer, and the
    chunks after it are not read. *)
Lemma reads_sentinel_chunk c thrown_ head left_over more :
  head <> "" ->
  forall before events P acc st,
  indexOf LF P = -1 ->
  P ++ joined before ++ head = wire events ++ done_line ++ LF ->
  reads c (before ++ (head ++ left_over) :: more) thrown_
    {| textBuffer := P; streamDone := false; assistantContent := acc |} st
  = ({| textBuffer := left_over; streamDone := true;
        assistantContent := acc ++ said events |},
     fst (replay c acc events st), None, snd (replay c acc events st)).
Proof.
  intros Hhead.
  induction before as [|value before IH]; intros events P acc st HP Heq.
  - cbn [joined app] in *. change ("" ++ head) with head in Heq.
    cbn [reads streamDone textBuffer assistantContent]. unfold decode.
    assert (Heq' : (P ++ head ++ left_over) ++ ""
                   = wire events ++ done_line ++ LF ++ left_over).
    { rewrite append_nil_r.
      rewrite <- (append_assoc P head left_over), Heq.
      by rewrite !append_assoc. }
    destruct (lines_wire_done c false left_over events
                (S (String.length (P ++ head ++ left_over)))
                (P ++ head ++ left_over) "" acc st Heq' ltac:(lia))
      as [(seen & unseen & P' & -> & HP' & HY & _)|(X' & HX' & ->)].
    + rewrite append_nil_r in HY. rewrite HY in HP'.
      by destruct (wire_done_has_line unseen left_over HP').
    + rewrite append_nil_r in HX'. subst X'.
      rewrite reads_done by done. by rewrite app_nil_r.
  - cbn [joined app] in *.
    cbn [reads streamDone textBuffer assistantContent]. unfold decode.
    assert (Heq' : (P ++ value) ++ joined before ++ head
                   = wire events ++ done_line ++ LF ++ "").
    { by rewrite !append_assoc, !append_nil_r, <- Heq, !append_assoc. }
    destruct (lines_wire_done c false "" events
                (S (String.length (P ++ value)))
                (P ++ value) (joined before ++ head) acc st Heq' ltac:(lia))
      as [(seen & unseen & P' & -> & HP' & HY & ->)|(X' & HX' & _)].
    + rewrite append_nil_r in HY.
      rewrite (IH unseen P' (acc ++ said seen) _ HP' HY).
      rewrite replay_app, said_app, append_assoc.
      destruct (replay c acc seen st) as [st1 es1]. cbn [fst snd].
      by destruct (replay c (acc ++ said seen) unseen st1) as [st2 es2].
    + apply append_eq_nil in HX' as [_ HX'].
      apply append_eq_nil in HX' as [_ HX']. done.
Qed.

(** *** What the reading leaves *)

Lemma setTranscript_fold_twice c (a b : string) st :
  fst (setTranscript c (fold_delta b) (fst (setTranscript c (fold_delta a) st)))
  = fst (setTranscript c (fold_delta b) st).
Proof.
  destruct c; unfold setTranscript; cbn; by rewrite fold_delta_twice.
Qed.

(** The state at the end: the transcript shows what the deltas say, and
    nothing else has changed. *)
Lemma replay_state c : forall events acc st,
  said events <> "" ->
  fst (replay c acc events st)
  = fst (setTranscript c (fold_delta (acc ++ said events)) st).
Proof.
  induction events as [|[text|] events IH]; intros acc st H; cbn [said replay] in *.
  - done.
  - destruct (String.eqb_spec text "") as [->|Htext]; [by apply IH|].
    destruct (setTranscript c (fold_delta (acc ++ text)) st) as [st1 es1] eqn:Hst1.
    assert (Hfst : st1 = fst (setTranscript c (fold_delta (acc ++ text)) st))
      by by rewrite Hst1.
    destruct (replay c (acc ++ text) events st1) as [st2 es2] eqn:Hrest.
    cbn [fst].
    destruct (string_dec (said events) "") as [Hnone|Hsome].
    + rewrite (replay_silent c events _ _ Hnone) in Hrest.
      injection Hrest as <- _. by rewrite Hnone, append_nil_r.
    + pose proof (IH (acc ++ text) st1 Hsome) as Hfinal.
      rewrite Hrest in Hfinal. cbn [fst] in Hfinal.
      by rewrite Hfinal, Hfst, setTranscript_fold_twice, append_assoc.
  - by apply IH.
Qed.

(** The values set on the way: one for each delta that says something,
    each the fold of what the deltas say up to some line. *)
Lemma replay_values c : forall events acc st,
  List.length (snd (replay c acc events st)) = List.length (voiced events)
  /\ Forall (fun e =>
               exists k, (k <= List.length events)%nat
                 /\ acc ++ said (take k events) <> ""
                 /\ e = SetTranscript c
                          (fold_delta (acc ++ said (take k events))
                             (transcript c st)))
            (snd (replay c acc events st)).
Proof.
  induction events as [|[text|] events IH]; intros acc st; cbn [said replay voiced].
  - split; [done|constructor].
  - destruct (String.eqb_spec text "") as [->|Htext].
    + destruct (IH acc st) as [Hlen Hall]. split; [done|].
      eapply Forall_impl; [exact Hall|].
      intros e (k & Hk & Hne & ->). exists (S k). cbn [take said List.length].
      split; [lia|]. by split.
    + pose proof (transcript_set c (fold_delta (acc ++ text)) st) as Hset.
      destruct (setTranscript c (fold_delta (acc ++ text)) st) as [st1 es1] eqn:Hst1.
      cbn [fst] in Hset.
      assert (Hes1 : es1 = [SetTranscript c
                              (fold_delta (acc ++ text) (transcript c st))]).
      { unfold setTranscript in Hst1. by injection Hst1 as _ <-. }
      destruct (IH (acc ++ text) st1) as [Hlen Hall].
      destruct (replay c (acc ++ text) events st1) as [st2 es2].
      cbn [snd] in *. subst es1. cbn [app List.length]. split; [by rewrite Hlen|].
      constructor.
      * exists 1%nat. cbn [take said List.length]. rewrite append_nil_r.
        split; [lia|]. split; [|done].
        intros Hnil. by apply append_eq_nil in Hnil as [_ ?].
      * eapply Forall_impl; [exact Hall|].
        intros e (k & Hk & Hne & ->). exists (S k). cbn [take said List.length].
        rewrite Hset, fold_delta_twice, <- append_assoc.
        split; [lia|]. by split.
  - destruct (IH acc st) as [Hlen Hall]. split; [done|].
    eapply Forall_impl; [exact Hall|].
    intros e (k & Hk & Hne & ->). exists (S k). cbn [take said List.length].
    split; [lia|]. by split.
Qed.

(** What a reading leaves that went through the lines of [events] from
    the empty accumulator. *)
Lemma replay_summary c events st :
  fst (replay c "" events st)
  = (if String.eqb (said events) "" then st
     else fst (setTranscript c (fold_delta (said events)) st))
  /\ List.length (snd (replay c "" events st)) = List.length (voiced events)
  /\ Forall (fun e =>
               exists k, (k <= List.length events)%nat
                 /\ said (take k events) <> ""
                 /\ e = SetTranscript c
                          (fold_delta (said (take k events)) (transcript c st)))
            (snd (replay c "" events st)).
Proof.
  split; [|exact (replay_values c events "" st)].
  destruct (String.eqb_spec (said events) "") as [Hnone|Hsome].
  - by rewrite (replay_silent c events "" st Hnone).
  - exact (replay_state c events "" st Hsome).
Qed.

(** A transcript that is [base] with an open turn, or [base] and one
    reply, folded with what the stream says. *)
Lemma fold_delta_base acc (prev base : list Message) :
  (prev = base /\ open_turn base) \/ one_reply base prev ->
  fold_delta acc prev = (base ++ [{| role := assistant; content := acc |}])%list.
Proof.
  intros [[-> Hopen]|[x ->]].
  - by apply fold_delta_append.
  - apply fold_delta_replace.
Qed.

(** *** A line that does not parse *)

Lemma lines_stuck fuel c line rest done acc st :
  stuck line = true ->
  lines (S fuel) c
    {| textBuffer := line ++ LF ++ rest; streamDone := done;
       assistantContent := acc |} st
  = ({| textBuffer := line ++ LF ++ rest; streamDone := done;
        assistantContent := acc |}, st, []).
Proof.
  unfold stuck. rewrite !andb_true_iff, !negb_true_iff.
  intros (((((HLF%Z.eqb_eq & Hcr) & Hskip) & Hdata) & Hdone) & Hparse).
  cbn [lines textBuffer streamDone assistantContent].
  rewrite (indexOf_line line rest HLF), slice_line, slice_rest.
  destruct (Z.eqb_spec (length line) (-1)) as [Hneg|_].
  { unfold length in Hneg. lia. }
  rewrite Hcr, Hskip, Hdata, Hdone. cbn [negb].
  by destruct (delta_content _).
Qed.

(** X16.  A complete data line that does not parse blocks the stream.
    The inner loop hands such a line back to the buffer as it is and
    stops; with the next chunk it finds the same line first and stops
    again.  So whatever chunks follow, no line after it is ever read: the
    transcript and the accumulated content stay as they are, the chunks
    pile up in the buffer, and the loop ends as the body ends. *)
Theorem reads_blocked c values thrown_ line rest acc st :
  stuck line = true ->
  reads c values thrown_
    {| textBuffer := line ++ LF ++ rest; streamDone := false;
       assistantContent := acc |} st
  = ({| textBuffer := line ++ LF ++ rest ++ joined values; streamDone := false;
        assistantContent := acc |}, st, thrown_, []).
Proof.
  intros Hstuck. revert rest.
  induction values as [|value values IH]; intros rest.
  - cbn [reads streamDone joined]. by rewrite append_nil_r.
  - cbn [reads streamDone textBuffer assistantContent joined]. unfold decode.
    rewrite !append_assoc, (lines_stuck _ _ _ _ _ _ _ Hstuck), IH.
    by rewrite !append_assoc.
Qed.

(** X16, witness: a line that is not JSON, then a delta and the
    sentinel, which are never read. *)
Lemma reads_blocked_witness :
  stuck "data: {oops}" = true
  /\ reads Primary [Samples.OfClient.line_He; Samples.OfClient.line_DONE] None
       {| textBuffer := Samples.OfClient.line_bad; streamDone := false;
          assistantContent := "" |} Samples.OfClient.fresh
     = ({| textBuffer := Samples.OfClient.line_bad ++ Samples.OfClient.line_He
                           ++ Samples.OfClient.line_DONE;
           streamDone := false; assistantContent := "" |},
        Samples.OfClient.fresh, None, []).
Proof.
  split; [reflexivity|].
  exact (reads_blocked Primary
           [Samples.OfClient.line_He; Samples.OfClient.line_DONE] None
           "data: {oops}" "" "" Samples.OfClient.fresh eq_refl).
Defined.

(** What [decode_stream] gives for a body whose text is the lines of
    [events] and a last text without a line feed, however it is cut. *)
Lemma decode_wire c body events tail st :
  indexOf LF tail = -1 ->
  joined (chunks body) = wire events ++ tail ->
  decode_stream c body st
  = ({| textBuffer := tail; streamDone := false;
        assistantContent := said events |},
     fst (replay c "" events st), failure body, snd (replay c "" events st)).
Proof.
  intros Htail Heq.
  exact (reads_wire c (failure body) tail Htail (chunks body) events
           "" "" st eq_refl Heq).
Qed.

(** The same for a body whose text goes on, after the lines of [events],
    with the sentinel line. *)
Lemma decode_wire_done c body events junk st :
  joined (chunks body) = wire events ++ done_line ++ LF ++ junk ->
  exists left_over,
    decode_stream c body st
    = ({| textBuffer := left_over; streamDone := true;
          assistantContent := said events |},
       fst (replay c "" events st), None, snd (replay c "" events st)).
Proof.
  intros Heq. unfold decode_stream, initial.
  by apply (reads_wire_done c (failure body) junk (chunks body) events "" "" st).
Qed.

(** X14.  What the decode loop leaves does not depend on how the body is
    cut into chunks.  Take a body whose chunks, put together, are the
    lines of a stream of deltas and empty lines, each with its line feed,
    followed by a text without a line feed.  However the text is cut, the
    accumulated content is what the deltas say, in their order; the last
    text, which no line feed ends, is left in the buffer and never parsed,
    even when it is a complete data line; and the loop ends as the body
    ends.  The state at the end is the state at the start with the
    transcript folded with all that the deltas say, and the state at the
    start when they say nothing.  The transcript is set once for each
    delta whose content is not empty, and every value set is the fold,
    over the transcript at the start, of what the deltas say up to some
    line.  The decoder, the state and the exception at the end are those
    of the same text in a single chunk. *)
Theorem decode_stream_any_cut c body events tail st :
  indexOf LF tail = -1 ->
  joined (chunks body) = wire events ++ tail ->
  let '(d, st', e, es) := decode_stream c body st in
  d = {| textBuffer := tail; streamDone := false;
         assistantContent := said events |}
  /\ e = failure body
  /\ st' = (if String.eqb (said events) "" then st
            else fst (setTranscript c (fold_delta (said events)) st))
  /\ (said events <> "" ->
      transcript c st' = fold_delta (said events) (transcript c st))
  /\ List.length es = List.length (voiced events)
  /\ Forall (fun e =>
               exists k, (k <= List.length events)%nat
                 /\ said (take k events) <> ""
                 /\ e = SetTranscript c
                          (fold_delta (said (take k events)) (transcript c st)))
            es
  /\ (d, st', e)
     = fst (decode_stream c {| chunks := [wire events ++ tail];
                               failure := failure body |} st).
Proof.
  intros Htail Heq.
  rewrite (decode_wire c body events tail st Htail Heq).
  rewrite (decode_wire c {| chunks := [wire events ++ tail];
                            failure := failure body |} events tail st Htail)
    by (cbn [chunks joined]; apply append_nil_r).
  destruct (replay_summary c events st) as (Hst & Hlen & Hall).
  cbn [fst failure]. repeat split; try done.
  intros Hsaid. rewrite Hst.
  apply String.eqb_neq in Hsaid. rewrite Hsaid. apply transcript_set.
Qed.

(** X14, witness: two deltas cut in the middle of their lines, and a
    third without its line feed. *)
Lemma decode_stream_any_cut_witness :
  joined (chunks Cases.OfClient.unterminated)
  = wire Cases.OfClient.spoken ++ delta_line "!"
  /\ let '(d, st', e, es) :=
       decode_stream Primary Cases.OfClient.unterminated Samples.OfClient.fresh in
     d = {| textBuffer := delta_line "!"; streamDone := false;
            assistantContent := "Hello" |}
     /\ e = None
     /\ transcript Primary st'
        = fold_delta "Hello" (transcript Primary Samples.OfClient.fresh)
     /\ List.length es = 2%nat.
Proof.
  split; [reflexivity|].
  pose proof (decode_stream_any_cut Primary Cases.OfClient.unterminated
                Cases.OfClient.spoken (delta_line "!")
                Samples.OfClient.fresh eq_refl eq_refl) as H.
  destruct (decode_stream _ _ _) as [[[d st'] e] es].
  destruct H as (Hd & He & _ & Hfinal & Hlen & _).
  split; [exact Hd|]. split; [exact He|]. split; [|exact Hlen].
  apply Hfinal. discriminate.
Defined.

(** X15.  The sentinel line ends the stream however the body is cut into
    chunks.  Take the chunk that brings the line feed of the sentinel
    line, after the lines of a stream of deltas and empty lines: the
    accumulated content is what the deltas before the sentinel say, the
    stream is done, and no exception is seen.  What that chunk holds after
    the sentinel line stays in the buffer and is never parsed; the chunks
    after it are never read, and a failure of the body after it is never
    seen.  The state at the end is the state at the start with the
    transcript folded with all that the deltas say, and the state at the
    start when they say nothing; the transcript is set once for each
    delta whose content is not empty. *)
Theorem decode_stream_sentinel c events before head left_over more thrown_ st :
  head <> "" ->
  joined before ++ head = wire events ++ done_line ++ LF ->
  let body := {| chunks := (before ++ (head ++ left_over)%string :: more)%list;
                 failure := thrown_ |} in
  let '(d, st', e, es) := decode_stream c body st in
  d = {| textBuffer := left_over; streamDone := true;
         assistantContent := said events |}
  /\ e = None
  /\ st' = (if String.eqb (said events) "" then st
            else fst (setTranscript c (fold_delta (said events)) st))
  /\ (said events <> "" ->
      transcript c st' = fold_delta (said events) (transcript c st))
  /\ List.length es = List.length (voiced events).
Proof.
  intros Hhead Heq body. subst body. unfold decode_stream, initial.
  cbn [chunks failure].
  rewrite (reads_sentinel_chunk c thrown_ head left_over more Hhead
             before events "" "" st eq_refl Heq).
  destruct (replay_summary c events st) as (Hst & Hlen & Hall).
  repeat split; try done.
  intros Hsaid. rewrite Hst.
  apply String.eqb_neq in Hsaid. rewrite Hsaid. apply transcript_set.
Qed.

(** X15, witness: the chunk that ends the sentinel line goes on with
    more text, another chunk follows, and the reader fails at the end. *)
Lemma decode_stream_sentinel_witness :
  let before := [String.substring 0 20 Cases.OfClient.ended;
                 String.substring 20 45 Cases.OfClient.ended] in
  let head :=
    String.substring 65 (String.length Cases.OfClient.ended - 65)
      Cases.OfClient.ended in
  chunks Cases.OfClient.terminated
  = (before ++ (head ++ "more")%string :: ["never read"])%list
  /\ let '(d, st', e, es) :=
       decode_stream Primary Cases.OfClient.terminated Samples.OfClient.fresh in
     d = {| textBuffer := "more"; streamDone := true;
            assistantContent := "Hello" |}
     /\ e = None
     /\ List.length es = 2%nat.
Proof.
  intros before head. split; [reflexivity|].
  pose proof (decode_stream_sentinel Primary Cases.OfClient.spoken before head
                "more" ["never read"] (Some (JS.Error "network error"))
                Samples.OfClient.fresh ltac:(discriminate) eq_refl) as H.
  cbv zeta in H.
  change {| chunks := (before ++ (head ++ "more")%string :: ["never read"])%list;
            failure := Some (JS.Error "network error") |}
    with Cases.OfClient.terminated in H.
  destruct (decode_stream _ _ _) as [[[d st'] e] es].
  destruct H as (Hd & He & _ & _ & Hlen).
  split; [exact Hd|]. split; [exact He|exact Hlen].
Defined.

(** C6.  The updater of both drivers replaces the content of a trailing
    assistant entry where it stands, and appends an assistant entry only
    when the last entry is not the assistant's (or there is none).  So,
    while one stream is decoded for either conversation, from a transcript
    that is [base] with an open turn or [base] followed by one reply,
    every value the transcript is set to is [base] followed by exactly one
    assistant entry, whatever the body holds.  And the decode loop does
    fold the deltas: for a body that is the lines of a stream of deltas
    and empty lines, ended by a text without a line feed or by the
    sentinel line, and cut into chunks in any way, the transcript is set
    once for each delta whose content is not empty, every value set is
    [base] followed by one assistant entry whose content is what the
    deltas say up to some line, and the transcript at the end is [base]
    followed by one assistant entry whose content is all that the deltas
    say. *)
Theorem fold_keeps_one_reply :
  (forall acc base x,
      fold_delta acc (base ++ [{| role := assistant; content := x |}])%list
      = (base ++ [{| role := assistant; content := acc |}])%list)
  /\ (forall acc prev,
         open_turn prev ->
         fold_delta acc prev
         = (prev ++ [{| role := assistant; content := acc |}])%list)
  /\ (forall c body st base,
         (transcript c st = base /\ open_turn base)
         \/ one_reply base (transcript c st) ->
         let '(_, st', _, es) := decode_stream c body st in
         Forall (fun e => exists acc,
                   e = SetTranscript c
                         (base ++ [{| role := assistant; content := acc |}])%list)
                es
         /\ (transcript c st' = transcript c st
             \/ one_reply base (transcript c st')))
  /\ (forall c body events st base,
         (exists tail,
             indexOf LF tail = -1
             /\ joined (chunks body) = wire events ++ tail)
         \/ (exists junk,
               joined (chunks body) = wire events ++ done_line ++ LF ++ junk) ->
         (transcript c st = base /\ open_turn base)
         \/ one_reply base (transcript c st) ->
         let '(d, st', _, es) := decode_stream c body st in
         assistantContent d = said events
         /\ List.length es = List.length (voiced events)
         /\ Forall (fun e =>
                      exists k, (k <= List.length events)%nat
                        /\ said (take k events) <> ""
                        /\ e = SetTranscript c
                                 (base ++ [{| role := assistant;
                                              content := said (take k events) |}])%list)
                   es
         /\ (said events <> "" ->
             transcript c st'
             = (base ++ [{| role := assistant; content := said events |}])%list)
         /\ (said events = "" -> st' = st /\ es = [])).
Proof.
  split; [exact fold_delta_replace|]. split; [exact fold_delta_append|]. split.
  { intros c body st base Hbase. unfold decode_stream.
    destruct (reads _ _ _ _ _) as [[[d st'] e] es] eqn:Hreads.
    apply reads_updates in Hreads. by eapply updates_replies. }
  intros c body events st base Hbody Hbase.
  assert (exists d e,
             decode_stream c body st
             = (d, fst (replay c "" events st), e, snd (replay c "" events st))
             /\ assistantContent d = said events) as (d & e & -> & Hd).
  { destruct Hbody as [(tail & Htail & Heq)|(junk & Heq)].
    - rewrite (decode_wire c body events tail st Htail Heq). by eexists _, _.
    - destruct (decode_wire_done c body events junk st Heq) as (left_over & ->).
      by eexists _, _. }
  destruct (replay_summary c events st) as (Hst & Hlen & Hall).
  split; [done|]. split; [done|]. split; [|split].
  - eapply Forall_impl; [exact Hall|].
    intros e' (k & Hk & Hne & ->). exists k.
    by rewrite (fold_delta_base _ _ base Hbase).
  - intros Hsaid. rewrite Hst.
    apply String.eqb_neq in Hsaid. rewrite Hsaid, transcript_set.
    by apply fold_delta_base.
  - intros Hsaid. rewrite (replay_silent c events "" st Hsaid). done.
Qed.

(** C6, witness: the primary conversation after a question, decoding the
    two deltas of [Hello], cut in the middle of their lines. *)
Lemma fold_keeps_one_reply_witness :
  let base := [{| role := user; content := "question" |}] in
  let '(d, st', _, es) :=
    decode_stream Primary Cases.OfClient.unterminated Samples.OfClient.asked in
  assistantContent d = "Hello"
  /\ List.length es = 2%nat
  /\ Forall (fun e =>
               exists k, (k <= 4)%nat
                 /\ said (take k Cases.OfClient.spoken) <> ""
                 /\ e = SetTranscript Primary
                          (base ++ [{| role := assistant;
                                       content := said (take k Cases.OfClient.spoken) |}])%list)
            es
  /\ (said Cases.OfClient.spoken <> "" ->
      transcript Primary st'
      = (base ++ [{| role := assistant; content := "Hello" |}])%list)
  /\ (said Cases.OfClient.spoken = "" ->
      st' = Samples.OfClient.asked /\ es = []).
Proof.
  intros base.
  apply (proj2 (proj2 (proj2 fold_keeps_one_reply)) Primary
           Cases.OfClient.unterminated Cases.OfClient.spoken
           Samples.OfClient.asked base).
  - left. exists (delta_line "!"). split; reflexivity.
  - left. split; [reflexivity|]. intros m [= <-]. discriminate.
Defined.

End DecoderMore.

(** ** The tabs and the forms: proofs *)

Module PageMore.
Import JS Page JsonMore DecoderMore.

(** *** Closing a tab *)

Lemma find_some_in (f : BrowserTab -> bool) (l : list BrowserTab) :
  List.find f l <> None <-> exists tab, In tab l /\ f tab = true.
Proof.
  split.
  - destruct (List.find f l) as [tab|] eqn:Hfind; [|done].
    intros _. apply find_some in Hfind. by exists tab.
  - intros (tab & Hin & Hf) Hnone.
    apply (find_none _ _ Hnone) in Hin. congruence.
Qed.

Lemma filter_last_in (f : BrowserTab -> bool) (l : list BrowserTab) tab :
  last (List.filter f l) = Some tab -> In tab (List.filter f l).
Proof.
  intros H. apply last_Some in H as [l' H]. rewrite H.
  apply in_or_app. right. by left.
Qed.

(** X17.  After [closeTab(tabId)] no open tab has the identifier
    [tabId], and it is not the active one; every other tab stays open.  A
    tab state that holds together still does.  Closing a tab that is not
    the active one leaves the active tab as it is; closing the active one
    makes the last of the remaining tabs active, or none when none
    remains. *)
Theorem closeTab_closes (tabId : string) (st : Tabs) :
  let st' := closeTab tabId st in
  Forall (fun tab => id tab <> tabId) (browserTabs st')
  /\ activeTabId st' <> Some tabId
  /\ (forall tab, In tab (browserTabs st) -> id tab <> tabId ->
        In tab (browserTabs st'))
  /\ (consistent st -> consistent st')
  /\ (consistent st -> activeTabId st <> Some tabId ->
      activeTabId st' = activeTabId st)
  /\ (activeTabId st = Some tabId ->
      activeTabId st' = option_map id (last (browserTabs st'))).
Proof.
  cbv zeta. unfold closeTab. cbn [browserTabs activeTabId].
  set (keep := fun tab => negb (String.eqb (id tab) tabId)).
  set (filtered := List.filter keep (browserTabs st)).
  assert (Hkeep : forall tab, In tab filtered <->
                         In tab (browserTabs st) /\ id tab <> tabId).
  { intros tab. unfold filtered. rewrite filter_In. unfold keep.
    rewrite negb_true_iff, String.eqb_neq. tauto. }
  assert (Hlen : (0 <? Z.of_nat (List.length filtered)) = true
                 \/ filtered = []).
  { destruct filtered; [by right|by left]. }
  split; [|split; [|split; [|split; [|split]]]].
  - apply List.Forall_forall. intros tab Hin. by apply Hkeep in Hin as [_ ?].
  - destruct (activeTabId st) as [active|] eqn:Hactive.
    + destruct (String.eqb_spec active tabId) as [->|Hne]; cbn [andb].
      * destruct Hlen as [Hpos| ->]; [rewrite Hpos|done].
        destruct (last filtered) as [tab|] eqn:Hlast.
        -- apply filter_last_in, Hkeep in Hlast as [_ Hid]. congruence.
        -- apply last_None in Hlast. by rewrite Hlast in Hpos.
      * destruct (Z.of_nat (List.length filtered) =? 0); congruence.
    + cbn [andb]. by destruct (Z.of_nat (List.length filtered) =? 0).
  - intros tab Hin Hid. by apply Hkeep.
  - unfold consistent, activeTab. cbn [browserTabs activeTabId]. fold keep filtered.
    destruct (activeTabId st) as [active|] eqn:Hactive.
    + intros Hopen. apply find_some_in in Hopen as (tab & Hin & Hid).
      apply String.eqb_eq in Hid.
      destruct (String.eqb_spec active tabId) as [->|Hne]; cbn [andb].
      * destruct Hlen as [Hpos| Hnil]; [rewrite Hpos|by rewrite Hnil].
        destruct (last filtered) as [tab'|] eqn:Hlast.
        -- apply find_some_in. exists tab'. split; [by apply filter_last_in|].
           apply String.eqb_refl.
        -- apply last_None in Hlast. by rewrite Hlast in Hpos.
      * assert (Hin' : In tab filtered) by (apply Hkeep; split; congruence).
        destruct filtered as [|x filtered'] eqn:Hf; [done|].
        change (Z.of_nat (List.length (x :: filtered')) =? 0) with false.
        cbn iota. apply find_some_in. exists tab. split; [done|].
        by apply String.eqb_eq.
    + intros Hnil. cbn [andb]. unfold filtered. rewrite Hnil. done.
  - unfold consistent, activeTab.
    destruct (activeTabId st) as [active|] eqn:Hactive.
    + intros Hopen Hne. apply find_some_in in Hopen as (tab & Hin & Hid).
      apply String.eqb_eq in Hid.
      destruct (String.eqb_spec active tabId) as [->|Hne']; [done|]. cbn [andb].
      assert (Hin' : In tab filtered) by (apply Hkeep; split; congruence).
      by destruct filtered.
    + intros Hnil _. cbn [andb]. unfold filtered. by rewrite Hnil.
  - intros ->. rewrite String.eqb_refl. cbn [andb].
    destruct Hlen as [Hpos| ->]; [rewrite Hpos|done].
    destruct (last filtered) as [tab|] eqn:Hlast; [done|].
    apply last_None in Hlast. by rewrite Hlast in Hpos.
Qed.

(** *** Opening a tab *)

(** X18.  When [openNewTab] returns, the URL it parsed is the text it
    was given, with [https://] put before it unless the text begins with
    [http].  For a host that blocks embedding the tab state is unchanged,
    and the site is opened in a new window with a toast.  For any other
    host one tab is appended, with the clock reading as its identifier
    and the lower-case host as its title, and it is the active tab; the
    tab state holds together; and closing the new tab by its identifier
    leaves the tabs that closing that identifier before would have left:
    older tabs opened at the same clock reading are closed with it. *)
Theorem openNewTab_cases hostname_of now url st st' es :
  openNewTab hostname_of now url st = inr (st', es) ->
  let fullUrl := if startsWith url "http" then url else "https://" ++ url in
  exists host,
    hostname_of fullUrl = inr host
    /\ ((blocksEmbedding (lower host) = true
         /\ st' = st /\ es = openInExternalTab fullUrl)
        \/ (blocksEmbedding (lower host) = false
            /\ es = []
            /\ browserTabs st'
               = (browserTabs st
                    ++ [{| id := Client.show now; url := fullUrl;
                           title := lower host; isExternal := false |}])%list
            /\ activeTabId st' = Some (Client.show now)
            /\ consistent st'
            /\ browserTabs (closeTab (Client.show now) st')
               = browserTabs (closeTab (Client.show now) st))).
Proof.
  unfold openNewTab. intros H.
  set (fullUrl := if startsWith url "http" then url else "https://" ++ url) in *.
  destruct (hostname_of fullUrl) as [e|host]; [done|]. exists host.
  split; [done|].
  destruct (blocksEmbedding (lower host)) eqn:Hblocks; injection H as <- <-.
  { by left. }
  right. cbn [browserTabs activeTabId id]. repeat split.
  - unfold consistent, activeTab. cbn [browserTabs activeTabId].
    apply find_some_in. eexists. split; [apply in_or_app; right; by left|].
    apply String.eqb_refl.
  - unfold closeTab. cbn [browserTabs]. rewrite List.filter_app. cbn [List.filter id].
    rewrite String.eqb_refl. cbn [negb]. apply app_nil_r.
Qed.

(** X18, witness: a host that is not listed, from the empty tab
    state. *)
Lemma openNewTab_cases_witness :
  let hostname_of : string -> thrown + string := fun _ => inr "Example.org" in
  exists host,
    hostname_of "https://example.org" = inr host
    /\ blocksEmbedding (lower host) = false.
Proof.
  intros hostname_of.
  destruct (openNewTab_cases hostname_of 1700000000000 "example.org"
              {| browserTabs := []; activeTabId := None |} _ _ eq_refl)
    as (host & H & Hcases).
  exists host. split; [exact H|].
  injection H as <-. by destruct Hcases as [(Hb & _)|(Hb & _)].
Defined.

(** *** The pattern of the main form *)

Lemma is_word_bounds (c : N) :
  is_word c = true -> (45 <= c <= 122)%N /\ c <> 46%N /\ c <> 47%N.
Proof.
  unfold is_word.
  rewrite !orb_true_iff, !andb_true_iff, !N.leb_le, !N.eqb_eq. lia.
Qed.

Lemma lower_unit_word (c x : N) :
  lower_unit c = x -> (97 <= x <= 122)%N -> is_word c = true.
Proof.
  unfold lower_unit, is_word. intros H Hx.
  rewrite !orb_true_iff, !andb_true_iff, !N.leb_le, !N.eqb_eq.
  destruct (N.leb_spec 65 c), (N.leb_spec c 90); cbn [andb] in H; lia.
Qed.

Lemma host_path_sound : forall l dotted in_label,
  host_path dotted in_label l = true ->
  (forall pre post, l = (pre ++ 32%N :: post)%list -> In 47%N pre)
  /\ (dotted = false -> In 46%N l)
  /\ (in_label = false -> exists c r, l = c :: r /\ is_word c = true).
Proof.
  induction l as [|c l IH]; intros dotted in_label H; cbn [host_path] in H.
  { apply andb_true_iff in H as [-> ->]. repeat split; try done.
    intros [|? ?] post [=]. }
  destruct (is_word c) eqn:Hword.
  { destruct (IH _ _ H) as (Hspace & Hdot & _). repeat split.
    - intros [|x pre] post Hl; injection Hl as -> Hl.
      + done.
      + right. by eapply Hspace.
    - intros Hd. right. auto.
    - eauto. }
  destruct (N.eqb_spec c 46) as [->|H46].
  { apply andb_true_iff in H as [-> H].
    destruct (IH _ _ H) as (Hspace & _ & _). repeat split.
    - intros [|x pre] post Hl; injection Hl as Hx Hl.
      + done.
      + right. by eapply Hspace.
    - intros _. by left.
    - done. }
  destruct (N.eqb_spec c 47) as [->|H47]; [|done].
  apply andb_true_iff in H as [[-> ->]%andb_true_iff H]. repeat split; try done.
  intros [|x pre] post Hl; injection Hl as Hx Hl; [done|]. subst x. by left.
Qed.

Lemma scheme_sound (l r : list N) :
  scheme l = Some r ->
  exists sch,
    l = (sch ++ [58; 47; 47]%N ++ r)%list
    /\ sch <> [] /\ Forall (fun c => is_word c = true) sch.
Proof.
  unfold scheme. destruct l as [|h [|t [|t' [|p rest]]]]; try done.
  destruct (_ && _) eqn:Hhttp; [|done].
  rewrite !andb_true_iff, !N.eqb_eq in Hhttp.
  destruct Hhttp as (((Hh & Ht) & Ht') & Hp).
  assert (Hfour : Forall (fun c => is_word c = true) [h; t; t'; p]).
  { repeat constructor; eapply lower_unit_word; eauto; lia. }
  intros H.
  destruct rest as [|a [|b [|c rest]]]; try (by repeat case_match).
  destruct (N.eqb_spec a 58) as [->|Ha].
  - destruct (N.eqb_spec b 47) as [->|Hb]; [|by repeat case_match].
    destruct (N.eqb_spec c 47) as [->|Hc]; [|by repeat case_match].
    injection H as <-. exists [h; t; t'; p]. by repeat split.
  - destruct rest as [|d rest]; [by repeat case_match|].
    destruct (N.eqb_spec b 58) as [->|Hb]; [|by repeat case_match].
    destruct (N.eqb_spec c 47) as [->|Hc]; [|by repeat case_match].
    destruct (N.eqb_spec d 47) as [->|Hd]; [|by repeat case_match].
    assert (Hs : (lower_unit a =? 115)%N = true /\ r = rest).
    { revert H. repeat case_match; try done; by intros [= <-]. }
    destruct Hs as [Hs%N.eqb_eq ->].
    exists [h; t; t'; p; a]. repeat split; [done|].
    apply (Forall_app _ [h; t; t'; p] [a]). split; [done|]. repeat constructor.
    eapply lower_unit_word; eauto; lia.
Qed.

(** What the pattern accepts holds a dot, begins with a letter, a digit,
    the underscore or the hyphen, and has no space before its first
    slash. *)
Lemma urlPattern_sound (text : string) :
  urlPattern_test text = true ->
  In 46%N (codes text)
  /\ (forall pre post, codes text = (pre ++ 32%N :: post)%list -> In 47%N pre)
  /\ (exists c r, codes text = c :: r /\ is_word c = true).
Proof.
  unfold urlPattern_test. intros [H|H]%orb_true_iff.
  { destruct (host_path_sound _ _ _ H) as (Hspace & Hdot & Hfirst). auto. }
  destruct (scheme (codes text)) as [r|] eqn:Hscheme; [|done].
  apply scheme_sound in Hscheme as (sch & Hl & Hne & Hword).
  destruct (host_path_sound _ _ _ H) as (Hspace & Hdot & _).
  rewrite Hl. repeat split.
  - apply in_or_app. right. apply in_or_app. right. auto.
  - intros pre post Hcut.
    assert (Hk : (sch ++ [58; 47; 47]%N ++ r)%list !! List.length pre = Some 32%N).
    { rewrite Hcut. by rewrite list_lookup_middle. }
    destruct (decide (List.length pre < List.length sch + 3)%nat) as [Hlt|Hge].
    + exfalso. rewrite app_assoc, lookup_app_l in Hk
        by (rewrite length_app; simpl; lia).
      apply list_elem_of_lookup_2, elem_of_app in Hk as [Hk|Hk].
      * rewrite Forall_forall in Hword. by apply Hword in Hk.
      * apply list_elem_of_In in Hk. cbn in Hk. intuition discriminate.
    + assert (H47 : (pre ++ 32%N :: post)%list !! (List.length sch + 1)%nat
                    = Some 47%N).
      { rewrite <- Hcut.
        rewrite lookup_app_r by lia.
        by replace (List.length sch + 1 - List.length sch)%nat with 1%nat by lia. }
      rewrite lookup_app_l in H47 by lia.
      apply list_elem_of_lookup_2 in H47. by apply list_elem_of_In.
  - destruct sch as [|c sch]; [done|]. apply Forall_cons_1 in Hword as [Hc _].
    by exists c, (sch ++ [58; 47; 47]%N ++ r)%list.
Qed.

Lemma host_path_label (a : list N) : forall dotted in_label l,
  a <> [] -> Forall (fun c => is_word c = true) a ->
  host_path dotted in_label (a ++ l) = host_path dotted true l.
Proof.
  induction a as [|c a IH]; intros dotted in_label l Hne Hword; [done|].
  apply Forall_cons_1 in Hword as [Hc Hword]. cbn [app host_path]. rewrite Hc.
  destruct a as [|c' a]; [done|]. by apply IH.
Qed.

(** X20.  What [handleSubmit] goes on to call.  It does nothing when
    the text is blank or a reply is loading, even for a URL.  What it
    opens as a tab is the trimmed text, which holds a dot, begins with a
    letter, a digit, the underscore or the hyphen, and has no space before
    its first slash.  What it sends to the chat is the text as typed, not
    trimmed, and its trimmed form does not match the pattern. *)
Theorem handleSubmit_dispatch (query : string) (loading : bool) :
  match handleSubmit query loading with
  | Ignored => trim query = "" \/ loading = true
  | Navigate target =>
      loading = false /\ target = trim query
      /\ In 46%N (codes target)
      /\ (forall pre post,
            codes target = (pre ++ 32%N :: post)%list -> In 47%N pre)
      /\ (exists c r, codes target = c :: r /\ is_word c = true)
  | Ask userMessage =>
      loading = false /\ userMessage = query /\ trim query <> ""
      /\ urlPattern_test (trim query) = false
  end.
Proof.
  unfold handleSubmit.
  destruct (String.eqb_spec (trim query) "") as [Hblank|Hblank]; [by left|].
  destruct loading; [by right|]. cbn [orb].
  destruct (urlPattern_test (trim query)) eqn:Htest; [|done].
  split; [done|]. split; [done|]. by apply urlPattern_sound.
Qed.

Lemma word_not_blank (c : N) : is_word c = true -> ~ Wire.blank c.
Proof. intros Hc%is_word_bounds. unfold Wire.blank. lia. Qed.

(** X21.  Two labels joined by a dot are a URL for the main form: a
    text such as [3.14] or [node.js] is opened as a tab, never asked.  The
    form of the assistant has no such test and asks it. *)
Theorem handleSubmit_dotted (a b : list N) :
  a <> [] -> b <> [] ->
  Forall (fun c => is_word c = true) a ->
  Forall (fun c => is_word c = true) b ->
  let text := of_codes (a ++ 46%N :: b) in
  handleSubmit text false = Navigate text
  /\ handleAssistantSubmit text false = Ask text.
Proof.
  intros Ha Hb Hwa Hwb text.
  assert (Hcodes : codes text = (a ++ 46%N :: b)%list).
  { apply codes_of_codes. apply Forall_app. split; [|constructor; [done|]].
    - eapply Forall_impl; [exact Hwa|]. intros c Hc%is_word_bounds. simpl. lia.
    - eapply Forall_impl; [exact Hwb|]. intros c Hc%is_word_bounds. simpl. lia. }
  assert (Htrim : trim text = text).
  { destruct a as [|x a]; [done|]. apply Forall_cons_1 in Hwa as [Hx _].
    destruct (last b) as [z|] eqn:Hlast; [|by apply last_None in Hlast].
    assert (Hz : is_word z = true).
    { apply last_Some in Hlast as [b' ->].
      by apply Forall_app in Hwb as [_ [Hz _]%Forall_cons_1]. }
    apply (trim_plain text x (a ++ 46%N :: b) z); try done.
    - rewrite Hcodes. apply ClientMore.last_after.
      by apply (ClientMore.last_after [46%N]).
    - by apply word_not_blank.
    - by apply word_not_blank. }
  assert (Hfull : text <> "").
  { intros Hnil. rewrite Hnil in Hcodes. by destruct a. }
  unfold handleSubmit, handleAssistantSubmit. rewrite Htrim.
  apply String.eqb_neq in Hfull. rewrite Hfull. cbn [orb].
  split; [|done].
  unfold urlPattern_test. rewrite Hcodes.
  rewrite (host_path_label a) by done. cbn [host_path].
  change (is_word 46) with false. cbn [N.eqb Pos.eqb andb].
  rewrite <- (app_nil_r b), (host_path_label b) by done. done.
Qed.

(** X21, witness: [3.14]. *)
Lemma handleSubmit_dotted_witness :
  handleSubmit "3.14" false = Navigate "3.14"
  /\ handleAssistantSubmit "3.14" false = Ask "3.14".
Proof.
  apply (handleSubmit_dotted [51%N] [49%N; 52%N]); try done;
    by repeat constructor.
Defined.

End PageMore.
